(** * pngutil: replacing PNG metadata through seekable range views

    A shallow embedding of the Go package [pngutil] and the properties of
    its range views ([skipReadSeeker]), range chain ([multiReadSeeker]),
    structural check ([Assert]), iTXt encoder and chunk scan
    ([ReplaceMeta]), in both versions of [ReplaceMeta] the repository
    holds.

    Conventions of the embedding.
    - A Go [[]byte] or [string] is a [list byte].
    - [int64] offsets are [Z].  Where an offset chosen by the caller
      enters an addition (the [Seek] methods) the two's complement
      wrap-around is written out with [wrap64]; lengths of data in memory
      and cursors advanced by the bytes read are exact.
    - An [io.ReadSeeker] is a handle into a store of readers, so that
      several views can share, and reposition, one underlying source.
    - A [Read(p)] returns the bytes it wrote to the front of [p]; where
      the rest of [p] matters the caller's buffer is rebuilt with [fill].
    - Loops that Go writes as [for { ... }] take fuel; the entry points
      supply enough of it and the theorems show that a result is
      produced.
    - What the package uses of Go's library ([bytes.Reader],
      [io.MultiReader], [encoding/binary], [hash/crc32], [fmt.Errorf],
      [errors.Is]) is modelled after the library's documented
      behaviour. *)

From Stdlib Require Import ZArith List Lia Bool.
From Stdlib Require String.
Import String.StringSyntax.
From Stdlib.Strings Require Import Byte.
Import ListNotations.
Open Scope string_scope.
Open Scope list_scope.
Open Scope Z_scope.

(* ------------------------------------------------------------------ *)
(** ** Bytes, slices and fixed-width integers *)

Definition byte_to_Z (b : byte) : Z := Z.of_N (Byte.to_N b).

Definition byte_of_Z (z : Z) : byte :=
  match Byte.of_N (Z.to_N (z mod 256)) with
  | Some b => b
  | None => x00
  end.

Definition len (bs : list byte) : Z := Z.of_nat (length bs).

(** [make([]byte, n)]: n zero bytes. *)
Definition make (n : nat) : list byte := repeat x00 n.

(** [s[lo:hi]] for in-range bounds. *)
Definition slice (bs : list byte) (lo hi : nat) : list byte :=
  firstn (hi - lo) (skipn lo bs).

(** The buffer [p] after a read that delivered [bs] at its front. *)
Definition fill (p bs : list byte) : list byte :=
  bs ++ skipn (length bs) p.

Definition bytes_Equal (a b : list byte) : bool :=
  if list_eq_dec Byte.byte_eq_dec a b then true else false.

Definition wrap64 (z : Z) : Z := (z + 2 ^ 63) mod 2 ^ 64 - 2 ^ 63.

Definition uint32 (z : Z) : Z := z mod 2 ^ 32.

(** [binary.BigEndian.PutUint32] as the four bytes it stores. *)
Definition be32 (n : Z) : list byte :=
  [ byte_of_Z (Z.shiftr n 24); byte_of_Z (Z.shiftr n 16);
    byte_of_Z (Z.shiftr n 8); byte_of_Z n ].

(** [binary.BigEndian.Uint32] on the first four bytes of a slice. *)
Definition Uint32 (bs : list byte) : Z :=
  match bs with
  | b0 :: b1 :: b2 :: b3 :: _ =>
      Z.lor (Z.shiftl (byte_to_Z b0) 24)
        (Z.lor (Z.shiftl (byte_to_Z b1) 16)
           (Z.lor (Z.shiftl (byte_to_Z b2) 8) (byte_to_Z b3)))
  | _ => 0
  end.

(* ------------------------------------------------------------------ *)
(** ** CRC-32/IEEE ([hash/crc32], reflected polynomial 0xEDB88320) *)

Definition crc_poly : Z := 0xEDB88320.

Definition crc_shift (c : Z) : Z :=
  if Z.testbit c 0 then Z.lxor (Z.shiftr c 1) crc_poly else Z.shiftr c 1.

Definition crc_byte (c : Z) (b : byte) : Z :=
  Nat.iter 8 crc_shift (Z.lxor c (byte_to_Z b)).

(** [crc32.Update(crc, IEEETable, p)]. *)
Definition crc32_Update (crc : Z) (p : list byte) : Z :=
  Z.lxor (fold_left crc_byte p (Z.lxor crc 0xFFFFFFFF)) 0xFFFFFFFF.

(** [h := crc32.NewIEEE(); h.Write(p); h.Sum32()]. *)
Definition crc32_IEEE (p : list byte) : Z := crc32_Update 0 p.

(* ------------------------------------------------------------------ *)
(** ** Errors *)

Inductive error : Type :=
| EOF                                   (* io.EOF *)
| ErrNew (msg : String.string)          (* errors.New(msg) *)
| ErrIO                                 (* a failure of the underlying source *)
| ErrRestore (prev : error) (sErr : error)
    (* fmt.Errorf("pngutil: %w: %s", err, sErr.Error()) with err non-nil:
       wraps [prev] and carries the text of [sErr] *)
| ErrRestoreNil (sErr : error).
    (* the same call when err is nil: nothing is wrapped *)

Definition Errorf_restore (err : option error) (sErr : error) : error :=
  match err with
  | Some e => ErrRestore e sErr
  | None => ErrRestoreNil sErr
  end.

(** [errors.Is(err, io.EOF)]: follows the [%w] chain. *)
Fixpoint is_EOF (e : error) : bool :=
  match e with
  | EOF => true
  | ErrRestore e' _ => is_EOF e'
  | _ => false
  end.

(* ------------------------------------------------------------------ *)
(** ** The underlying source: [bytes.Reader], with injected I/O failures

    [data] and [pos] are the reader's [s] and [i].  [faults] schedules
    failures: each [Read] or [Seek] consumes the head of the list and, when
    it is [true], fails with [ErrIO] leaving the position where it was.  A
    reader with [faults = []] is exactly a [bytes.Reader]. *)

Record Reader : Type := mkReader {
  data : list byte;
  pos : Z;
  faults : list bool
}.

Definition NewReader (b : list byte) : Reader :=
  {| data := b; pos := 0; faults := [] |}.

Definition SeekStart : Z := 0.
Definition SeekCurrent : Z := 1.
Definition SeekEnd : Z := 2.

Definition next_fault (r : Reader) : bool * Reader :=
  match faults r with
  | [] => (false, r)
  | f :: fs => (f, {| data := data r; pos := pos r; faults := fs |})
  end.

(** [Read(p)] with [n = len(p)]: the bytes delivered and the error. *)
Definition Reader_Read (r : Reader) (n : nat)
  : list byte * option error * Reader :=
  let '(f, r) := next_fault r in
  if f then ([], Some ErrIO, r)
  else if pos r >=? len (data r) then ([], Some EOF, r)
  else
    let bs := firstn n (skipn (Z.to_nat (pos r)) (data r)) in
    (bs, None,
     {| data := data r; pos := pos r + len bs; faults := faults r |}).

Definition Reader_Seek (r : Reader) (offset whence : Z)
  : (Z + error) * Reader :=
  let '(f, r) := next_fault r in
  if f then (inr ErrIO, r)
  else
    let resolved :=
      if whence =? SeekStart then Some offset
      else if whence =? SeekCurrent then Some (wrap64 (pos r + offset))
      else if whence =? SeekEnd then Some (wrap64 (len (data r) + offset))
      else None in
    match resolved with
    | None => (inr (ErrNew "bytes.Reader.Seek: invalid whence"), r)
    | Some abs =>
        if abs <? 0
        then (inr (ErrNew "bytes.Reader.Seek: negative position"), r)
        else (inl abs, {| data := data r; pos := abs; faults := faults r |})
    end.

(* ------------------------------------------------------------------ *)
(** ** Package constants *)

Definition ihdrEnd : Z := 33.

Definition header : list byte := [x89; x50; x4e; x47; x0d; x0a; x1a; x0a].
Definition ihdr : list byte := [x00; x00; x00; x0d; x49; x48; x44; x52].
Definition iend : list byte :=
  [x00; x00; x00; x00; x49; x45; x4e; x44; xae; x42; x60; x82].
Definition itxt : list byte := [x69; x54; x58; x74].

Definition tag_IHDR : list byte := [x49; x48; x44; x52].
Definition tag_PLTE : list byte := [x50; x4c; x54; x45].
Definition tag_IDAT : list byte := [x49; x44; x41; x54].
Definition tag_IEND : list byte := [x49; x45; x4e; x44].

(** [retain[chunk]]: a lookup in the constant map; absent keys give false. *)
Definition retain (chunk : list byte) : bool :=
  bytes_Equal chunk tag_IHDR || bytes_Equal chunk tag_PLTE
  || bytes_Equal chunk tag_IDAT || bytes_Equal chunk tag_IEND.

(* ------------------------------------------------------------------ *)
(** ** Assert *)

(** The body of [Assert] between the registration of the deferred
    restoring seek and the return: the value it returns in [err]. *)
Definition Assert_checks (r : Reader) : option error * Reader :=
  match Reader_Seek r 0 SeekStart with
  | (inr e, r) => (Some e, r)
  | (inl _, r) =>
      let p := make 16 in
      match Reader_Read r 16 with
      | (_, Some e, r) => (Some e, r)
      | (bs, None, r) =>
          let p := fill p bs in
          if negb (bytes_Equal p (header ++ ihdr))
          then (Some (ErrNew "pngutil: missing header or IHDR chunk"), r)
          else
            match Reader_Seek r (-12) SeekEnd with
            | (inr e, r) => (Some e, r)
            | (inl _, r) =>
                let '(bs, err, r) := Reader_Read r 16 in
                let p := fill p bs in
                match err with
                | Some e =>
                    if negb (is_EOF e) then (Some e, r)
                    else if negb (bytes_Equal (slice p 0 12) iend)
                    then (Some (ErrNew
                            "pngutil: missing IEND chunk at end of file"), r)
                    else (None, r)
                | None =>
                    if negb (bytes_Equal (slice p 0 12) iend)
                    then (Some (ErrNew
                            "pngutil: missing IEND chunk at end of file"), r)
                    else (None, r)
                end
            end
      end
  end.

(** [Assert]: the position is captured, the checks run, and the deferred
    function seeks back; a failure of that seek replaces the result by the
    combined error. *)
Definition Assert (r : Reader) : option error * Reader :=
  match Reader_Seek r 0 SeekCurrent with
  | (inr e, r) => (Some e, r)
  | (inl offset, r) =>
      let '(err, r) := Assert_checks r in
      match Reader_Seek r offset SeekStart with
      | (inr sErr, r) => (Some (Errorf_restore err sErr), r)
      | (inl _, r) => (err, r)
      end
  end.

(* ------------------------------------------------------------------ *)
(** ** The store of underlying sources

    Every [io.ReadSeeker] a view refers to lives in the store; a view keeps
    the handle.  Two views with the same handle share the reader, and so
    its position.  A handle outside the store reads as an empty reader
    that keeps no position; the statements ask for handles inside. *)

Definition handle : Type := nat.
Definition store : Type := list Reader.

Definition get (st : store) (h : handle) : Reader := nth h st (NewReader []).

Fixpoint upd (st : store) (h : handle) (r : Reader) : store :=
  match st, h with
  | [], _ => []
  | _ :: st', O => r :: st'
  | x :: st', S h' => x :: upd st' h' r
  end.

(** A new reader is placed at the end of the store. *)
Definition alloc (st : store) (r : Reader) : handle * store :=
  (length st, st ++ [r]).

Fixpoint set_nth {A : Type} (l : list A) (i : nat) (x : A) : list A :=
  match l, i with
  | [], _ => []
  | _ :: l', O => x :: l'
  | y :: l', S i' => y :: set_nth l' i' x
  end.

(* ------------------------------------------------------------------ *)
(** ** skipReadSeeker: a view of [start, end) of a source *)

Module skipReadSeeker.

Record t : Type := mk {
  name : String.string;
  rs : handle;
  start : Z;
  end_ : Z;
  offset : Z
}.

Definition set_offset (srs : t) (o : Z) : t :=
  {| name := name srs; rs := rs srs; start := start srs;
     end_ := end_ srs; offset := o |}.

Definition set_end (srs : t) (e : Z) : t :=
  {| name := name srs; rs := rs srs; start := start srs;
     end_ := e; offset := offset srs |}.

(** [Read(p)] with [n = len(p)]. *)
Definition Read (st : store) (srs : t) (n : nat)
  : list byte * option error * t * store :=
  if offset srs >=? end_ srs then ([], Some EOF, srs, st)
  else
    let toRead := end_ srs - offset srs in
    let toRead := if toRead >? Z.of_nat n then Z.of_nat n else toRead in
    let '(bs, err, r) := Reader_Read (get st (rs srs)) (Z.to_nat toRead) in
    (bs, err, set_offset srs (offset srs + len bs), upd st (rs srs) r).

(** The position [Seek] computes before its bounds check; a [whence]
    outside the three constants leaves the offset as given. *)
Definition resolve (srs : t) (off whence : Z) : Z :=
  if whence =? SeekStart then wrap64 (off + start srs)
  else if whence =? SeekCurrent
  then wrap64 (off + wrap64 (start srs + offset srs))
  else if whence =? SeekEnd then wrap64 (end_ srs + off)
  else off.

Definition errBeforeStart : error :=
  ErrNew "pngutil: skipReadSeeker seeking before start".

(** [Seek] returns both results, as Go does: the offset and the error. *)
Definition Seek (st : store) (srs : t) (off whence : Z)
  : Z * option error * t * store :=
  let off := resolve srs off whence in
  if off <? start srs then (0, Some errBeforeStart, srs, st)
  else
    let '(res, r) := Reader_Seek (get st (rs srs)) off SeekStart in
    let err := match res with inl _ => None | inr e => Some e end in
    (off, err, set_offset srs off, upd st (rs srs) r).

End skipReadSeeker.

(* ------------------------------------------------------------------ *)
(** ** multiReadSeeker: the concatenation of views *)

Module multiReadSeeker.

Record t : Type := mk {
  overall : Z;
  rsIdx : nat;
  readSeekers : list skipReadSeeker.t;
  sizes : list Z;
  size : Z
}.

Definition nil_srs : skipReadSeeker.t :=
  skipReadSeeker.mk "" 0%nat 0 0 0.

Definition active (mrs : t) : skipReadSeeker.t :=
  nth (rsIdx mrs) (readSeekers mrs) nil_srs.

Definition set_active (mrs : t) (srs : skipReadSeeker.t) : t :=
  {| overall := overall mrs; rsIdx := rsIdx mrs;
     readSeekers := set_nth (readSeekers mrs) (rsIdx mrs) srs;
     sizes := sizes mrs; size := size mrs |}.

Definition set_rsIdx (mrs : t) (i : nat) : t :=
  {| overall := overall mrs; rsIdx := i;
     readSeekers := readSeekers mrs;
     sizes := sizes mrs; size := size mrs |}.

Definition set_overall (mrs : t) (o : Z) : t :=
  {| overall := o; rsIdx := rsIdx mrs;
     readSeekers := readSeekers mrs;
     sizes := sizes mrs; size := size mrs |}.

Definition errWhence : error :=
  ErrNew "pngutil: invalid whence value for multiReadSeeker".
Definition errBounds : error :=
  ErrNew "pngutil: seek out of bounds for multiReadSeeker".

(** The offset after the [switch] of [Seek]; [None] on the default
    case. *)
Definition resolve (mrs : t) (off whence : Z) : option Z :=
  if whence =? SeekStart then Some off
  else if whence =? SeekCurrent then Some (wrap64 (off + overall mrs))
  else if whence =? SeekEnd then Some (wrap64 (size mrs + off))
  else None.

(** The [for i, s := range mrs.sizes] loop of [Seek], from index [i]
    with running [total]. *)
Fixpoint Seek_scan (st : store) (mrs : t) (off : Z)
    (i : nat) (ss : list Z) (total : Z) : (Z + error) * t * store :=
  match ss with
  | [] => (inr errBounds, mrs, st)
  | s :: ss' =>
      if (off >=? total) && (off <? total + s) then
        let mrs := set_rsIdx mrs i in
        let rsOffset := off - total in
        let '(_, err, srs, st) :=
          skipReadSeeker.Seek st (active mrs) rsOffset SeekStart in
        let mrs := set_active mrs srs in
        match err with
        | Some e => (inr e, mrs, st)
        | None => (inl off, set_overall mrs off, st)
        end
      else Seek_scan st mrs off (S i) ss' (total + s)
  end.

Definition Seek (st : store) (mrs : t) (off whence : Z)
  : (Z + error) * t * store :=
  match resolve mrs off whence with
  | None => (inr errWhence, mrs, st)
  | Some off => Seek_scan st mrs off 0%nat (sizes mrs) 0
  end.

(** The [for] loop of [Read]; [acc] is [p[:read]], [n = len(p)]. *)
Fixpoint Read_loop (fuel : nat) (st : store) (mrs : t) (n : nat)
    (acc : list byte) : option (list byte * option error * t * store) :=
  match fuel with
  | O => None
  | S fuel =>
      if (length acc =? n)%nat then Some (acc, None, mrs, st)
      else
        let '(bs, err, srs, st) :=
          skipReadSeeker.Read st (active mrs) (n - length acc) in
        let mrs := set_active mrs srs in
        let acc := acc ++ bs in
        let mrs := set_overall mrs (overall mrs + len bs) in
        match err with
        | Some e =>
            if is_EOF e then
              if (rsIdx mrs =? length (readSeekers mrs) - 1)%nat
              then Some (acc, Some e, mrs, st)
              else
                let mrs := set_rsIdx mrs (S (rsIdx mrs)) in
                let '(_, _, srs, st) :=
                  skipReadSeeker.Seek st (active mrs) 0 SeekStart in
                Read_loop fuel st (set_active mrs srs) n acc
            else Some (acc, Some e, mrs, st)
        | None => Read_loop fuel st mrs n acc
        end
  end.

(** Every turn of the loop delivers a byte, moves to the next view or
    returns, so this many turns are enough. *)
Definition Read (st : store) (mrs : t) (n : nat)
  : option (list byte * option error * t * store) :=
  Read_loop (S (n + length (readSeekers mrs))) st mrs n [].

Definition Size (mrs : t) : Z := size mrs.

End multiReadSeeker.

(** [newMultiReadSeeker(readSeekers...)]. *)
Definition newMultiReadSeeker (st : store)
    (readSeekers : list skipReadSeeker.t)
  : (multiReadSeeker.t + error) * store :=
  let sizes :=
    map (fun rs => skipReadSeeker.end_ rs - skipReadSeeker.start rs)
      readSeekers in
  let size := fold_left Z.add sizes 0 in
  let mrs := multiReadSeeker.mk 0 0%nat readSeekers sizes size in
  match multiReadSeeker.Seek st mrs 0 SeekStart with
  | (inr e, _, st) => (inr e, st)
  | (inl _, mrs, st) => (inl mrs, st)
  end.

(** Draining a chain the way [WriteFile] does: [Read] into a buffer of
    [bufsz] bytes until an error; the bytes of every read are kept. *)
Fixpoint drain_loop (fuel : nat) (st : store) (mrs : multiReadSeeker.t)
    (bufsz : nat) (out : list byte)
  : option (list byte * option error * multiReadSeeker.t * store) :=
  match fuel with
  | O => None
  | S fuel =>
      match multiReadSeeker.Read st mrs bufsz with
      | None => None
      | Some (bs, err, mrs, st) =>
          let out := out ++ bs in
          match err with
          | Some e =>
              if is_EOF e then Some (out, None, mrs, st)
              else Some (out, Some e, mrs, st)
          | None => drain_loop fuel st mrs bufsz out
          end
      end
  end.

Definition drain (st : store) (mrs : multiReadSeeker.t) (bufsz : nat)
  : option (list byte * option error * multiReadSeeker.t * store) :=
  drain_loop (S (S (Z.to_nat (multiReadSeeker.size mrs)))) st mrs bufsz [].

(* ------------------------------------------------------------------ *)
(** ** The iTXt encoder of ReplaceMeta

    [Metadata] is a Go map; the encoder only ranges over it.  The model
    takes the entries in the order the second [range] loop visits them
    (Go leaves that order unspecified); the first loop only sums lengths.
    A slice expression out of range panics in Go: the buffer operations
    return [None] there. *)

Definition Metadata : Type := list (list byte * list byte).

(** The first loop: the length of all iTXt chunks. *)
Definition itxtLen (metadata : Metadata) : nat :=
  fold_left
    (fun n kv => (n + 4 + 4 + length (fst kv) + 5 + length (snd kv) + 4)%nat)
    metadata 0%nat.

(** [copy(bb[i:], src)]: the buffer after the copy and the count. *)
Definition copy_at (bb : list byte) (i : nat) (src : list byte)
  : option (list byte * nat) :=
  if (i <=? length bb)%nat then
    let n := Nat.min (length bb - i) (length src) in
    Some (firstn i bb ++ firstn n src ++ skipn (i + n) bb, n)
  else None.

(** [int32ToBytes(bb[lo:...], n)]: PutUint32 stores four bytes at [lo]. *)
Definition int32ToBytes_at (bb : list byte) (lo : nat) (n : Z)
  : option (list byte) :=
  if (lo + 4 <=? length bb)%nat
  then Some (firstn lo bb ++ be32 n ++ skipn (lo + 4) bb)
  else None.

(** [bb[lo:hi]] with Go's bounds check. *)
Definition slice_checked (bb : list byte) (lo hi : nat)
  : option (list byte) :=
  if ((lo <=? hi) && (hi <=? length bb))%nat
  then Some (slice bb lo hi) else None.

(** One turn of the second loop: writes the chunk of [(k, v)] at [i]. *)
Definition encode_entry (bb : list byte) (i : nat)
    (kv : list byte * list byte) : option (list byte * nat) :=
  let '(k, v) := kv in
  let start := i in
  let i := (i + 4)%nat in
  match copy_at bb i itxt with None => None | Some (bb, n) =>
  let i := (i + n)%nat in
  match copy_at bb i k with None => None | Some (bb, n) =>
  let i := (i + n)%nat in
  let i := (i + 5)%nat in
  match copy_at bb i v with None => None | Some (bb, n) =>
  let i := (i + n)%nat in
  let length := uint32 (Z.of_nat i - (Z.of_nat start + 8)) in
  match int32ToBytes_at bb start length with None => None | Some bb =>
  match slice_checked bb (start + 4) (start + 8 + Z.to_nat length) with
  | None => None
  | Some body =>
  match int32ToBytes_at bb i (crc32_IEEE body) with None => None | Some bb =>
  Some (bb, (i + 4)%nat)
  end end end end end end.

Fixpoint encode_loop (bb : list byte) (i : nat) (metadata : Metadata)
  : option (list byte * nat) :=
  match metadata with
  | [] => Some (bb, i)
  | kv :: rest =>
      match encode_entry bb i kv with
      | None => None
      | Some (bb, i) => encode_loop bb i rest
      end
  end.

(** Both loops: the buffer [bb], eight bytes longer than the chunks, and
    the index [i] reached. *)
Definition encode_metadata (metadata : Metadata)
  : option (list byte * nat) :=
  encode_loop (make (itxtLen metadata + 8)) 0%nat metadata.

(** The blob handed to [bytes.NewReader]: [bb[:len(bb)-8]]. *)
Definition metadata_blob (metadata : Metadata) : option (list byte) :=
  match encode_metadata metadata with
  | None => None
  | Some (bb, _) => Some (firstn (length bb - 8) bb)
  end.

(* ------------------------------------------------------------------ *)
(** ** ReplaceMeta (returning a multiReadSeeker) *)

Inductive result (A : Type) : Type :=
| Ok (a : A)
| Err (e : error)
| Panic.
Arguments Ok {A} a.
Arguments Err {A} e.
Arguments Panic {A}.

Definition errShortHeader : error :=
  ErrNew "pngutil: couldn't read next chunk length and type".

Definition last_index {A : Type} (l : list A) : nat := (length l - 1)%nat.

(** The scan loop.  [p] is the scratch slice [bb[i:]], [pos] the offset
    of the chunk header about to be read.  Returns the views and the
    final [pos].  The scratch slice is the last eight bytes of [bb] and
    the blob the first [len(bb)-8]: a read into [p] leaves the blob
    alone, so the two are kept apart here. *)
Fixpoint scan (fuel : nat) (st : store) (f : handle) (p : list byte)
    (readers : list skipReadSeeker.t) (pos : Z) (keptPrevChunk : bool)
  : option ((list skipReadSeeker.t * Z + error) * store) :=
  match fuel with
  | O => None
  | S fuel =>
      let '(bs, err, r) := Reader_Read (get st f) (length p) in
      let st := upd st f r in
      let p := fill p bs in
      let n := length bs in
      match err with
      | Some e =>
          if is_EOF e then Some (inl (readers, pos), st)
          else Some (inr e, st)
      | None =>
          if negb (n =? 8)%nat then Some (inr errShortHeader, st)
          else
            let length := Uint32 (slice p 0 4) + 4 in
            let chunk := slice p 4 8 in
            let '(readers, keptPrevChunk) :=
              if negb (retain chunk) then (readers, false)
              else if keptPrevChunk then
                let last := last_index readers in
                (set_nth readers last
                   (skipReadSeeker.set_end
                      (nth last readers multiReadSeeker.nil_srs) pos),
                 true)
              else
                (readers ++ [skipReadSeeker.mk "chunk" f pos (pos + length) 0],
                 true) in
            match Reader_Seek (get st f) length SeekCurrent with
            | (inr e, r) => Some (inr e, upd st f r)
            | (inl pos, r) =>
                scan fuel (upd st f r) f p readers pos keptPrevChunk
            end
      end
  end.

(** Every turn moves the source at least twelve bytes further, so the
    length of the source bounds the number of turns. *)
Definition scan_fuel (st : store) (f : handle) : nat :=
  S (length (data (get st f))).

Definition ReplaceMeta (st : store) (f : handle) (metadata : Metadata)
  : option (result multiReadSeeker.t * store) :=
  let '(err, r) := Assert (get st f) in
  let st := upd st f r in
  match err with
  | Some e => Some (Err e, st)
  | None =>
      match encode_metadata metadata with
      | None => Some (Panic, st)
      | Some (bb, i) =>
          match slice_checked bb i (length bb) with
          | None => Some (Panic, st)
          | Some p =>
              match Reader_Seek (get st f) ihdrEnd SeekStart with
              | (inr e, r) => Some (Err e, upd st f r)
              | (inl _, r) =>
                  let st := upd st f r in
                  let blob := firstn (length bb - 8) bb in
                  let '(m, st) := alloc st (NewReader blob) in
                  let readers :=
                    [ skipReadSeeker.mk "header" f 0 ihdrEnd 0;
                      skipReadSeeker.mk "metadata" m 0 (len bb - 8) 0 ] in
                  match scan (scan_fuel st f) st f p readers ihdrEnd false with
                  | None => None
                  | Some (inr e, st) => Some (Err e, st)
                  | Some (inl (readers, pos), st) =>
                      let last := last_index readers in
                      let readers :=
                        set_nth readers last
                          (skipReadSeeker.set_end
                             (nth last readers multiReadSeeker.nil_srs) pos) in
                      match newMultiReadSeeker st readers with
                      | (inr e, st) => Some (Err e, st)
                      | (inl mrs, st) => Some (Ok mrs, st)
                      end
                  end
              end
          end
      end
  end.

(* ------------------------------------------------------------------ *)
(** ** ReplaceMeta of pngutil.go (returning an io.Reader)

    The earlier implementation: views are [skipReader]s, which seek the
    source on their first read, chained by [io.MultiReader]. *)

Module SkipReaderVersion.

Record skipReader : Type := mkSkipReader {
  r : handle;
  offset : Z;
  limit : Z;
  begun : bool
}.

Definition set_limit (sr : skipReader) (l : Z) : skipReader :=
  {| r := r sr; offset := offset sr; limit := l; begun := begun sr |}.

(** The tail of [skipReader.Read] after the [switch]. *)
Definition Read_tail (st : store) (sr : skipReader) (n : nat)
  : result (list byte * option error * skipReader * store) :=
  let max := limit sr - offset sr in
  if (Z.of_nat n >? max) && (max <? 0) then Panic
  else
    let n := if Z.of_nat n >? max then Z.to_nat max else n in
    let '(bs, err, rd) := Reader_Read (get st (r sr)) n in
    Ok (bs, err,
        {| r := r sr; offset := offset sr + len bs; limit := limit sr;
           begun := begun sr |},
        upd st (r sr) rd).

(** [skipReader.Read(p)] with [n = len(p)]. *)
Definition skipReader_Read (st : store) (sr : skipReader) (n : nat)
  : result (list byte * option error * skipReader * store) :=
  if negb (begun sr) then
    let sr := {| r := r sr; offset := offset sr; limit := limit sr;
                 begun := true |} in
    match Reader_Seek (get st (r sr)) (offset sr) SeekStart with
    | (inr e, rd) => Ok ([], Some e, sr, upd st (r sr) rd)
    | (inl _, rd) => Read_tail (upd st (r sr) rd) sr n
    end
  else if offset sr >=? limit sr then Ok ([], Some EOF, sr, st)
  else Read_tail st sr n.

(** The elements of [[]io.Reader]. *)
Inductive ioReader : Type :=
| RSkip (sr : skipReader)
| RBytes (h : handle).

Definition ioReader_Read (st : store) (rd : ioReader) (n : nat)
  : result (list byte * option error * ioReader * store) :=
  match rd with
  | RSkip sr =>
      match skipReader_Read st sr n with
      | Ok (bs, err, sr, st) => Ok (bs, err, RSkip sr, st)
      | Err e => Err e
      | Panic => Panic
      end
  | RBytes h =>
      let '(bs, err, b) := Reader_Read (get st h) n in
      Ok (bs, err, RBytes h, upd st h b)
  end.

Definition is_exactly_EOF (err : option error) : bool :=
  match err with Some EOF => true | _ => false end.

(** [io.MultiReader(readers...).Read(p)]: the state is the list of
    readers that remain. *)
Fixpoint MultiReader_Read (st : store) (readers : list ioReader) (n : nat)
  : result (list byte * option error * list ioReader * store) :=
  match readers with
  | [] => Ok ([], Some EOF, [], st)
  | rd :: rest =>
      match ioReader_Read st rd n with
      | Ok (bs, err, rd, st) =>
          if is_exactly_EOF err then
            if (0 <? length bs)%nat then
              Ok (bs, match rest with [] => Some EOF | _ => None end,
                  rest, st)
            else MultiReader_Read st rest n
          else Ok (bs, err, rd :: rest, st)
      | Err e => Err e
      | Panic => Panic
      end
  end.

Definition close_or_drop (readers : list ioReader) (pos : Z)
  : list ioReader :=
  let last := last_index readers in
  match nth last readers (RBytes 0%nat) with
  | RBytes _ => readers
  | RSkip sr =>
      if offset sr =? pos then firstn last readers
      else set_nth readers last (RSkip (set_limit sr pos))
  end.

Fixpoint scan (fuel : nat) (st : store) (rs : handle) (p : list byte)
    (readers : list ioReader) (pos : Z) (activeReader : bool)
  : option ((list ioReader * Z + error) * store) :=
  match fuel with
  | O => None
  | S fuel =>
      let '(bs, err, rd) := Reader_Read (get st rs) (length p) in
      let st := upd st rs rd in
      let p := fill p bs in
      let n := length bs in
      match err with
      | Some e =>
          if is_EOF e then Some (inl (readers, pos), st)
          else Some (inr e, st)
      | None =>
          if negb (n =? 8)%nat then Some (inr errShortHeader, st)
          else
            let length := Uint32 (slice p 0 4) + 4 in
            let chunk := slice p 4 8 in
            let '(readers, activeReader) :=
              if negb (retain chunk) then
                if negb activeReader then (readers, activeReader)
                else (close_or_drop readers pos, false)
              else
                if activeReader then (readers, activeReader)
                else
                  (readers ++ [RSkip (mkSkipReader rs pos 0 false)], true)
            in
            match Reader_Seek (get st rs) length SeekCurrent with
            | (inr e, rd) => Some (inr e, upd st rs rd)
            | (inl pos, rd) =>
                scan fuel (upd st rs rd) rs p readers pos activeReader
            end
      end
  end.

Definition ReplaceMeta (st : store) (rs : handle) (metadata : Metadata)
  : option (result (list ioReader) * store) :=
  let '(err, rd) := Assert (get st rs) in
  let st := upd st rs rd in
  match err with
  | Some e => Some (Err e, st)
  | None =>
      match encode_metadata metadata with
      | None => Some (Panic, st)
      | Some (bb, i) =>
          match slice_checked bb i (length bb) with
          | None => Some (Panic, st)
          | Some p =>
              match Reader_Seek (get st rs) ihdrEnd SeekStart with
              | (inr e, rd) => Some (Err e, upd st rs rd)
              | (inl _, rd) =>
                  let st := upd st rs rd in
                  let blob := firstn (length bb - 8) bb in
                  let '(m, st) := alloc st (NewReader blob) in
                  let readers :=
                    [ RSkip (mkSkipReader rs 0 ihdrEnd false);
                      RBytes m;
                      RSkip (mkSkipReader rs ihdrEnd 0 false) ] in
                  match scan (scan_fuel st rs) st rs p readers ihdrEnd true
                  with
                  | None => None
                  | Some (inr e, st) => Some (Err e, st)
                  | Some (inl (readers, pos), st) =>
                      let last := last_index readers in
                      match nth last readers (RBytes 0%nat) with
                      | RBytes _ => Some (Panic, st)
                      | RSkip sr =>
                          Some (Ok (set_nth readers last
                                      (RSkip (set_limit sr pos))), st)
                      end
                  end
              end
          end
      end
  end.

(** Draining as [WriteFile] does, with a buffer of [bufsz] bytes. *)
Fixpoint drain_loop (fuel : nat) (st : store) (readers : list ioReader)
    (bufsz : nat) (out : list byte)
  : option (result (list byte)) :=
  match fuel with
  | O => None
  | S fuel =>
      match MultiReader_Read st readers bufsz with
      | Ok (bs, err, readers, st) =>
          let out := out ++ bs in
          match err with
          | Some e =>
              if is_EOF e then Some (Ok out) else Some (Err e)
          | None => drain_loop fuel st readers bufsz out
          end
      | Err e => Some (Err e)
      | Panic => Some Panic
      end
  end.

(** Every read delivers a byte, ends a reader or starts one, so the
    data in the store and the number of readers bound the reads. *)
Definition drain (st : store) (readers : list ioReader) (bufsz : nat)
  : option (result (list byte)) :=
  drain_loop
    (S (2 * length readers
        + fold_right (fun rd n => (length (data rd) + n)%nat) 0%nat st))
    st readers bufsz [].

End SkipReaderVersion.

(* ------------------------------------------------------------------ *)
(** ** What the edited stream is meant to be

    The splice the package documentation and the chunk framing describe:
    the first 33 bytes, the encoded metadata, and every chunk of a
    retained type whole (length, type, payload and CRC), in order. *)

Definition mk_chunk (ty payload : list byte) : list byte :=
  be32 (len payload) ++ ty ++ payload ++ be32 (crc32_IEEE (ty ++ payload)).

(** The chunks of [bs], a sequence of whole chunks: type and full bytes. *)
Fixpoint chunks_of (fuel : nat) (bs : list byte)
  : list (list byte * list byte) :=
  match fuel with
  | O => []
  | S fuel =>
      if (length bs <? 8)%nat then []
      else
        let total := (12 + Z.to_nat (Uint32 (slice bs 0 4)))%nat in
        (slice bs 4 8, firstn total bs) :: chunks_of fuel (skipn total bs)
  end.

Definition retained_bytes (bs : list byte) : list byte :=
  concat (map snd (filter (fun c => retain (fst c))
                     (chunks_of (length bs) bs))).

Definition spliced (src blob : list byte) : list byte :=
  firstn 33 src ++ blob ++ retained_bytes (skipn 33 src).

(* ------------------------------------------------------------------ *)
(** ** Predicates used in the statements *)

(** No source of the store has a failure scheduled: all are plain
    [bytes.Reader]s. *)
Definition no_faults (st : store) : Prop :=
  Forall (fun r => faults r = []) st.

(** A position that fits [int64] and is not negative, as the index of a
    [bytes.Reader] always is. *)
Definition valid_pos (z : Z) : Prop := 0 <= z < 2 ^ 63.

(** The invariant of the data model: the cursor between start and end. *)
Definition cursor_in_bounds (srs : skipReadSeeker.t) : Prop :=
  0 <= skipReadSeeker.offset srs - skipReadSeeker.start srs
    <= skipReadSeeker.end_ srs - skipReadSeeker.start srs.

(** The bytes of [data] from absolute position [from], [n] of them. *)
Definition bytes_at (bs : list byte) (from : Z) (n : nat) : list byte :=
  firstn n (skipn (Z.to_nat from) bs).

(** A read of the view delivers the source bytes under its cursor. *)
Definition reads_under_cursor (st : store) (srs : skipReadSeeker.t)
    (n : nat) : Prop :=
  let '(bs, _, _, _) := skipReadSeeker.Read st srs n in
  bs = bytes_at (data (get st (skipReadSeeker.rs srs)))
         (skipReadSeeker.offset srs) (length bs).

(** The source of a view stands at the view's cursor. *)
Definition in_sync (st : store) (srs : skipReadSeeker.t) : Prop :=
  pos (get st (skipReadSeeker.rs srs)) = skipReadSeeker.offset srs.

(* ------------------------------------------------------------------ *)
(** ** Sample data *)

(** The source of the package tests: the bytes 0..7. *)
Definition src8 : list byte := [x00; x01; x02; x03; x04; x05; x06; x07].
Definition src8b : list byte := [x08; x09; x0a; x0b; x0c; x0d; x0e; x0f].

(** The view of the tests: start 2, end 6. *)
Definition view_2_6 : skipReadSeeker.t := skipReadSeeker.mk "" 0%nat 2 6 0.

(** Two views of one source: [0, 4) and [4, 8). *)
Definition view_lo : skipReadSeeker.t := skipReadSeeker.mk "" 0%nat 0 4 0.
Definition view_hi : skipReadSeeker.t := skipReadSeeker.mk "" 0%nat 4 8 0.

(** A small image file: signature, IHDR, then the given chunks. *)
Definition tag_tEXt : list byte := [x74; x45; x58; x74].
Definition ihdr_chunk : list byte :=
  mk_chunk tag_IHDR
    [x00; x00; x00; x01; x00; x00; x00; x01; x08; x00; x00; x00; x00].
Definition idat_chunk : list byte :=
  mk_chunk tag_IDAT [x11; x22; x33; x44; x55].
Definition text_chunk : list byte := mk_chunk tag_tEXt [x41; x00; x42].
Definition iend_chunk : list byte := mk_chunk tag_IEND [].

(** IHDR, IDAT, tEXt, IEND: a text chunk after the image data. *)
Definition png_text_last : list byte :=
  header ++ ihdr_chunk ++ idat_chunk ++ text_chunk ++ iend_chunk.

(** IHDR, tEXt, IDAT, IEND: the text chunk before the image data. *)
Definition png_text_first : list byte :=
  header ++ ihdr_chunk ++ text_chunk ++ idat_chunk ++ iend_chunk.

(** A reader over the sample file standing at offset 5, and the same
    with a failure scheduled for its sixth operation: the five of
    [Assert]'s checks succeed, the restoring seek fails. *)
Definition reader_at_5 : Reader :=
  {| data := png_text_last; pos := 5; faults := [] |}.
Definition reader_failing_restore : Reader :=
  {| data := png_text_last; pos := 5;
     faults := [false; false; false; false; false; true] |}.
(** The first [Read] of the checks fails. *)
Definition reader_failing_read : Reader :=
  {| data := png_text_last; pos := 5; faults := [false; false; true] |}.
(** Not an image: the trailer alone. *)
Definition reader_no_header : Reader :=
  {| data := iend ++ iend; pos := 5; faults := [] |}.
(** The same source when its fourth operation fails: the checks end
    with the header error, then the restoring seek fails. *)
Definition reader_failing_restore_after_error : Reader :=
  {| data := iend ++ iend; pos := 5;
     faults := [false; false; false; true] |}.

(** The two views of one source after each was seeked to its own start,
    [view_lo] first: the view [view_lo] as the seek left it, and the
    store. *)
Definition shared_after_seeks : skipReadSeeker.t * store :=
  let '(_, _, lo, st) :=
    skipReadSeeker.Seek [NewReader src8] view_lo 0 SeekStart in
  let '(_, _, _, st) := skipReadSeeker.Seek st view_hi 0 SeekStart in
  (lo, st).

(* ------------------------------------------------------------------ *)
(** ** The iTXt record as the chunk framing describes it *)

(** The gap between keyword and text: null separator, compression flag,
    compression method, and the two separators of the omitted language
    tag and translated keyword. *)
Definition itxtKWGap : list byte := [x00; x00; x00; x00; x00].

(** Length, type tag, keyword, gap, text, CRC over tag and payload. *)
Definition itxt_record (kv : list byte * list byte) : list byte :=
  let payload := fst kv ++ itxtKWGap ++ snd kv in
  be32 (len (fst kv) + 5 + len (snd kv)) ++ itxt ++ payload
    ++ be32 (crc32_IEEE (itxt ++ payload)).

(** The bytes one entry takes in the buffer: what the first loop adds. *)
Definition record_length (kv : list byte * list byte) : nat :=
  (4 + 4 + length (fst kv) + 5 + length (snd kv) + 4)%nat.

(** The payload length of every entry fits the 32 bit length field. *)
Definition fits_uint32 (metadata : Metadata) : Prop :=
  Forall (fun kv => len (fst kv) + 5 + len (snd kv) < 2 ^ 32) metadata.

Definition two_entries : Metadata :=
  [ ([x41], [x42; x43]); ([x44; x45], []) ].

(* ------------------------------------------------------------------ *)
(** ** The content of a chain *)

(** The view with index [i] of a chain. *)
Definition view_at (mrs : multiReadSeeker.t) (i : nat) : skipReadSeeker.t :=
  nth i (multiReadSeeker.readSeekers mrs) multiReadSeeker.nil_srs.

(** The store once the plain source of the view [v] stands at [o]. *)
Definition positioned (st : store) (v : skipReadSeeker.t) (o : Z) : store :=
  upd st (skipReadSeeker.rs v)
    {| data := data (get st (skipReadSeeker.rs v)); pos := o;
       faults := [] |}.

(** What identifies the range of a view: source, start and end. *)
Definition view_key (srs : skipReadSeeker.t) : handle * Z * Z :=
  (skipReadSeeker.rs srs, skipReadSeeker.start srs, skipReadSeeker.end_ srs).

(** The source bytes from position [from] up to position [to]. *)
Definition span (st : store) (h : handle) (from to : Z) : list byte :=
  slice (data (get st h)) (Z.to_nat from) (Z.to_nat to).

(** The bytes a view stands for. *)
Definition view_bytes (st : store) (srs : skipReadSeeker.t) : list byte :=
  span st (skipReadSeeker.rs srs) (skipReadSeeker.start srs)
    (skipReadSeeker.end_ srs).

Definition chain_bytes (st : store) (mrs : multiReadSeeker.t) : list byte :=
  concat (map (view_bytes st) (multiReadSeeker.readSeekers mrs)).

(** The bytes still ahead: the active view from its cursor on, then the
    views after it. *)
Definition remaining (st : store) (mrs : multiReadSeeker.t) : list byte :=
  let a := multiReadSeeker.active mrs in
  span st (skipReadSeeker.rs a) (skipReadSeeker.offset a)
    (skipReadSeeker.end_ a)
  ++ concat (map (view_bytes st)
               (skipn (S (multiReadSeeker.rsIdx mrs))
                  (multiReadSeeker.readSeekers mrs))).

(** A view the chain can seek to its start: its source is in the store
    and its start is a position. *)
Definition view_ok (st : store) (srs : skipReadSeeker.t) : Prop :=
  (skipReadSeeker.rs srs < length st)%nat /\
  valid_pos (skipReadSeeker.start srs).

(** A view that lies within its source. *)
Definition view_within (st : store) (srs : skipReadSeeker.t) : Prop :=
  (skipReadSeeker.rs srs < length st)%nat /\
  0 <= skipReadSeeker.start srs <= skipReadSeeker.end_ srs /\
  skipReadSeeker.end_ srs <= len (data (get st (skipReadSeeker.rs srs))) /\
  skipReadSeeker.end_ srs < 2 ^ 63.

(** A chain ready to be read: plain sources, an active view whose cursor
    is at or after its start, and the source of the active view standing
    at that cursor. *)
Definition ready (st : store) (mrs : multiReadSeeker.t) : Prop :=
  no_faults st /\
  Forall (view_ok st) (multiReadSeeker.readSeekers mrs) /\
  (multiReadSeeker.rsIdx mrs < length (multiReadSeeker.readSeekers mrs))%nat /\
  skipReadSeeker.start (multiReadSeeker.active mrs)
    <= skipReadSeeker.offset (multiReadSeeker.active mrs) /\
  in_sync st (multiReadSeeker.active mrs).

(** Reading and seeking change cursors and positions only. *)
Definition same_chain (st : store) (mrs : multiReadSeeker.t)
    (st' : store) (mrs' : multiReadSeeker.t) : Prop :=
  map data st' = map data st /\
  map view_key (multiReadSeeker.readSeekers mrs')
    = map view_key (multiReadSeeker.readSeekers mrs) /\
  multiReadSeeker.sizes mrs' = multiReadSeeker.sizes mrs /\
  multiReadSeeker.size mrs' = multiReadSeeker.size mrs.

(** A chain as [newMultiReadSeeker] builds it over views that lie within
    plain sources. *)
Definition chain_wf (st : store) (mrs : multiReadSeeker.t) : Prop :=
  no_faults st /\
  Forall (view_within st) (multiReadSeeker.readSeekers mrs) /\
  multiReadSeeker.sizes mrs
    = map (fun rs => skipReadSeeker.end_ rs - skipReadSeeker.start rs)
        (multiReadSeeker.readSeekers mrs) /\
  multiReadSeeker.size mrs = fold_left Z.add (multiReadSeeker.sizes mrs) 0.

(** The chain of the package test: two views of eight bytes, each over
    its own reader. *)
Definition test_store : store := [NewReader src8; NewReader src8b].
Definition test_views : list skipReadSeeker.t :=
  [ skipReadSeeker.mk "" 0%nat 0 8 0; skipReadSeeker.mk "" 1%nat 0 8 0 ].
Definition test_chain : multiReadSeeker.t :=
  multiReadSeeker.mk 0 0%nat test_views [8; 8] 16.

(** The length of a view as [newMultiReadSeeker] caches it, and the sum
    of such lengths. *)
Definition view_size (srs : skipReadSeeker.t) : Z :=
  skipReadSeeker.end_ srs - skipReadSeeker.start srs.

Definition total_size (sizes : list Z) : Z := fold_right Z.add 0 sizes.

(** IHDR, IDAT, IDAT, tEXt, IEND: a run of two kept chunks before a
    dropped one. *)
Definition idat2_chunk : list byte := mk_chunk tag_IDAT [x66; x77].
Definition png_run_then_text : list byte :=
  header ++ ihdr_chunk ++ idat_chunk ++ idat2_chunk ++ text_chunk
    ++ iend_chunk.

(** The views [ReplaceMeta] emits for a file held by the only reader of
    the store, by source, start and end; [None] if it fails. *)
Definition emitted_views (png : list byte) (metadata : Metadata)
  : option (list (handle * Z * Z)) :=
  match ReplaceMeta [NewReader png] 0%nat metadata with
  | Some (Ok mrs, _) => Some (map view_key (multiReadSeeker.readSeekers mrs))
  | _ => None
  end.

(** The bytes the stream [ReplaceMeta] returns delivers when drained with
    a buffer of 64 bytes, as [WriteFile] does. *)
Definition edited (png : list byte) (metadata : Metadata)
  : option (list byte) :=
  match ReplaceMeta [NewReader png] 0%nat metadata with
  | Some (Ok mrs, st) =>
      match drain st mrs 64 with
      | Some (out, None, _, _) => Some out
      | _ => None
      end
  | _ => None
  end.

(** The same for the implementation of pngutil.go. *)
Definition edited_by_skipReader (png : list byte) (metadata : Metadata)
  : option (list byte) :=
  match SkipReaderVersion.ReplaceMeta [NewReader png] 0%nat metadata with
  | Some (Ok readers, st) =>
      match SkipReaderVersion.drain st readers 64 with
      | Some (Ok out) => Some out
      | _ => None
      end
  | _ => None
  end.

(** A view the scan has appended while the source stood at [at_]: over
    the file, starting at a position not after [at_], not ending before
    it starts, its cursor untouched. *)
Definition chunk_view_ok (f : handle) (at_ : Z) (v : skipReadSeeker.t)
  : Prop :=
  skipReadSeeker.rs v = f /\
  valid_pos (skipReadSeeker.start v) /\
  skipReadSeeker.start v <= skipReadSeeker.end_ v /\
  skipReadSeeker.start v <= at_.

(** The two views [ReplaceMeta] starts from: the first 33 bytes of the
    file [f] and the blob of [n] bytes held by the reader [m]. *)
Definition header_view (f : handle) : skipReadSeeker.t :=
  skipReadSeeker.mk "header" f 0 ihdrEnd 0.
Definition metadata_view (m : handle) (n : Z) : skipReadSeeker.t :=
  skipReadSeeker.mk "metadata" m 0 n 0.

(** A view as the scan leaves it, with bounds that [drain] can count
    on. *)
Definition view_sound (st : store) (v : skipReadSeeker.t) : Prop :=
  view_ok st v /\ skipReadSeeker.start v <= skipReadSeeker.end_ v.

(* ------------------------------------------------------------------ *)
(** ** Files framed as the format prescribes *)

(** From byte [i] on the file is a sequence of whole chunks, each
    announced by its length field, that ends with the IEND chunk. *)
Inductive chunks_to_IEND (d : list byte) : nat -> Prop :=
| at_IEND (i : nat) :
    skipn i d = iend -> chunks_to_IEND d i
| at_chunk (i : nat) :
    (i + 8 <= length d)%nat ->
    chunks_to_IEND d (i + 12 + Z.to_nat (Uint32 (slice d i (i + 4)))) ->
    chunks_to_IEND d i.

(** The signature and the opening of IHDR, then IHDR's 25 bytes end at
    offset 33 and whole chunks follow up to IEND.  The length of a Go
    slice fits [int]. *)
Definition png_framed (d : list byte) : Prop :=
  firstn 16 d = header ++ ihdr /\
  chunks_to_IEND d 33 /\
  len d < 2 ^ 63.

(* ------------------------------------------------------------------ *)
(** ** Proof steps used more than once *)

(** Equal heads of two concatenations are set aside. *)
Ltac app_eq := repeat (apply (f_equal2 (@app byte)); [reflexivity|]).

(** Splits the conjunctions that are written in the goal, not those
    inside definitions. *)
Ltac conj_split := repeat match goal with |- _ /\ _ => split end.

(* ------------------------------------------------------------------ *)
(** ** Files whose dropped chunks all stand before the retained ones *)

(** The type of the chunk whose header is at byte [i], and the offset
    of the header after it, as the scan reads them. *)
Definition chunk_type (d : list byte) (i : nat) : list byte :=
  slice d (i + 4) (i + 8).

Definition next_chunk (d : list byte) (i : nat) : nat :=
  (i + 12 + Z.to_nat (Uint32 (slice d i (i + 4))))%nat.

(** From byte [i] on, whole chunks of retained types up to IEND. *)
Inductive retained_to_IEND (d : list byte) : nat -> Prop :=
| retained_IEND (i : nat) :
    skipn i d = iend -> retained_to_IEND d i
| retained_chunk (i : nat) :
    (i + 8 <= length d)%nat ->
    retain (chunk_type d i) = true ->
    retained_to_IEND d (next_chunk d i) ->
    retained_to_IEND d i.

(** From byte [i] on, whole chunks of types that are not retained, up to
    byte [a], and from there on retained chunks up to IEND. *)
Inductive dropped_then_retained (d : list byte) (a : nat) : nat -> Prop :=
| first_retained :
    retained_to_IEND d a -> dropped_then_retained d a a
| dropped_chunk (i : nat) :
    (i + 8 <= length d)%nat ->
    retain (chunk_type d i) = false ->
    dropped_then_retained d a (next_chunk d i) ->
    dropped_then_retained d a i.

(** An image file in which ancillary chunks come first: the signature
    and IHDR, then from byte 33 the chunks to drop, then from byte [a]
    the chunks to keep. *)
Definition png_dropped_first (d : list byte) (a : nat) : Prop :=
  firstn 16 d = header ++ ihdr /\
  dropped_then_retained d a 33 /\
  len d < 2 ^ 63.

(** The view the scan appends for a chunk at [pos] with length field
    [n]. *)
Definition chunk_view (f : handle) (pos n : Z) : skipReadSeeker.t :=
  skipReadSeeker.mk "chunk" f pos (pos + (n + 4)) 0.

(** The store once the plain file [f], of content [d], stands at byte
    [i]. *)
Definition file_at (st : store) (f : handle) (d : list byte) (i : nat)
  : store :=
  upd st f {| data := d; pos := Z.of_nat i; faults := [] |}.

(* ------------------------------------------------------------------ *)
(** ** WriteFile

    A file name is a Go string: a list of bytes.  [filepath.Ext] and
    [strings.TrimRight] follow the library, for paths separated by
    slashes.  What the operating system does is left open: [Abs] stands
    for [filepath.Abs] and [Create] for [os.Create], which returns the
    file it opened or an error.  An open file records what has been
    written to it, the failures scheduled for its writes (a failed write
    stores nothing) and what [Close] will answer.  The reader handed to
    [WriteFile] is a chain. *)

Definition dot_png : list byte := [x2e; x70; x6e; x67].

(** The loop of [filepath.Ext], from the last byte back: [back] is what
    is still to be looked at, in reverse, [seen] what has been passed. *)
Fixpoint Ext_from (back seen : list byte) : list byte :=
  match back with
  | [] => []
  | c :: back' =>
      if Byte.eqb c x2f then []
      else if Byte.eqb c x2e then c :: seen
      else Ext_from back' (c :: seen)
  end.

Definition filepath_Ext (path : list byte) : list byte :=
  Ext_from (rev path) [].

(** [strings.TrimRight(s, cutset)], on the reversed string. *)
Fixpoint trim_back (back cutset : list byte) : list byte :=
  match back with
  | [] => []
  | c :: back' =>
      if existsb (Byte.eqb c) cutset then trim_back back' cutset else back
  end.

Definition TrimRight (s cutset : list byte) : list byte :=
  rev (trim_back (rev s) cutset).

(** The name [WriteFile] writes to, before it is made absolute. *)
Definition WriteFile_name (name : list byte) : list byte :=
  if negb (bytes_Equal (filepath_Ext name) dot_png)
  then TrimRight name [x2e] ++ dot_png
  else name.

Record File : Type := mkFile {
  written : list byte;
  wfaults : list bool;
  closing : option error
}.

(** [f.Write(bs)]: the count and the error. *)
Definition File_Write (f : File) (bs : list byte)
  : nat * option error * File :=
  match wfaults f with
  | true :: fs =>
      (0%nat, Some ErrIO,
       {| written := written f; wfaults := fs; closing := closing f |})
  | _ =>
      (length bs, None,
       {| written := written f ++ bs; wfaults := tl (wfaults f);
          closing := closing f |})
  end.

(** The errors [WriteFile] builds. *)
Inductive file_error : Type :=
| ErrPngutil (e : error)
    (* fmt.Errorf("pngutil: %w", err) *)
| ErrClose (prev : file_error) (cErr : error)
    (* fmt.Errorf("%w: %v", *err, cErr) with *err non-nil: wraps [prev]
       and carries the text of [cErr] *)
| ErrCloseNil (cErr : error).
    (* the same call when *err is nil: nothing is wrapped *)

Definition Errorf_close (prev : option file_error) (cErr : error)
  : file_error :=
  match prev with
  | Some e => ErrClose e cErr
  | None => ErrCloseNil cErr
  end.

(** [io.TeeReader(r, f).Read(p)] with [n = len(p)]. *)
Definition TeeReader_Read (st : store) (r : multiReadSeeker.t) (f : File)
    (n : nat)
  : option (nat * option error * multiReadSeeker.t * store * File) :=
  match multiReadSeeker.Read st r n with
  | None => None
  | Some (bs, err, r, st) =>
      if (0 <? length bs)%nat then
        match File_Write f bs with
        | (k, Some e, f) => Some (k, Some e, r, st, f)
        | (_, None, f) => Some (length bs, err, r, st, f)
        end
      else Some (length bs, err, r, st, f)
  end.

(** The [for] loop of [WriteFile]: [n] is the count so far. *)
Fixpoint WriteFile_loop (fuel : nat) (st : store) (r : multiReadSeeker.t)
    (f : File) (n : Z) : option (Z * option file_error * File) :=
  match fuel with
  | O => None
  | S fuel =>
      match TeeReader_Read st r f 64 with
      | None => None
      | Some (count, err, r, st, f) =>
          let n := n + Z.of_nat count in
          match err with
          | Some e =>
              if is_EOF e then Some (n, None, f)
              else Some (n, Some (ErrPngutil e), f)
          | None => WriteFile_loop fuel st r f n
          end
      end
  end.

(** [closeFile(c, err)]: [err] is a pointer, [None] when it is nil;
    the result is what the pointer refers to afterwards.  Storing
    through the nil pointer panics. *)
Definition closeFile (c : File) (err : option (option file_error))
  : result (option file_error) :=
  let cErr := closing c in
  match err with
  | None => Panic
  | Some e =>
      match cErr with
      | None => Ok e
      | Some ce => Ok (Some (Errorf_close e ce))
      end
  end.

(** [WriteFile(name, r)]: the count and the error, and the file it
    created under its absolute name, if it came to that.  Every read
    that does not end the loop delivers a byte, so the size of the chain
    bounds the turns. *)
Definition WriteFile (Abs : list byte -> list byte + error)
    (Create : list byte -> File + error)
    (name : list byte) (st : store) (r : multiReadSeeker.t)
  : option (result (Z * option file_error) * option (list byte * File)) :=
  let name := WriteFile_name name in
  match Abs name with
  | inr e => Some (Ok (0, Some (ErrPngutil e)), None)
  | inl name =>
      match Create name with
      | inr e => Some (Ok (0, Some (ErrPngutil e)), None)
      | inl f =>
          match WriteFile_loop (S (S (Z.to_nat (multiReadSeeker.size r))))
                  st r f 0 with
          | None => None
          | Some (n, err, f) =>
              match closeFile f (Some err) with
              | Ok err => Some (Ok (n, err), Some (name, f))
              | Err e => Some (Err e, Some (name, f))
              | Panic => Some (Panic, Some (name, f))
              end
          end
      end
  end.

(* ------------------------------------------------------------------ *)
(** ** The readers of pngutil.go: what they still hold *)

(** The bytes a reader of the chain has still to deliver: for a view
    the source from its offset up to its limit, for the reader of the
    records what lies after its position. *)
Definition rest_of (st : store) (rd : SkipReaderVersion.ioReader)
  : list byte :=
  match rd with
  | SkipReaderVersion.RSkip sr =>
      span st (SkipReaderVersion.r sr) (SkipReaderVersion.offset sr)
        (SkipReaderVersion.limit sr)
  | SkipReaderVersion.RBytes h =>
      skipn (Z.to_nat (pos (get st h))) (data (get st h))
  end.

Definition rest_of_all (st : store)
    (readers : list SkipReaderVersion.ioReader) : list byte :=
  concat (map (rest_of st) readers).

(** A reader that waits behind the first one: a view of the file [f]
    that has not begun and is not empty, or a reader of its own. *)
Definition waiting (st : store) (f : handle)
    (rd : SkipReaderVersion.ioReader) : Prop :=
  match rd with
  | SkipReaderVersion.RSkip sr =>
      SkipReaderVersion.r sr = f /\ SkipReaderVersion.begun sr = false /\
      0 <= SkipReaderVersion.offset sr < SkipReaderVersion.limit sr /\
      SkipReaderVersion.limit sr <= len (data (get st f))
  | SkipReaderVersion.RBytes h =>
      h <> f /\ (h < length st)%nat /\ 0 <= pos (get st h)
  end.

(** The reader being read: a view that has not begun, or one that has
    and whose source stands at its offset, or a reader of its own. *)
Definition reading (st : store) (f : handle)
    (rd : SkipReaderVersion.ioReader) : Prop :=
  match rd with
  | SkipReaderVersion.RSkip sr =>
      SkipReaderVersion.r sr = f /\
      0 <= SkipReaderVersion.offset sr <= SkipReaderVersion.limit sr /\
      SkipReaderVersion.limit sr <= len (data (get st f)) /\
      (if SkipReaderVersion.begun sr
       then pos (get st f) = SkipReaderVersion.offset sr
       else SkipReaderVersion.offset sr < SkipReaderVersion.limit sr)
  | SkipReaderVersion.RBytes h =>
      h <> f /\ (h < length st)%nat /\ 0 <= pos (get st h)
  end.

Definition bytes_handles (readers : list SkipReaderVersion.ioReader)
  : list handle :=
  flat_map (fun rd => match rd with
                      | SkipReaderVersion.RBytes h => [h]
                      | SkipReaderVersion.RSkip _ => []
                      end) readers.

(** A list of readers as [ReplaceMeta] of pngutil.go hands it to
    [io.MultiReader], at any moment of draining it: views of one plain
    file and readers of their own. *)
Definition readers_ok (st : store) (f : handle)
    (readers : list SkipReaderVersion.ioReader) : Prop :=
  no_faults st /\ (f < length st)%nat /\
  len (data (get st f)) < 2 ^ 63 /\
  NoDup (bytes_handles readers) /\
  match readers with
  | [] => True
  | rd :: rest => reading st f rd /\ Forall (waiting st f) rest
  end.

(** A closed run of the scan: the view of the bytes from [s] up to [l]
    of the file. *)
Definition run_view (f : handle) (s l : nat) : SkipReaderVersion.ioReader :=
  SkipReaderVersion.RSkip
    (SkipReaderVersion.mkSkipReader f (Z.of_nat s) (Z.of_nat l) false).

(** The view the scan has open, if any, as the last of the readers. *)
Definition open_view (f : handle) (open : option (nat * Z))
  : list SkipReaderVersion.ioReader :=
  match open with
  | Some (s, l) =>
      [SkipReaderVersion.RSkip
         (SkipReaderVersion.mkSkipReader f (Z.of_nat s) l false)]
  | None => []
  end.

Definition is_open (open : option (nat * Z)) : bool :=
  match open with Some _ => true | None => false end.

(** The bytes of the retained chunks from byte [i] of the file on. *)
Definition kept_from (d : list byte) (fuel i : nat) : list byte :=
  concat (map snd (filter (fun c => retain (fst c))
                     (chunks_of fuel (skipn i d)))).

(** A closed run given by its bounds, as a reader and as bytes of the
    file [d]. *)
Definition run_of (f : handle) (sl : nat * nat)
  : SkipReaderVersion.ioReader :=
  run_view f (fst sl) (snd sl).

Definition run_bytes (d : list byte) (sl : nat * nat) : list byte :=
  slice d (fst sl) (snd sl).

(* ------------------------------------------------------------------ *)
(** ** Bytes that belong to chunks of the four retained types *)







(* ------------------------------------------------------------------ *)
(** * Properties *)

(** ** Arithmetic and list helpers *)

Lemma wrap64_small (z : Z) : - 2 ^ 63 <= z < 2 ^ 63 -> wrap64 z = z.
Proof.
  intros H. unfold wrap64.
  rewrite Z.mod_small by lia. lia.
Qed.

Lemma wrap64_range (z : Z) : - 2 ^ 63 <= wrap64 z < 2 ^ 63.
Proof.
  unfold wrap64.
  pose proof (Z.mod_pos_bound (z + 2 ^ 63) (2 ^ 64) ltac:(lia)). lia.
Qed.

Lemma len_app (a b : list byte) : len (a ++ b) = len a + len b.
Proof. unfold len. rewrite length_app. lia. Qed.

Lemma len_nonneg (a : list byte) : 0 <= len a.
Proof. unfold len. lia. Qed.

Lemma bytes_Equal_true (a b : list byte) : bytes_Equal a b = true <-> a = b.
Proof.
  unfold bytes_Equal. destruct (list_eq_dec _ a b); split; congruence.
Qed.

(** ** The store *)

Lemma get_upd_same (st : store) (h : handle) (r : Reader) :
  (h < length st)%nat -> get (upd st h r) h = r.
Proof.
  unfold get. revert h. induction st as [|x st IH]; intros [|h] Hh;
    simpl in *; try lia; auto.
  apply IH. lia.
Qed.

Lemma get_upd_other (st : store) (h h' : handle) (r : Reader) :
  h <> h' -> get (upd st h r) h' = get st h'.
Proof.
  unfold get. revert h h'. induction st as [|x st IH]; intros [|h] [|h'] Hne;
    simpl; try congruence; auto.
Qed.

Lemma length_upd (st : store) (h : handle) (r : Reader) :
  length (upd st h r) = length st.
Proof.
  revert h. induction st as [|x st IH]; intros [|h]; simpl; auto.
Qed.

Lemma map_data_upd (st : store) (h : handle) (r : Reader) :
  data r = data (get st h) -> map data (upd st h r) = map data st.
Proof.
  unfold get. revert h. induction st as [|x st IH]; intros [|h] Hd;
    simpl in *; auto; f_equal; auto.
Qed.

Lemma data_get (st : store) (h : handle) :
  data (get st h) = nth h (map data st) [].
Proof.
  unfold get. change (@nil byte) with (data (NewReader [])).
  symmetry. apply map_nth.
Qed.

Lemma no_faults_get (st : store) (h : handle) :
  no_faults st -> faults (get st h) = [].
Proof.
  unfold no_faults, get. intros H. revert h.
  induction H as [|x st Hx _ IH]; intros [|h]; simpl; auto.
Qed.

Lemma no_faults_upd (st : store) (h : handle) (r : Reader) :
  no_faults st -> faults r = [] -> no_faults (upd st h r).
Proof.
  unfold no_faults. intros H Hr. revert h.
  induction H as [|x st Hx Hst IH]; intros [|h]; simpl; constructor; auto.
Qed.

(** ** The underlying reader *)

Lemma Reader_Read_data (r : Reader) (n : nat) :
  let '(_, _, r') := Reader_Read r n in data r' = data r.
Proof.
  unfold Reader_Read, next_fault.
  destruct (faults r) as [|[] fs]; simpl; auto;
    destruct (pos r >=? len (data r)); auto.
Qed.

Lemma Reader_Read_length (r : Reader) (n : nat) :
  let '(bs, _, _) := Reader_Read r n in (length bs <= n)%nat.
Proof.
  unfold Reader_Read, next_fault.
  destruct (faults r) as [|[] fs]; simpl; try lia;
    destruct (pos r >=? len (data r)); simpl; try lia;
    rewrite length_firstn; lia.
Qed.

(** A read never seeks: what it delivers lies under the position the
    reader had, and the position advances by the bytes delivered. *)
Lemma Reader_Read_at_pos (r : Reader) (n : nat) :
  let '(bs, _, r') := Reader_Read r n in
  bs = bytes_at (data r) (pos r) (length bs) /\ pos r' = pos r + len bs.
Proof.
  assert (Hnil : forall d p, [] = bytes_at d p (@length byte [])) by reflexivity.
  assert (Hfst : forall (l : list byte) k,
             firstn k l = firstn (length (firstn k l)) l).
  { intros l k. rewrite length_firstn.
    destruct (Nat.le_ge_cases k (length l)).
    - rewrite Nat.min_l by lia. reflexivity.
    - rewrite Nat.min_r by lia. rewrite !firstn_all2 by lia. reflexivity. }
  unfold Reader_Read, next_fault, bytes_at.
  destruct (faults r) as [|[] fs]; simpl;
    try (split; [reflexivity | unfold len; simpl; lia]);
    destruct (pos r >=? len (data r)); simpl;
    try (split; [reflexivity | unfold len; simpl; lia]);
    (split; [apply Hfst | reflexivity]).
Qed.

Lemma Reader_Seek_data (r : Reader) (off whence : Z) :
  data (snd (Reader_Seek r off whence)) = data r.
Proof.
  unfold Reader_Seek, next_fault.
  destruct (faults r) as [|[] fs]; simpl; auto;
    repeat match goal with
      | |- context [if ?c then _ else _] => destruct c; simpl; auto
      end.
Qed.

(** A seek that succeeds leaves the reader at the offset it returns. *)
Lemma Reader_Seek_ok (r r' : Reader) (off whence abs : Z) :
  Reader_Seek r off whence = (inl abs, r') ->
  pos r' = abs /\ 0 <= abs /\ data r' = data r.
Proof.
  unfold Reader_Seek, next_fault.
  destruct (faults r) as [|[] fs]; simpl;
    repeat match goal with
      | |- context [if ?c then _ else _] => destruct c eqn:?; simpl
      end; intros H; inversion H; subst; simpl; repeat split; auto; lia.
Qed.

(** A seek that fails leaves the position where it was. *)
Lemma Reader_Seek_err (r r' : Reader) (off whence : Z) (e : error) :
  Reader_Seek r off whence = (inr e, r') ->
  pos r' = pos r /\ data r' = data r.
Proof.
  unfold Reader_Seek, next_fault.
  destruct (faults r) as [|[] fs]; simpl;
    repeat match goal with
      | |- context [if ?c then _ else _] => destruct c eqn:?; simpl
      end; intros H; inversion H; subst; simpl; auto.
Qed.

(** On a plain [bytes.Reader] an absolute seek to a position that is not
    negative succeeds. *)
Lemma Reader_Seek_start_plain (r : Reader) (off : Z) :
  faults r = [] -> 0 <= off ->
  Reader_Seek r off SeekStart =
    (inl off, {| data := data r; pos := off; faults := [] |}).
Proof.
  intros Hf Hoff. unfold Reader_Seek, next_fault. rewrite Hf. simpl.
  destruct (off <? 0) eqn:E; [apply Z.ltb_lt in E; lia|].
  rewrite Hf. reflexivity.
Qed.

(* ------------------------------------------------------------------ *)
(** ** Assert *)

Lemma Reader_Seek_current_0 (r r0 : Reader) (off : Z) :
  valid_pos (pos r) ->
  Reader_Seek r 0 SeekCurrent = (inl off, r0) -> off = pos r.
Proof.
  unfold valid_pos, Reader_Seek, next_fault. intros Hp.
  destruct (faults r) as [|[] fs]; simpl; try discriminate;
    rewrite Z.add_0_r, wrap64_small by lia;
    destruct (pos r <? 0); intros H; inversion H; reflexivity.
Qed.

Lemma Assert_checks_data (r : Reader) :
  data (snd (Assert_checks r)) = data r.
Proof.
  unfold Assert_checks.
  pose proof (Reader_Seek_data r 0 SeekStart) as H1.
  destruct (Reader_Seek r 0 SeekStart) as [[a|e] r1]; simpl in *; auto.
  pose proof (Reader_Read_data r1 16) as H2.
  destruct (Reader_Read r1 16) as [[bs [e|]] r2]; simpl; [congruence|].
  destruct (negb _); simpl; [congruence|].
  pose proof (Reader_Seek_data r2 (-12) SeekEnd) as H3.
  destruct (Reader_Seek r2 (-12) SeekEnd) as [[a'|e] r3]; simpl in *;
    [|congruence].
  pose proof (Reader_Read_data r3 16) as H4.
  destruct (Reader_Read r3 16) as [[bs' [e|]] r4]; simpl;
    repeat match goal with
      | |- context [if ?c then _ else _] => destruct c; simpl
      end; congruence.
Qed.

(** C4.  [Assert] never changes the data of the source, and it leaves
    the source at the position it had when called on every path on which
    the restoring seek succeeds - whether the checks ended in success,
    in a structural error or in an I/O error - returning exactly what
    the checks returned.  If the opening seek fails nothing has moved
    and that error is returned.  If the restoring seek fails, the source
    stays where the checks left it and the error returned holds both
    failures: it wraps the error [p] of the checks and carries the text
    of the error [sErr] of the seek ([ErrRestore p sErr]), or, when the
    checks had succeeded, carries [sErr] alone ([ErrRestoreNil sErr]). *)
Theorem Assert_restores_position (r r' : Reader) (err : option error) :
  valid_pos (pos r) ->
  Assert r = (err, r') ->
  data r' = data r /\
  ((exists e,
       Reader_Seek r 0 SeekCurrent = (inr e, r') /\
       err = Some e /\ pos r' = pos r)
   \/
   (exists r0 prev r1,
       Reader_Seek r 0 SeekCurrent = (inl (pos r), r0) /\
       Assert_checks r0 = (prev, r1) /\
       ((Reader_Seek r1 (pos r) SeekStart = (inl (pos r), r') /\
         err = prev /\ pos r' = pos r)
        \/
        (exists sErr,
            Reader_Seek r1 (pos r) SeekStart = (inr sErr, r') /\
            pos r' = pos r1 /\
            match prev with
            | Some p => err = Some (ErrRestore p sErr)
            | None => err = Some (ErrRestoreNil sErr)
            end)))).
Proof.
  intros Hp. unfold Assert.
  destruct (Reader_Seek r 0 SeekCurrent) as [[offset|e] r0] eqn:Hcap.
  - pose proof (Reader_Seek_current_0 _ _ _ Hp Hcap) as Hoff. subst offset.
    pose proof Hcap as Hcap'.
    apply Reader_Seek_ok in Hcap' as (_ & _ & Hd0).
    pose proof (Assert_checks_data r0) as Hd1.
    destruct (Assert_checks r0) as [prev r1] eqn:Hchk. simpl in Hd1.
    destruct (Reader_Seek r1 (pos r) SeekStart) as [[abs|sErr] r2] eqn:Hback;
      intros H; inversion H; subst err r'; clear H.
    + destruct (Reader_Seek_ok _ _ _ _ _ Hback) as (Hpos & _ & Hd2).
      assert (Habs : abs = pos r).
      { revert Hback. unfold Reader_Seek, next_fault.
        destruct (faults r1) as [|[] fs]; simpl; try discriminate;
          destruct (pos r <? 0); intros H; inversion H; reflexivity. }
      rewrite Habs in Hback. split; [congruence|].
      right. exists r0, prev, r1.
      split; [reflexivity|]. split; [exact Hchk|].
      left. split; [exact Hback|]. split; [reflexivity | congruence].
    + destruct (Reader_Seek_err _ _ _ _ _ Hback) as (Hpos & Hd2).
      split; [congruence|].
      right. exists r0, prev, r1.
      split; [reflexivity|]. split; [exact Hchk|].
      right. exists sErr. split; [exact Hback|]. split; [exact Hpos|].
      destruct prev; reflexivity.
  - intros H; inversion H; subst err r'; clear H.
    destruct (Reader_Seek_err _ _ _ _ _ Hcap) as (Hpos & Hd).
    split; [exact Hd|]. left. exists e. auto.
Qed.

(** On a source that is not an image and whose restoring seek fails:
    both the header error and the failure of the seek are returned, and
    the source stays at byte 16, after the sixteen bytes read. *)
Lemma Assert_restores_position_witness :
  valid_pos (pos reader_failing_restore_after_error) /\
  data (snd (Assert reader_failing_restore_after_error))
    = data reader_failing_restore_after_error /\
  fst (Assert reader_failing_restore_after_error)
    = Some (ErrRestore (ErrNew "pngutil: missing header or IHDR chunk")
              ErrIO) /\
  pos (snd (Assert reader_failing_restore_after_error)) = 16.
Proof.
  assert (Hp : valid_pos (pos reader_failing_restore_after_error))
    by (unfold valid_pos; simpl; lia).
  split; [exact Hp|].
  destruct (Assert_restores_position reader_failing_restore_after_error
              (snd (Assert reader_failing_restore_after_error))
              (fst (Assert reader_failing_restore_after_error)) Hp)
    as (Hd & [(e & Hseek & _) | (r0 & prev & r1 & Hseek & Hchk & Hend)]).
  - destruct (Assert reader_failing_restore_after_error); reflexivity.
  - vm_compute in Hseek. discriminate Hseek.
  - split; [exact Hd|].
    vm_compute in Hseek. injection Hseek as <-.
    vm_compute in Hchk. injection Hchk as <- <-.
    destruct Hend as [(Hback & _) | (sErr & Hback & Hpos & Herr)].
    + vm_compute in Hback. discriminate Hback.
    + vm_compute in Hback. injection Hback as <-.
      split; [exact Herr|]. rewrite Hpos. reflexivity.
Defined.

(** The four kinds of path on the sample file, evaluated: the checks
    pass, the checks find no header, a read fails, and the restoring seek
    fails after the checks passed. *)
Example Assert_ok_path :
  Assert reader_at_5 = (None, reader_at_5).
Proof. vm_compute. reflexivity. Qed.

Example Assert_structural_path :
  Assert reader_no_header =
    (Some (ErrNew "pngutil: missing header or IHDR chunk"),
     reader_no_header).
Proof. vm_compute. reflexivity. Qed.

Example Assert_io_path :
  Assert reader_failing_read =
    (Some ErrIO, {| data := png_text_last; pos := 5; faults := [] |}).
Proof. vm_compute. reflexivity. Qed.

Example Assert_restore_failure_path :
  Assert reader_failing_restore =
    (Some (ErrRestoreNil ErrIO),
     {| data := png_text_last; pos := 77; faults := [] |}).
Proof. vm_compute. reflexivity. Qed.

(* ------------------------------------------------------------------ *)
(** ** skipReadSeeker *)

Section View.

Import skipReadSeeker.

Variable st : store.
Variable srs : skipReadSeeker.t.

Lemma Seek_before_start (off whence : Z) :
  resolve srs off whence < start srs ->
  Seek st srs off whence = (0, Some errBeforeStart, srs, st).
Proof.
  intros H. unfold Seek. apply Z.ltb_lt in H. rewrite H. reflexivity.
Qed.

Lemma Seek_from_start (off whence : Z) :
  start srs <= resolve srs off whence ->
  Seek st srs off whence =
    (resolve srs off whence,
     match fst (Reader_Seek (get st (rs srs)) (resolve srs off whence)
                  SeekStart) with
     | inl _ => None
     | inr e => Some e
     end,
     set_offset srs (resolve srs off whence),
     upd st (rs srs)
       (snd (Reader_Seek (get st (rs srs)) (resolve srs off whence)
               SeekStart))).
Proof.
  intros H. unfold Seek.
  destruct (resolve srs off whence <? start srs) eqn:E;
    [apply Z.ltb_lt in E; lia|].
  destruct (Reader_Seek _ _ _) as [res r]. reflexivity.
Qed.

(** The errors of the underlying reader are not the bounds error. *)
Lemma Reader_Seek_not_bounds_error (r : Reader) (off whence : Z) :
  fst (Reader_Seek r off whence) <> inr errBeforeStart.
Proof.
  unfold Reader_Seek, next_fault, errBeforeStart.
  destruct (faults r) as [|[] fs]; simpl;
    repeat match goal with
      | |- context [if ?c then _ else _] => destruct c; simpl
      end; discriminate.
Qed.

Lemma Read_exhausted (k : nat) :
  end_ srs <= offset srs -> Read st srs k = ([], Some EOF, srs, st).
Proof.
  intros H. unfold Read.
  destruct (offset srs >=? end_ srs) eqn:E; [reflexivity|].
  rewrite Z.geb_leb in E. apply Z.leb_gt in E. lia.
Qed.

(** What a read of the view does when the cursor is before the end. *)
Lemma Read_before_end (k : nat) :
  offset srs < end_ srs ->
  Read st srs k =
    (let n := Z.to_nat (Z.min (end_ srs - offset srs) (Z.of_nat k)) in
     let res := Reader_Read (get st (rs srs)) n in
     (fst (fst res), snd (fst res),
      set_offset srs (offset srs + len (fst (fst res))),
      upd st (rs srs) (snd res))).
Proof.
  intros H. unfold Read.
  destruct (offset srs >=? end_ srs) eqn:E;
    [rewrite Z.geb_leb in E; apply Z.leb_le in E; lia|].
  assert (Hmin : (if end_ srs - offset srs >? Z.of_nat k
                  then Z.of_nat k else end_ srs - offset srs)
                 = Z.min (end_ srs - offset srs) (Z.of_nat k)).
  { destruct (end_ srs - offset srs >? Z.of_nat k) eqn:G.
    - apply Z.gtb_lt in G. lia.
    - rewrite Z.gtb_ltb in G. apply Z.ltb_ge in G. lia. }
  rewrite Hmin. cbv zeta.
  destruct (Reader_Read _ _) as [[bs err] r]. reflexivity.
Qed.

(** A read never seeks the source: the bytes lie under the position
    the source has. *)
Lemma Read_at_source_position (k : nat) bs err srs' st' :
  Read st srs k = (bs, err, srs', st') ->
  bs = bytes_at (data (get st (rs srs))) (pos (get st (rs srs)))
         (length bs).
Proof.
  destruct (Z_lt_le_dec (offset srs) (end_ srs)) as [Hlt|Hge].
  - rewrite Read_before_end by assumption. cbv zeta.
    pose proof (Reader_Read_at_pos (get st (rs srs))
      (Z.to_nat (Z.min (end_ srs - offset srs) (Z.of_nat k)))) as H.
    destruct (Reader_Read _ _) as [[bs0 err0] r0]. simpl.
    intros E; inversion E; subst. tauto.
  - rewrite Read_exhausted by assumption.
    intros E; inversion E; subst. reflexivity.
Qed.

Lemma Read_keeps_sync (k : nat) bs err srs' st' :
  Read st srs k = (bs, err, srs', st') ->
  (rs srs < length st)%nat -> in_sync st srs -> in_sync st' srs'.
Proof.
  unfold in_sync.
  destruct (Z_lt_le_dec (offset srs) (end_ srs)) as [Hlt|Hge].
  - rewrite Read_before_end by assumption. cbv zeta.
    pose proof (Reader_Read_at_pos (get st (rs srs))
      (Z.to_nat (Z.min (end_ srs - offset srs) (Z.of_nat k)))) as H.
    destruct (Reader_Read _ _) as [[bs0 err0] r0]. simpl.
    intros E Hh Hs; inversion E; subst. simpl.
    rewrite get_upd_same by assumption. lia.
  - rewrite Read_exhausted by assumption.
    intros E; inversion E; subst. auto.
Qed.

Lemma Read_fields (k : nat) bs err srs' st' :
  Read st srs k = (bs, err, srs', st') ->
  start srs' = start srs /\ end_ srs' = end_ srs /\ rs srs' = rs srs /\
  offset srs' = offset srs + len bs /\
  (len bs <= Z.max 0 (end_ srs - offset srs)).
Proof.
  destruct (Z_lt_le_dec (offset srs) (end_ srs)) as [Hlt|Hge].
  - rewrite Read_before_end by assumption. cbv zeta.
    pose proof (Reader_Read_length (get st (rs srs))
      (Z.to_nat (Z.min (end_ srs - offset srs) (Z.of_nat k)))) as H.
    destruct (Reader_Read _ _) as [[bs0 err0] r0]. simpl.
    intros E; inversion E; subst. simpl. unfold len.
    repeat split; auto. lia.
  - rewrite Read_exhausted by assumption.
    intros E; inversion E; subst. unfold len. simpl.
    repeat split; auto; lia.
Qed.

(** After a seek that returned no error the source stands at the
    cursor. *)
Lemma Seek_sync (off whence n : Z) srs' st' :
  Seek st srs off whence = (n, None, srs', st') ->
  (rs srs < length st)%nat -> in_sync st' srs'.
Proof.
  unfold in_sync.
  destruct (Z_lt_le_dec (resolve srs off whence) (start srs)) as [Hlt|Hge].
  - rewrite Seek_before_start by assumption. discriminate.
  - rewrite Seek_from_start by assumption.
    destruct (Reader_Seek _ _ _) as [[abs|e] r] eqn:Hs; simpl;
      intros E Hh; inversion E; subst. simpl.
    rewrite get_upd_same by assumption.
    revert Hs. unfold Reader_Seek, next_fault.
    destruct (faults _) as [|[] fs]; simpl; try discriminate;
      destruct (_ <? 0); intros H; inversion H; reflexivity.
Qed.

(** The bounds error is returned exactly when the resolved position is
    below the start. *)
Lemma Seek_bounds_error_iff (off whence n : Z) err srs' st' :
  Seek st srs off whence = (n, err, srs', st') ->
  (err = Some errBeforeStart <-> resolve srs off whence < start srs).
Proof.
  intros HS.
  destruct (Z_lt_le_dec (resolve srs off whence) (start srs)) as [Hlt|Hge].
  - rewrite Seek_before_start in HS by assumption.
    inversion HS; subst. tauto.
  - rewrite Seek_from_start in HS by assumption.
    inversion HS; subst; clear HS.
    split; [|lia]. intros H.
    pose proof (Reader_Seek_not_bounds_error (get st (rs srs))
                  (resolve srs off whence) SeekStart) as Hne.
    destruct (fst (Reader_Seek _ _ _)); [discriminate|].
    inversion H; subst. congruence.
Qed.

End View.

(** The check of [Seek] is made on the position the code computes,
    [resolve]: the bounds error is returned exactly when that position
    is below [start], and then neither the view nor the store has
    changed; when it is exactly [end] the seek succeeds on a plain
    reader and the next read returns no bytes and [EOF]. *)
Lemma Seek_check_on_resolved (st st' : store)
    (srs srs' : skipReadSeeker.t) (off whence n : Z) (err : option error) :
  skipReadSeeker.Seek st srs off whence = (n, err, srs', st') ->
  let target := skipReadSeeker.resolve srs off whence in
  (err = Some skipReadSeeker.errBeforeStart <->
     target < skipReadSeeker.start srs) /\
  (target < skipReadSeeker.start srs -> srs' = srs /\ st' = st) /\
  (target = skipReadSeeker.end_ srs ->
   skipReadSeeker.start srs <= skipReadSeeker.end_ srs ->
   0 <= skipReadSeeker.end_ srs ->
   faults (get st (skipReadSeeker.rs srs)) = [] ->
   n = skipReadSeeker.end_ srs /\ err = None /\
   forall k, skipReadSeeker.Read st' srs' k = ([], Some EOF, srs', st')).
Proof.
  intros HS target.
  split; [exact (Seek_bounds_error_iff _ _ _ _ _ _ _ _ HS)|].
  destruct (Z_lt_le_dec target (skipReadSeeker.start srs)) as [Hlt|Hge].
  - rewrite Seek_before_start in HS by assumption.
    inversion HS; subst. split; [auto|]. intros; lia.
  - rewrite Seek_from_start in HS by assumption.
    fold target in HS. inversion HS; subst; clear HS.
    split; [intros; lia|].
    intros Hend Hse He Hf.
    rewrite (Reader_Seek_start_plain _ _ Hf) by lia. simpl.
    repeat split; auto.
    intros k. apply Read_exhausted. simpl. lia.
Qed.

Example Seek_to_end_then_EOF :
  let '(n, err, srs', st') :=
    skipReadSeeker.Seek [NewReader src8] view_2_6 0 SeekEnd in
  n = 6 /\ err = None /\
  skipReadSeeker.Read st' srs' 1 = ([], Some EOF, srs', st').
Proof.
  destruct (skipReadSeeker.Seek [NewReader src8] view_2_6 0 SeekEnd)
    as [[[n err] srs'] st'] eqn:HS.
  destruct (Seek_check_on_resolved _ _ _ _ _ _ _ _ HS) as (_ & _ & H).
  destruct H as (Hn & He & Hr);
    [reflexivity | simpl; lia | simpl; lia | reflexivity |].
  auto.
Qed.

(** The example of the specification: start 2, requested position 1. *)
Example Seek_below_start_2 :
  skipReadSeeker.Seek [NewReader src8] view_2_6 (-1) SeekStart =
    (0, Some skipReadSeeker.errBeforeStart, view_2_6, [NewReader src8]).
Proof. reflexivity. Qed.

(** C8.  The position [Seek] checks against [start] is the one the code
    computes, and for [io.SeekCurrent] the code adds [start] and the
    stored [offset] - which every seek has left absolute - so [start] is
    counted twice.  On the view [2, 6) of the bytes 0..7:
    [Seek(2, SeekStart)] puts the cursor and the source at byte 4; then
    [Seek(-3, SeekCurrent)] asks for byte 1, which is below [start], yet
    it returns 3 with no error, the cursor and the source stand at byte
    3 and the next read delivers that byte.  The same position asked
    for from the start, [Seek(-1, SeekStart)], is refused with the
    bounds error and changes nothing. *)
Theorem SeekCurrent_below_start_accepted :
  let st0 := [NewReader src8] in
  let '(n1, e1, v1, st1) := skipReadSeeker.Seek st0 view_2_6 2 SeekStart in
  n1 = 4 /\ e1 = None /\
  skipReadSeeker.offset v1 = 4 /\ pos (get st1 0%nat) = 4 /\
  let '(n2, e2, v2, st2) := skipReadSeeker.Seek st1 v1 (-3) SeekCurrent in
  pos (get st1 0%nat) + (-3) = 1 /\
  1 < skipReadSeeker.start view_2_6 /\
  n2 = 3 /\ e2 = None /\
  skipReadSeeker.offset v2 = 3 /\ pos (get st2 0%nat) = 3 /\
  fst (fst (fst (skipReadSeeker.Read st2 v2 1))) = [x03] /\
  skipReadSeeker.Seek st0 view_2_6 (-1) SeekStart
    = (0, Some skipReadSeeker.errBeforeStart, view_2_6, st0).
Proof. vm_compute. repeat split; reflexivity. Qed.

(** C7, as the code has it.  A seek that passes the bounds check leaves
    the cursor at the position it resolved, which is at least [start] and
    may lie beyond [end]: the cursor is within bounds afterwards exactly
    when that position is at most [end].  A seek that fails the check
    leaves the cursor alone.  A read keeps a cursor that is within bounds
    within bounds.  No operation changes [start] or [end]. *)
Theorem skipReadSeeker_cursor_bounds (st : store) (srs : skipReadSeeker.t) :
  (forall off whence n err srs' st',
      skipReadSeeker.Seek st srs off whence = (n, err, srs', st') ->
      skipReadSeeker.start srs' = skipReadSeeker.start srs /\
      skipReadSeeker.end_ srs' = skipReadSeeker.end_ srs /\
      (err = Some skipReadSeeker.errBeforeStart ->
         skipReadSeeker.offset srs' = skipReadSeeker.offset srs) /\
      (err <> Some skipReadSeeker.errBeforeStart ->
         skipReadSeeker.offset srs' = skipReadSeeker.resolve srs off whence /\
         skipReadSeeker.start srs' <= skipReadSeeker.offset srs' /\
         (cursor_in_bounds srs' <->
            skipReadSeeker.resolve srs off whence
              <= skipReadSeeker.end_ srs))) /\
  (forall k bs err srs' st',
      skipReadSeeker.Read st srs k = (bs, err, srs', st') ->
      skipReadSeeker.start srs' = skipReadSeeker.start srs /\
      skipReadSeeker.end_ srs' = skipReadSeeker.end_ srs /\
      (cursor_in_bounds srs -> cursor_in_bounds srs')).
Proof.
  split.
  - intros off whence n err srs' st' HS.
    destruct (Z_lt_le_dec (skipReadSeeker.resolve srs off whence)
                (skipReadSeeker.start srs)) as [Hlt|Hge].
    + rewrite Seek_before_start in HS by assumption.
      inversion HS; subst. repeat split; auto; congruence.
    + pose proof (Seek_bounds_error_iff _ _ _ _ _ _ _ _ HS) as Hiff.
      rewrite Seek_from_start in HS by assumption.
      inversion HS; subst; clear HS. simpl.
      split; [reflexivity|]. split; [reflexivity|]. split.
      * intros He. apply Hiff in He. lia.
      * intros _. split; [reflexivity|]. split; [lia|].
        unfold cursor_in_bounds. simpl. lia.
  - intros k bs err srs' st' HR.
    destruct (Read_fields _ _ _ _ _ _ _ HR) as (Hs & He & _ & Ho & Hl).
    split; [assumption|]. split; [assumption|].
    unfold cursor_in_bounds. rewrite Hs, He, Ho.
    pose proof (len_nonneg bs). lia.
Qed.

Lemma skipReadSeeker_cursor_bounds_witness :
  let '(_, _, srs', _) :=
    skipReadSeeker.Seek [NewReader src8] view_2_6 1 SeekStart in
  skipReadSeeker.offset srs' = 3 /\ cursor_in_bounds srs'.
Proof.
  destruct (skipReadSeeker.Seek [NewReader src8] view_2_6 1 SeekStart)
    as [[[n err] srs'] st'] eqn:HS.
  destruct (skipReadSeeker_cursor_bounds [NewReader src8] view_2_6)
    as (Hseek & _).
  destruct (Hseek _ _ _ _ _ _ HS) as (_ & _ & _ & H).
  destruct H as (Ho & _ & Hb).
  - inversion HS; subst. discriminate.
  - split; [exact Ho|]. apply Hb. simpl. vm_compute. discriminate.
Defined.

(** The invariant as the specification states it fails: the view
    [2, 6) accepts a seek to its offset 9 and is left with the cursor at
    11, beyond its end (the second case of the package test). *)
Lemma cursor_beyond_end_after_seek :
  skipReadSeeker.start view_2_6 <= skipReadSeeker.end_ view_2_6 /\
  let '(n, err, srs', _) :=
    skipReadSeeker.Seek [NewReader src8] view_2_6 9 SeekStart in
  n = 11 /\ err = None /\ ~ cursor_in_bounds srs'.
Proof.
  split; [simpl; lia|]. simpl.
  repeat split; auto. unfold cursor_in_bounds. simpl. lia.
Qed.

(** C6, as the code has it.  A read of a view never repositions the
    source: the bytes it delivers are the source bytes under the position
    the source has.  They are the bytes under the view's cursor when the
    source stands at the cursor, and then source and cursor still agree
    after the read; a seek of the view that returns no error makes them
    agree. *)
Theorem skipReadSeeker_Read_at_source_position
    (st : store) (srs : skipReadSeeker.t) :
  (forall k bs err srs' st',
      skipReadSeeker.Read st srs k = (bs, err, srs', st') ->
      bs = bytes_at (data (get st (skipReadSeeker.rs srs)))
             (pos (get st (skipReadSeeker.rs srs))) (length bs) /\
      (in_sync st srs -> reads_under_cursor st srs k) /\
      ((skipReadSeeker.rs srs < length st)%nat ->
       in_sync st srs -> in_sync st' srs')) /\
  (forall off whence n srs' st',
      skipReadSeeker.Seek st srs off whence = (n, None, srs', st') ->
      (skipReadSeeker.rs srs < length st)%nat -> in_sync st' srs').
Proof.
  split.
  - intros k bs err srs' st' HR.
    pose proof (Read_at_source_position _ _ _ _ _ _ _ HR) as Hb.
    split; [exact Hb|]. split.
    + unfold reads_under_cursor, in_sync. rewrite HR. congruence.
    + intros Hh Hs. eapply Read_keeps_sync; eauto.
  - intros off whence n srs' st' HS Hh. eapply Seek_sync; eauto.
Qed.

Lemma skipReadSeeker_Read_at_source_position_witness :
  let '(_, _, srs', st') :=
    skipReadSeeker.Seek [NewReader src8] view_2_6 1 SeekStart in
  in_sync st' srs' /\ reads_under_cursor st' srs' 2.
Proof.
  destruct (skipReadSeeker.Seek [NewReader src8] view_2_6 1 SeekStart)
    as [[[n err] srs'] st'] eqn:HS.
  assert (He : err = None) by (inversion HS; reflexivity). subst err.
  assert (Hrs : skipReadSeeker.rs srs' = 0%nat)
    by (inversion HS; reflexivity).
  assert (Hlen : length st' = 1%nat) by (inversion HS; reflexivity).
  destruct (skipReadSeeker_Read_at_source_position [NewReader src8] view_2_6)
    as (_ & Hseek).
  assert (Hsync : in_sync st' srs').
  { apply (Hseek _ _ _ _ _ HS). simpl. lia. }
  split; [exact Hsync|].
  destruct (skipReadSeeker.Read st' srs' 2) as [[[bs e] s2] t2] eqn:HR.
  destruct (skipReadSeeker_Read_at_source_position st' srs') as (Hread & _).
  destruct (Hread _ _ _ _ _ HR) as (_ & Hu & _).
  apply Hu. exact Hsync.
Defined.

(** The statement of the specification fails: two views share a
    source, each is seeked to its own start, and a read of the first
    delivers the byte under the source's position, 4, not the byte under
    the view's cursor, 0. *)
Lemma read_does_not_reposition :
  let '(lo, st) := shared_after_seeks in
  skipReadSeeker.offset lo = 0 /\
  pos (get st (skipReadSeeker.rs lo)) = 4 /\
  fst (fst (fst (skipReadSeeker.Read st lo 1))) = [x04] /\
  ~ reads_under_cursor st lo 1.
Proof.
  vm_compute. repeat split; auto. discriminate.
Qed.

(* ------------------------------------------------------------------ *)
(** ** The iTXt encoder *)

Lemma make_app (a b : nat) : make (a + b) = make a ++ make b.
Proof. unfold make. apply repeat_app. Qed.

Lemma length_make (n : nat) : length (make n) = n.
Proof. unfold make. apply repeat_length. Qed.

Lemma skipn_make (k n : nat) : skipn k (make n) = make (n - k).
Proof.
  unfold make. revert n. induction k as [|k IH]; intros n.
  - rewrite Nat.sub_0_r. reflexivity.
  - destruct n as [|n]; simpl; auto.
Qed.

Lemma length_be32 (z : Z) : length (be32 z) = 4%nat.
Proof. reflexivity. Qed.

(** Copying into the free tail of a buffer. *)
Lemma copy_at_tail (pre src : list byte) (n : nat) :
  (length src <= n)%nat ->
  copy_at (pre ++ make n) (length pre) src =
    Some (pre ++ src ++ make (n - length src), length src).
Proof.
  intros Hle. unfold copy_at.
  rewrite length_app, length_make.
  destruct (length pre <=? length pre + n)%nat eqn:E;
    [|apply Nat.leb_gt in E; lia].
  replace (length pre + n - length pre)%nat with n by lia.
  rewrite Nat.min_r by lia.
  rewrite firstn_app, firstn_all, Nat.sub_diag. simpl. rewrite app_nil_r.
  rewrite firstn_all.
  rewrite skipn_app, skipn_all2 by lia. simpl.
  replace (length pre + length src - length pre)%nat
    with (length src) by lia.
  rewrite skipn_make. reflexivity.
Qed.

Lemma int32ToBytes_at_mid (pre mid post : list byte) (z : Z) :
  length mid = 4%nat ->
  int32ToBytes_at (pre ++ mid ++ post) (length pre) z =
    Some (pre ++ be32 z ++ post).
Proof.
  intros Hm. unfold int32ToBytes_at.
  rewrite !length_app, Hm.
  destruct (length pre + 4 <=? length pre + (4 + length post))%nat eqn:E;
    [|apply Nat.leb_gt in E; lia].
  rewrite firstn_app, firstn_all, Nat.sub_diag. simpl firstn.
  rewrite app_nil_r.
  rewrite skipn_app, skipn_all2 by lia. simpl app.
  replace (length pre + 4 - length pre)%nat with 4%nat by lia.
  rewrite skipn_app, skipn_all2 by lia.
  rewrite Hm, Nat.sub_diag. reflexivity.
Qed.

Lemma slice_checked_mid (pre mid post : list byte) :
  slice_checked (pre ++ mid ++ post) (length pre)
    (length pre + length mid) = Some mid.
Proof.
  unfold slice_checked, slice. rewrite !length_app.
  destruct ((length pre <=? length pre + length mid)
            && (length pre + length mid
                  <=? length pre + (length mid + length post)))%nat eqn:E.
  - replace (length pre + length mid - length pre)%nat
      with (length mid) by lia.
    rewrite skipn_app, skipn_all, Nat.sub_diag. simpl.
    rewrite firstn_app, firstn_all, Nat.sub_diag. simpl.
    rewrite app_nil_r. reflexivity.
  - apply andb_false_iff in E as [E|E]; apply Nat.leb_gt in E; lia.
Qed.

Lemma length_itxt_record (kv : list byte * list byte) :
  length (itxt_record kv) = record_length kv.
Proof.
  unfold itxt_record, record_length. destruct kv as [k v]. simpl fst.
  simpl snd. rewrite !length_app, !length_be32. simpl. lia.
Qed.

Lemma itxtLen_from (metadata : Metadata) (n : nat) :
  fold_left
    (fun n kv =>
       (n + 4 + 4 + length (fst kv) + 5 + length (snd kv) + 4)%nat)
    metadata n
  = (n + fold_right (fun kv m => (record_length kv + m)%nat) 0%nat
           metadata)%nat.
Proof.
  revert n. induction metadata as [|kv md IH]; intros n;
    cbn [fold_left fold_right].
  - lia.
  - rewrite IH. unfold record_length. lia.
Qed.

Lemma itxtLen_cons (kv : list byte * list byte) (metadata : Metadata) :
  itxtLen (kv :: metadata) = (record_length kv + itxtLen metadata)%nat.
Proof.
  unfold itxtLen. rewrite !itxtLen_from. cbn [fold_right]. lia.
Qed.

Lemma copy_at_tail' (bb pre src : list byte) (i n : nat) :
  bb = pre ++ make n -> i = length pre -> (length src <= n)%nat ->
  copy_at bb i src = Some (pre ++ src ++ make (n - length src), length src).
Proof. intros -> -> H. apply copy_at_tail. exact H. Qed.

Lemma int32ToBytes_at_mid' (bb pre mid post : list byte) (i : nat) (z : Z) :
  bb = pre ++ mid ++ post -> i = length pre -> length mid = 4%nat ->
  int32ToBytes_at bb i z = Some (pre ++ be32 z ++ post).
Proof. intros -> -> H. apply int32ToBytes_at_mid. exact H. Qed.

Lemma slice_checked_mid' (bb pre mid post : list byte) (lo hi : nat) :
  bb = pre ++ mid ++ post -> lo = length pre ->
  hi = (length pre + length mid)%nat ->
  slice_checked bb lo hi = Some mid.
Proof. intros -> -> ->. apply slice_checked_mid. Qed.

(** One turn of the loop writes exactly the record of the entry into the
    free tail of the buffer. *)
Lemma encode_entry_tail (pre : list byte) (kv : list byte * list byte)
    (n : nat) :
  len (fst kv) + 5 + len (snd kv) < 2 ^ 32 ->
  encode_entry (pre ++ make (record_length kv + n)) (length pre) kv =
    Some (pre ++ itxt_record kv ++ make n,
          (length pre + record_length kv)%nat).
Proof.
  destruct kv as [k v]. unfold record_length, itxt_record, len.
  cbn [fst snd]. intros Hfit. unfold encode_entry.
  set (lk := length k) in *. set (lv := length v) in *.
  set (lp := length pre).
  rewrite (copy_at_tail' _ (pre ++ make 4) itxt _
             (4 + lk + 5 + lv + 4 + n)).
  2:{ rewrite <- app_assoc, <- make_app. f_equal; f_equal; lia. }
  2:{ rewrite length_app, length_make. reflexivity. }
  2:{ simpl. lia. }
  rewrite (copy_at_tail' _ ((pre ++ make 4) ++ itxt) k _
             (lk + 5 + lv + 4 + n)).
  2:{ rewrite <- !app_assoc. app_eq; f_equal; simpl length; lia. }
  2:{ rewrite !length_app, length_make. reflexivity. }
  2:{ fold lk. lia. }
  rewrite (copy_at_tail' _ ((((pre ++ make 4) ++ itxt) ++ k) ++ make 5) v _
             (lv + 4 + n)).
  2:{ rewrite <- !app_assoc. app_eq.
      rewrite <- make_app. f_equal; fold lk; lia. }
  2:{ rewrite !length_app, !length_make. fold lk lp. simpl length. lia. }
  2:{ fold lv. lia. }
  fold lk lv. simpl (length itxt).
  assert (Hlen : uint32 (Z.of_nat (lp + 4 + 4 + lk + 5 + lv)
                         - (Z.of_nat lp + 8))
                 = Z.of_nat lk + 5 + Z.of_nat lv).
  { unfold uint32. rewrite Z.mod_small; lia. }
  rewrite Hlen.
  rewrite (int32ToBytes_at_mid' _ pre (make 4)
             (itxt ++ k ++ make 5 ++ v ++ make (4 + n))).
  2:{ rewrite <- !app_assoc. app_eq; f_equal; lia. }
  2:{ reflexivity. }
  2:{ reflexivity. }
  rewrite (slice_checked_mid' _ (pre ++ be32 (Z.of_nat lk + 5 + Z.of_nat lv))
             (itxt ++ k ++ make 5 ++ v) (make (4 + n))).
  2:{ rewrite <- !app_assoc. reflexivity. }
  2:{ rewrite length_app, length_be32. reflexivity. }
  2:{ rewrite !length_app, length_be32, length_make. fold lk lv lp.
      simpl length. lia. }
  rewrite (int32ToBytes_at_mid' _
             (pre ++ be32 (Z.of_nat lk + 5 + Z.of_nat lv)
                ++ itxt ++ k ++ make 5 ++ v)
             (make 4) (make n)).
  2:{ rewrite <- !app_assoc. app_eq; apply make_app. }
  2:{ rewrite !length_app, length_be32, length_make. fold lk lv lp.
      simpl length. lia. }
  2:{ reflexivity. }
  f_equal. f_equal.
  - rewrite <- !app_assoc. reflexivity.
  - lia.
Qed.

Lemma encode_loop_tail (metadata : Metadata) :
  forall (pre : list byte) (n : nat),
    fits_uint32 metadata ->
    encode_loop (pre ++ make (itxtLen metadata + n)) (length pre) metadata =
      Some (pre ++ concat (map itxt_record metadata) ++ make n,
            (length pre + itxtLen metadata)%nat).
Proof.
  induction metadata as [|kv md IH]; intros pre n Hfit.
  - simpl. rewrite Nat.add_0_r. reflexivity.
  - inversion Hfit as [|? ? Hkv Hmd]; subst.
    cbn [encode_loop map concat]. rewrite itxtLen_cons.
    rewrite <- Nat.add_assoc.
    rewrite encode_entry_tail by exact Hkv.
    replace (length pre + record_length kv)%nat
      with (length (pre ++ itxt_record kv))
      by (rewrite length_app, length_itxt_record; reflexivity).
    replace (pre ++ itxt_record kv ++ make (itxtLen md + n))
      with ((pre ++ itxt_record kv) ++ make (itxtLen md + n))
      by (rewrite <- app_assoc; reflexivity).
    rewrite IH by exact Hmd.
    rewrite length_app, length_itxt_record, <- !app_assoc.
    f_equal. f_equal. lia.
Qed.

(** C5.  For a mapping whose payloads fit the 32 bit length field, the
    buffer the encoder fills holds one record per entry, in the order
    the entries are visited, with nothing between them: length
    [len k + 5 + len v], the tag iTXt, the keyword, five zero bytes, the
    text, and the CRC-32/IEEE of tag and payload, both numbers as four
    big-endian bytes.  The loop index ends at the sum of the record
    lengths, leaving the eight scratch bytes, and no slice expression
    panics.  The empty mapping gives the empty blob. *)
Theorem encoder_emits_records (metadata : Metadata) :
  fits_uint32 metadata ->
  encode_metadata metadata =
    Some (concat (map itxt_record metadata) ++ make 8, itxtLen metadata) /\
  metadata_blob metadata = Some (concat (map itxt_record metadata)) /\
  metadata_blob [] = Some [].
Proof.
  intros Hfit.
  assert (H : encode_metadata metadata =
              Some (concat (map itxt_record metadata) ++ make 8,
                    itxtLen metadata)).
  { unfold encode_metadata.
    apply (encode_loop_tail metadata [] 8 Hfit). }
  split; [exact H|]. split; [|reflexivity].
  unfold metadata_blob. rewrite H. f_equal.
  rewrite length_app, length_make.
  replace (length (concat (map itxt_record metadata)) + 8 - 8)%nat
    with (length (concat (map itxt_record metadata))) by lia.
  rewrite firstn_app, firstn_all, Nat.sub_diag. simpl.
  apply app_nil_r.
Qed.

Lemma encoder_emits_records_witness :
  fits_uint32 two_entries /\
  metadata_blob two_entries = Some (concat (map itxt_record two_entries)).
Proof.
  assert (H : fits_uint32 two_entries).
  { unfold fits_uint32, two_entries.
    repeat constructor; vm_compute; reflexivity. }
  split; [exact H|].
  exact (proj1 (proj2 (encoder_emits_records two_entries H))).
Defined.

(** The records of the sample mapping, byte by byte; the CRC field of an
    IEND chunk computed by [crc32_IEEE] is the one the package constant
    [iend] carries. *)
Example two_entries_blob :
  metadata_blob two_entries =
    Some [ x00; x00; x00; x08; x69; x54; x58; x74; x41;
           x00; x00; x00; x00; x00; x42; x43; xc9; x68; x95; xeb;
           x00; x00; x00; x07; x69; x54; x58; x74; x44; x45;
           x00; x00; x00; x00; x00; xfe; xa0; x89; xd2 ].
Proof. vm_compute. reflexivity. Qed.

Example crc32_of_IEND : mk_chunk tag_IEND [] = iend.
Proof. vm_compute. reflexivity. Qed.

(* ------------------------------------------------------------------ *)
(** ** Reading a chain *)

Lemma skipn_length_firstn {A : Type} (k : nat) (l : list A) :
  skipn (length (firstn k l)) l = skipn k l.
Proof.
  rewrite length_firstn.
  destruct (Nat.le_ge_cases k (length l)).
  - rewrite Nat.min_l by lia. reflexivity.
  - rewrite Nat.min_r by lia. rewrite !skipn_all2 by lia. reflexivity.
Qed.

Lemma firstn_length_firstn {A : Type} (k : nat) (l : list A) :
  firstn (length (firstn k l)) l = firstn k l.
Proof.
  rewrite length_firstn.
  destruct (Nat.le_ge_cases k (length l)).
  - rewrite Nat.min_l by lia. reflexivity.
  - rewrite Nat.min_r by lia. rewrite !firstn_all2 by lia. reflexivity.
Qed.

Lemma firstn_app_skipn_more {A : Type} (j k : nat) (l : list A) :
  (j <= k)%nat ->
  firstn j l ++ firstn (k - j) (skipn j l) = firstn k l.
Proof.
  revert k l. induction j as [|j IH]; intros k l Hjk.
  - rewrite Nat.sub_0_r. reflexivity.
  - destruct k as [|k]; [lia|]. destruct l as [|x l].
    + rewrite skipn_nil, !firstn_nil. reflexivity.
    + simpl. f_equal. apply IH. lia.
Qed.

Lemma upd_get (st : store) (h : handle) : upd st h (get st h) = st.
Proof.
  unfold get. revert h.
  induction st as [|x st IH]; intros [|h]; simpl; auto.
  f_equal. apply IH.
Qed.

Lemma slice_skip (d : list byte) (lo hi j : nat) :
  slice d (lo + j) hi = skipn j (slice d lo hi).
Proof.
  unfold slice. rewrite skipn_firstn_comm, skipn_skipn.
  f_equal; [lia | f_equal; lia].
Qed.

(** A read of a plain reader, as one equation. *)
Lemma Reader_Read_plain (r : Reader) (n : nat) :
  faults r = [] -> 0 <= pos r -> (0 < n)%nat ->
  let rest := skipn (Z.to_nat (pos r)) (data r) in
  Reader_Read r n =
    (firstn n rest,
     match rest with [] => Some EOF | _ => None end,
     {| data := data r; pos := pos r + len (firstn n rest); faults := [] |}).
Proof.
  intros Hf Hp Hn rest. unfold Reader_Read, next_fault. rewrite Hf.
  destruct (pos r >=? len (data r)) eqn:E.
  - rewrite Z.geb_leb in E. apply Z.leb_le in E. unfold len in E.
    assert (Hrest : rest = []).
    { unfold rest. apply skipn_all2. lia. }
    rewrite Hrest. rewrite firstn_nil. unfold len. simpl.
    rewrite Z.add_0_r. destruct r; simpl in *. subst. reflexivity.
  - rewrite Z.geb_leb in E. apply Z.leb_gt in E. unfold len in E.
    fold rest. rewrite Hf.
    destruct rest as [|b rest'] eqn:Hrest; [|reflexivity].
    exfalso. assert (length rest = 0%nat) by (rewrite Hrest; reflexivity).
    unfold rest in H. rewrite length_skipn in H. lia.
Qed.

Section ViewSteps.

Import skipReadSeeker.

Variable st : store.
Variable a : skipReadSeeker.t.

Lemma set_offset_same : set_offset a (offset a) = a.
Proof. destruct a; reflexivity. Qed.

(** A read of a view whose source is plain and stands at the cursor
    delivers the next bytes of the view, or [EOF] when none is left. *)
Lemma view_Read_plain (k : nat) :
  faults (get st (rs a)) = [] -> 0 <= offset a -> in_sync st a ->
  (0 < k)%nat ->
  let cur := span st (rs a) (offset a) (end_ a) in
  Read st a k =
    (firstn k cur,
     match cur with [] => Some EOF | _ => None end,
     set_offset a (offset a + len (firstn k cur)),
     positioned st a (offset a + len (firstn k cur))).
Proof.
  intros Hf Ho Hs Hk cur. unfold in_sync in Hs. unfold positioned.
  set (d := data (get st (rs a))).
  destruct (Z_lt_le_dec (offset a) (end_ a)) as [Hlt|Hge].
  - rewrite Read_before_end by assumption. cbv zeta.
    rewrite Reader_Read_plain by (auto; lia). cbn [fst snd].
    rewrite Hs. fold d.
    set (rest := skipn (Z.to_nat (offset a)) d).
    set (m := Z.to_nat (Z.min (end_ a - offset a) (Z.of_nat k))).
    assert (Hcur : cur = firstn (Z.to_nat (end_ a) - Z.to_nat (offset a))
                           rest) by reflexivity.
    assert (Hbs : firstn m rest = firstn k cur).
    { rewrite Hcur, firstn_firstn. f_equal. unfold m. lia. }
    rewrite Hbs.
    assert (Herr : match rest with [] => Some EOF | _ :: _ => None end
                   = match cur with [] => Some EOF | _ :: _ => None end).
    { rewrite Hcur.
      destruct rest as [|b rest']; [rewrite firstn_nil; reflexivity|].
      destruct (Z.to_nat (end_ a) - Z.to_nat (offset a))%nat eqn:E;
        [lia | reflexivity]. }
    rewrite Herr. reflexivity.
  - rewrite Read_exhausted by assumption.
    assert (Hcur : cur = []).
    { unfold cur, span, slice.
      replace (Z.to_nat (end_ a) - Z.to_nat (offset a))%nat with 0%nat
        by lia. reflexivity. }
    rewrite Hcur. rewrite firstn_nil. unfold len. simpl.
    rewrite Z.add_0_r, set_offset_same.
    replace {| data := d; pos := offset a; faults := [] |}
      with (get st (rs a)).
    + rewrite upd_get. reflexivity.
    + unfold d. destruct (get st (rs a)); simpl in *. subst. reflexivity.
Qed.

(** The bytes left in the view after such a read. *)
Lemma span_after_read (k : nat) :
  0 <= offset a ->
  let cur := span st (rs a) (offset a) (end_ a) in
  span st (rs a) (offset a + len (firstn k cur)) (end_ a) = skipn k cur.
Proof.
  intros Ho cur. unfold span at 1. unfold len.
  rewrite Z2Nat.inj_add, Nat2Z.id by lia.
  rewrite slice_skip. apply skipn_length_firstn.
Qed.

(** An absolute seek of a view over a plain source. *)
Lemma view_Seek_plain (off : Z) :
  faults (get st (rs a)) = [] ->
  0 <= start a -> 0 <= off -> off + start a < 2 ^ 63 ->
  Seek st a off SeekStart =
    (off + start a, None, set_offset a (off + start a),
     positioned st a (off + start a)).
Proof.
  intros Hf Hs Hoff Hlt.
  assert (Hres : resolve a off SeekStart = off + start a).
  { unfold resolve. simpl. apply wrap64_small. lia. }
  rewrite Seek_from_start by (rewrite Hres; lia).
  rewrite Hres, (Reader_Seek_start_plain _ _ Hf) by lia.
  reflexivity.
Qed.

End ViewSteps.

(** *** Updating one view of a list *)

Lemma length_set_nth {A : Type} (l : list A) (i : nat) (x : A) :
  length (set_nth l i x) = length l.
Proof.
  revert i. induction l as [|y l IH]; intros [|i]; simpl; auto.
Qed.

Lemma nth_set_nth_same {A : Type} (l : list A) (i : nat) (x d : A) :
  (i < length l)%nat -> nth i (set_nth l i x) d = x.
Proof.
  revert i. induction l as [|y l IH]; intros [|i] H; simpl in *;
    try lia; auto. apply IH. lia.
Qed.

Lemma nth_set_nth_other {A : Type} (l : list A) (i j : nat) (x d : A) :
  i <> j -> nth j (set_nth l i x) d = nth j l d.
Proof.
  revert i j. induction l as [|y l IH]; intros [|i] [|j] H; simpl;
    try congruence; auto.
Qed.

Lemma skipn_set_nth {A : Type} (l : list A) (i j : nat) (x : A) :
  (i < j)%nat -> skipn j (set_nth l i x) = skipn j l.
Proof.
  revert i j. induction l as [|y l IH]; intros [|i] [|j] H; simpl;
    try lia; auto. apply IH. lia.
Qed.

Lemma map_set_nth {A B : Type} (f : A -> B) (l : list A) (i : nat)
    (x d : A) :
  f x = f (nth i l d) -> map f (set_nth l i x) = map f l.
Proof.
  revert i. induction l as [|y l IH]; intros [|i] H; simpl in *; auto;
    f_equal; auto.
Qed.

Lemma skipn_nth_cons {A : Type} (l : list A) (i : nat) (d : A) :
  (i < length l)%nat -> skipn i l = nth i l d :: skipn (S i) l.
Proof.
  revert i. induction l as [|y l IH]; intros [|i] H; simpl in *;
    try lia; auto. apply IH. lia.
Qed.

(** *** What depends on data and ranges only *)

Lemma span_same_data (st st' : store) (h : handle) (from to : Z) :
  map data st' = map data st -> span st' h from to = span st h from to.
Proof.
  intros H. unfold span. rewrite !data_get, H. reflexivity.
Qed.

Lemma view_bytes_same (st st' : store) (a a' : skipReadSeeker.t) :
  map data st' = map data st -> view_key a' = view_key a ->
  view_bytes st' a' = view_bytes st a.
Proof.
  intros Hd Hk. unfold view_key in Hk. inversion Hk as [[H1 H2 H3]].
  unfold view_bytes. rewrite H1, H2, H3. apply span_same_data. exact Hd.
Qed.

Lemma map_view_bytes_same (st st' : store) (l l' : list skipReadSeeker.t) :
  map data st' = map data st -> map view_key l' = map view_key l ->
  map (view_bytes st') l' = map (view_bytes st) l.
Proof.
  intros Hd. revert l'. induction l as [|a l IH]; intros [|a' l'] Hk;
    simpl in *; try discriminate; auto.
  assert (Hhd : view_key a' = view_key a) by congruence.
  assert (Htl : map view_key l' = map view_key l) by congruence.
  f_equal; [apply view_bytes_same; auto | apply IH; auto].
Qed.

Lemma length_same_data (st st' : store) :
  map data st' = map data st -> length st' = length st.
Proof.
  intros H. rewrite <- (length_map data st'), H. apply length_map.
Qed.

Lemma view_ok_same (st st' : store) (l l' : list skipReadSeeker.t) :
  map data st' = map data st -> map view_key l' = map view_key l ->
  Forall (view_ok st) l -> Forall (view_ok st') l'.
Proof.
  intros Hd. pose proof (length_same_data _ _ Hd) as Hlen.
  revert l'. induction l as [|a l IH]; intros [|a' l'] Hk HF;
    simpl in *; try discriminate; constructor.
  - inversion HF as [|? ? Ha _]; subst.
    assert (Hhd : view_key a' = view_key a) by congruence.
    unfold view_key in Hhd. inversion Hhd as [[H1 H2 H3]].
    destruct Ha as [Hh Hs]. unfold view_ok. rewrite H1, H2, Hlen. auto.
  - inversion HF; subst.
    assert (Htl : map view_key l' = map view_key l) by congruence.
    apply IH; auto.
Qed.

Lemma skipn_map_key (l l' : list skipReadSeeker.t) (k : nat) :
  map view_key l' = map view_key l ->
  map view_key (skipn k l') = map view_key (skipn k l).
Proof.
  intros H. rewrite <- !skipn_map. rewrite H. reflexivity.
Qed.

Lemma Forall_nth_view (P : skipReadSeeker.t -> Prop)
    (l : list skipReadSeeker.t) (i : nat) :
  Forall P l -> (i < length l)%nat -> P (nth i l multiReadSeeker.nil_srs).
Proof.
  intros HF Hi. rewrite Forall_forall in HF. apply HF. apply nth_In. exact Hi.
Qed.

Lemma same_chain_refl (st : store) (mrs : multiReadSeeker.t) :
  same_chain st mrs st mrs.
Proof. unfold same_chain. auto. Qed.

Lemma same_chain_trans (st st1 st2 : store) (m m1 m2 : multiReadSeeker.t) :
  same_chain st m st1 m1 -> same_chain st1 m1 st2 m2 ->
  same_chain st m st2 m2.
Proof.
  unfold same_chain. intros (A1 & A2 & A3 & A4) (B1 & B2 & B3 & B4).
  repeat split; congruence.
Qed.

(** *** Making a view the active one *)

Section Activate.

Variable st : store.
Variable mrs mrs' : multiReadSeeker.t.
Variable i : nat.
Variable o' : Z.

Hypothesis Hnf : no_faults st.
Hypothesis Hok : Forall (view_ok st) (multiReadSeeker.readSeekers mrs).
Hypothesis Hi : (i < length (multiReadSeeker.readSeekers mrs))%nat.
Hypothesis Ho : skipReadSeeker.start (view_at mrs i) <= o'.
Hypothesis Hidx : multiReadSeeker.rsIdx mrs' = i.
Hypothesis Hviews :
  multiReadSeeker.readSeekers mrs'
    = set_nth (multiReadSeeker.readSeekers mrs) i
        (skipReadSeeker.set_offset (view_at mrs i) o').
Hypothesis Hsizes : multiReadSeeker.sizes mrs' = multiReadSeeker.sizes mrs.
Hypothesis Hsize : multiReadSeeker.size mrs' = multiReadSeeker.size mrs.

Lemma activate_same_chain :
  same_chain st mrs (positioned st (view_at mrs i) o') mrs'.
Proof.
  unfold same_chain, positioned. repeat split; auto.
  - apply map_data_upd. reflexivity.
  - rewrite Hviews. apply map_set_nth with (d := multiReadSeeker.nil_srs).
    reflexivity.
Qed.

Lemma activate_active :
  multiReadSeeker.active mrs'
    = skipReadSeeker.set_offset (view_at mrs i) o'.
Proof.
  unfold multiReadSeeker.active. rewrite Hidx, Hviews.
  apply nth_set_nth_same. exact Hi.
Qed.

Lemma activate_ready : ready (positioned st (view_at mrs i) o') mrs'.
Proof.
  destruct activate_same_chain as (Hd & Hk & _ & _).
  pose proof (Forall_nth_view _ _ _ Hok Hi) as [Hh Hs].
  fold (view_at mrs i) in Hh, Hs.
  unfold ready. rewrite activate_active. repeat split.
  - apply no_faults_upd; auto.
  - eapply view_ok_same; eauto.
  - rewrite Hidx, Hviews, length_set_nth. exact Hi.
  - exact Ho.
  - unfold in_sync, positioned. simpl. rewrite get_upd_same by exact Hh.
    reflexivity.
Qed.

Lemma activate_remaining :
  remaining (positioned st (view_at mrs i) o') mrs' =
    span st (skipReadSeeker.rs (view_at mrs i)) o'
      (skipReadSeeker.end_ (view_at mrs i))
    ++ concat (map (view_bytes st)
                 (skipn (S i) (multiReadSeeker.readSeekers mrs))).
Proof.
  destruct activate_same_chain as (Hd & Hk & _ & _).
  unfold remaining. rewrite activate_active, Hidx, Hviews.
  unfold skipReadSeeker.set_offset at 1 2 3.
  cbn [skipReadSeeker.rs skipReadSeeker.offset skipReadSeeker.end_].
  rewrite (span_same_data _ _ _ _ _ Hd).
  rewrite skipn_set_nth by lia.
  rewrite (map_view_bytes_same st (positioned st (view_at mrs i) o')
             _ _ Hd eq_refl).
  reflexivity.
Qed.

End Activate.

(** *** One turn of the loop of [Read] *)


Lemma ready_offset_nonneg (st : store) (mrs : multiReadSeeker.t) :
  ready st mrs -> 0 <= skipReadSeeker.offset (multiReadSeeker.active mrs).
Proof.
  intros (_ & Hok & Hi & Hso & _).
  pose proof (Forall_nth_view _ _ _ Hok Hi) as [_ [Hs _]].
  unfold multiReadSeeker.active in *. lia.
Qed.

Lemma remaining_last (st : store) (mrs : multiReadSeeker.t) :
  (multiReadSeeker.rsIdx mrs
     = length (multiReadSeeker.readSeekers mrs) - 1)%nat ->
  (multiReadSeeker.rsIdx mrs < length (multiReadSeeker.readSeekers mrs))%nat ->
  remaining st mrs =
    span st (skipReadSeeker.rs (multiReadSeeker.active mrs))
      (skipReadSeeker.offset (multiReadSeeker.active mrs))
      (skipReadSeeker.end_ (multiReadSeeker.active mrs)).
Proof.
  intros H1 H2. unfold remaining. rewrite skipn_all2 by lia. simpl.
  apply app_nil_r.
Qed.

Lemma Read_loop_turn (st : store) (mrs : multiReadSeeker.t) (n : nat)
    (acc : list byte) :
  ready st mrs -> (length acc < n)%nat ->
  (exists mrs1 st1,
      remaining st mrs = [] /\ ready st1 mrs1 /\ remaining st1 mrs1 = [] /\
      same_chain st mrs st1 mrs1 /\
      forall fuel,
        multiReadSeeker.Read_loop (S fuel) st mrs n acc
          = Some (acc, Some EOF, mrs1, st1))
  \/
  (exists j mrs1 st1,
      (j <= n - length acc)%nat /\ (j <= length (remaining st mrs))%nat /\
      ready st1 mrs1 /\ remaining st1 mrs1 = skipn j (remaining st mrs) /\
      same_chain st mrs st1 mrs1 /\
      ((n - length acc - j)
       + (length (multiReadSeeker.readSeekers mrs1)
          - multiReadSeeker.rsIdx mrs1)
       < (n - length acc)
         + (length (multiReadSeeker.readSeekers mrs)
            - multiReadSeeker.rsIdx mrs))%nat /\
      forall fuel,
        multiReadSeeker.Read_loop (S fuel) st mrs n acc
          = multiReadSeeker.Read_loop fuel st1 mrs1 n
              (acc ++ firstn j (remaining st mrs))).
Proof.
  intros Hready Hacc.
  pose proof (ready_offset_nonneg _ _ Hready) as Hoff.
  destruct Hready as (Hnf & Hok & Hi & Hso & Hsync).
  set (a := multiReadSeeker.active mrs) in *.
  set (views := multiReadSeeker.readSeekers mrs) in *.
  set (idx := multiReadSeeker.rsIdx mrs) in *.
  set (k := (n - length acc)%nat).
  set (cur := span st (skipReadSeeker.rs a) (skipReadSeeker.offset a)
                (skipReadSeeker.end_ a)).
  set (rest := concat (map (view_bytes st) (skipn (S idx) views))).
  assert (Hrem : remaining st mrs = cur ++ rest) by reflexivity.
  assert (Hturn : forall fuel,
    multiReadSeeker.Read_loop (S fuel) st mrs n acc =
      let '(bs, err, srs, st) := skipReadSeeker.Read st a k in
      let mrs := multiReadSeeker.set_active mrs srs in
      let acc := acc ++ bs in
      let mrs := multiReadSeeker.set_overall mrs
                   (multiReadSeeker.overall mrs + len bs) in
      match err with
      | Some e =>
          if is_EOF e then
            if (multiReadSeeker.rsIdx mrs
                  =? length (multiReadSeeker.readSeekers mrs) - 1)%nat
            then Some (acc, Some e, mrs, st)
            else
              let mrs := multiReadSeeker.set_rsIdx mrs
                           (S (multiReadSeeker.rsIdx mrs)) in
              let '(_, _, srs, st) :=
                skipReadSeeker.Seek st (multiReadSeeker.active mrs) 0
                  SeekStart in
              multiReadSeeker.Read_loop fuel st
                (multiReadSeeker.set_active mrs srs) n acc
          else Some (acc, Some e, mrs, st)
      | None => multiReadSeeker.Read_loop fuel st mrs n acc
      end).
  { intros fuel. cbn [multiReadSeeker.Read_loop].
    destruct (length acc =? n)%nat eqn:E; [apply Nat.eqb_eq in E; lia|].
    reflexivity. }
  rewrite (view_Read_plain st a k) in Hturn
    by (auto using no_faults_get; lia).
  fold cur in Hturn. cbv zeta in Hturn.
  set (o' := skipReadSeeker.offset a + len (firstn k cur)) in *.
  set (a1 := skipReadSeeker.set_offset a o') in *.
  set (st1 := positioned st a o') in *.
  set (mrs1 := multiReadSeeker.set_overall
                 (multiReadSeeker.set_active mrs a1)
                 (multiReadSeeker.overall
                    (multiReadSeeker.set_active mrs a1)
                  + len (firstn k cur))) in *.
  assert (Ho' : skipReadSeeker.start a <= o').
  { unfold o'. pose proof (len_nonneg (firstn k cur)). lia. }
  assert (Hready1 : ready st1 mrs1).
  { apply (activate_ready st mrs mrs1 idx o'); auto. }
  assert (Hsame1 : same_chain st mrs st1 mrs1).
  { apply (activate_same_chain st mrs mrs1 idx o'); auto. }
  assert (Hrem1 : remaining st1 mrs1 = skipn k cur ++ rest).
  { etransitivity.
    { apply (activate_remaining st mrs mrs1 idx o'); auto. }
    fold views a rest. f_equal.
    unfold span, o'. apply span_after_read. exact Hoff. }
  destruct cur as [|c cur'] eqn:Hcur.
  - (* the active view has nothing left *)
    rewrite firstn_nil in *. rewrite skipn_nil in Hrem1.
    destruct (idx =? length views - 1)%nat eqn:Elast.
    + left. exists mrs1, st1. apply Nat.eqb_eq in Elast.
      assert (Hrest : rest = []).
      { unfold rest. rewrite skipn_all2 by lia. reflexivity. }
      rewrite Hrem, Hrem1, Hrest. conj_split; auto.
      intros fuel. rewrite Hturn. cbn [is_EOF].
      change (multiReadSeeker.rsIdx mrs1) with idx.
      change (multiReadSeeker.readSeekers mrs1)
        with (set_nth views idx a1).
      rewrite length_set_nth.
      apply Nat.eqb_eq in Elast. rewrite Elast.
      rewrite app_nil_r. reflexivity.
    + right. apply Nat.eqb_neq in Elast.
      set (mrs2 := multiReadSeeker.set_rsIdx mrs1 (S idx)).
      set (b := nth (S idx) (multiReadSeeker.readSeekers mrs1)
                  multiReadSeeker.nil_srs).
      destruct Hready1 as (Hnf1 & Hok1 & Hi1 & _ & _).
      assert (Hlen1 : length (multiReadSeeker.readSeekers mrs1)
                      = length views) by apply length_set_nth.
      assert (Hi2 : (S idx < length (multiReadSeeker.readSeekers mrs1))%nat)
        by lia.
      pose proof (Forall_nth_view _ _ _ Hok1 Hi2) as [Hhb Hsb].
      fold b in Hhb, Hsb. unfold valid_pos in Hsb.
      set (b' := skipReadSeeker.set_offset b (skipReadSeeker.start b)).
      set (st2 := positioned st1 b (skipReadSeeker.start b)).
      set (mrs3 := multiReadSeeker.set_active mrs2 b').
      exists 0%nat, mrs3, st2.
      assert (Hready3 : ready st2 mrs3).
      { apply (activate_ready st1 mrs1 mrs3 (S idx)
                 (skipReadSeeker.start b)); auto.
        unfold view_at. fold b. lia. }
      assert (Hsame3 : same_chain st1 mrs1 st2 mrs3).
      { apply (activate_same_chain st1 mrs1 mrs3 (S idx)
                 (skipReadSeeker.start b)); auto. }
      assert (Hrem3 : remaining st2 mrs3 = rest).
      { etransitivity.
        { apply (activate_remaining st1 mrs1 mrs3 (S idx)
                   (skipReadSeeker.start b)); auto. }
        fold b. destruct Hsame1 as (Hd1 & Hk1 & _).
        change (span st1 (skipReadSeeker.rs b) (skipReadSeeker.start b)
                  (skipReadSeeker.end_ b)) with (view_bytes st1 b).
        change (view_bytes st1 b
                :: map (view_bytes st1)
                     (skipn (S (S idx)) (multiReadSeeker.readSeekers mrs1)))
          with (map (view_bytes st1)
                  (b :: skipn (S (S idx))
                          (multiReadSeeker.readSeekers mrs1)))
          || idtac.
        rewrite <- (concat_cons (view_bytes st1 b)).
        rewrite <- map_cons. unfold b.
        rewrite <- skipn_nth_cons by exact Hi2.
        unfold rest. f_equal.
        apply map_view_bytes_same; auto.
        apply skipn_map_key. exact Hk1. }
      split; [lia|]. split; [lia|]. split; [exact Hready3|].
      split; [rewrite Hrem3, Hrem; reflexivity|].
      split; [eapply same_chain_trans; eauto|].
      split.
      * change (length (multiReadSeeker.readSeekers mrs3))
          with (length (set_nth (multiReadSeeker.readSeekers mrs1)
                          (S idx) b')).
        rewrite length_set_nth, Hlen1.
        change (multiReadSeeker.rsIdx mrs3) with (S idx).
        fold idx views. lia.
      * intros fuel. rewrite Hturn. cbn [is_EOF].
        change (multiReadSeeker.rsIdx mrs1) with idx.
        rewrite Hlen1.
        apply Nat.eqb_neq in Elast. rewrite Elast.
        change (multiReadSeeker.active
                  (multiReadSeeker.set_rsIdx mrs1 (S idx))) with b.
        rewrite (view_Seek_plain st1 b 0)
          by (auto using no_faults_get; lia).
        rewrite Z.add_0_l. reflexivity.
  - (* the active view delivers bytes *)
    right.
    set (bs := firstn k (c :: cur')) in *.
    exists (length bs), mrs1, st1.
    assert (Hbs_k : (length bs <= k)%nat).
    { unfold bs. rewrite length_firstn. lia. }
    assert (Hbs_cur : (length bs <= length (c :: cur'))%nat).
    { unfold bs. rewrite length_firstn. lia. }
    assert (Hbs_pos : (0 < length bs)%nat).
    { unfold bs. rewrite length_firstn. simpl. lia. }
    assert (Hpre : firstn (length bs) (remaining st mrs) = bs).
    { rewrite Hrem, firstn_app.
      replace (length bs - length (c :: cur'))%nat with 0%nat by lia.
      simpl firstn at 2. rewrite app_nil_r.
      unfold bs. apply firstn_length_firstn. }
    split; [exact Hbs_k|].
    split; [rewrite Hrem, length_app; lia|].
    split; [exact Hready1|].
    split.
    { rewrite Hrem1, Hrem, skipn_app.
      replace (length bs - length (c :: cur'))%nat with 0%nat by lia.
      simpl skipn at 3. f_equal.
      unfold bs. symmetry. apply skipn_length_firstn. }
    split; [exact Hsame1|].
    split.
    + change (length (multiReadSeeker.readSeekers mrs1))
        with (length (set_nth views idx a1)).
      rewrite length_set_nth.
      change (multiReadSeeker.rsIdx mrs1) with idx. fold k. lia.
    + intros fuel. rewrite Hturn, Hpre. reflexivity.
Qed.

(** *** The loop of [Read], and [Read] *)

Lemma Read_loop_spec (fuel : nat) :
  forall (st : store) (mrs : multiReadSeeker.t) (n : nat) (acc : list byte),
    ready st mrs -> (length acc <= n)%nat ->
    ((n - length acc)
     + (length (multiReadSeeker.readSeekers mrs) - multiReadSeeker.rsIdx mrs)
     <= fuel)%nat ->
    exists mrs' st',
      multiReadSeeker.Read_loop fuel st mrs n acc =
        Some (acc ++ firstn (n - length acc) (remaining st mrs),
              (if (length (remaining st mrs) <? n - length acc)%nat
               then Some EOF else None),
              mrs', st') /\
      ready st' mrs' /\
      remaining st' mrs' = skipn (n - length acc) (remaining st mrs) /\
      same_chain st mrs st' mrs'.
Proof.
  induction fuel as [|fuel IH]; intros st mrs n acc Hready Hacc Hfuel.
  - destruct Hready as (_ & _ & Hi & _). lia.
  - destruct (Nat.eq_dec (length acc) n) as [Heq|Hne].
    + exists mrs, st. cbn [multiReadSeeker.Read_loop].
      apply Nat.eqb_eq in Heq as Heqb. rewrite Heqb.
      replace (n - length acc)%nat with 0%nat by lia.
      simpl. rewrite app_nil_r.
      split; [reflexivity|]. split; [exact Hready|].
      split; [reflexivity | apply same_chain_refl].
    + destruct (Read_loop_turn st mrs n acc Hready ltac:(lia))
        as [(mrs1 & st1 & Hrem & Hready1 & Hrem1 & Hsame & Hrun)
           |(j & mrs1 & st1 & Hjk & Hjr & Hready1 & Hrem1 & Hsame & Hm & Hrun)].
      * exists mrs1, st1. rewrite Hrun, Hrem, firstn_nil, skipn_nil, app_nil_r.
        simpl length.
        destruct (0 <? n - length acc)%nat eqn:E;
          [|apply Nat.ltb_ge in E; lia].
        auto.
      * set (rem := remaining st mrs) in *.
        assert (Hlen : length (acc ++ firstn j rem) = (length acc + j)%nat).
        { rewrite length_app, length_firstn. lia. }
        destruct (IH st1 mrs1 n (acc ++ firstn j rem) Hready1)
          as (mrs' & st' & Hres & Hready' & Hrem' & Hsame');
          [lia | lia |].
        exists mrs', st'. rewrite Hrun, Hres, Hlen, Hrem1.
        replace (n - (length acc + j))%nat with (n - length acc - j)%nat
          by lia.
        split; [|split; [exact Hready'|split]].
        -- rewrite <- app_assoc, firstn_app_skipn_more by exact Hjk.
           rewrite length_skipn.
           replace (length rem - j <? n - length acc - j)%nat
             with (length rem <? n - length acc)%nat; [reflexivity|].
           destruct (length rem <? n - length acc)%nat eqn:E1;
             destruct (length rem - j <? n - length acc - j)%nat eqn:E2;
             auto;
             repeat match goal with
               | H : (_ <? _)%nat = true |- _ => apply Nat.ltb_lt in H
               | H : (_ <? _)%nat = false |- _ => apply Nat.ltb_ge in H
               end; lia.
        -- rewrite Hrem', Hrem1, skipn_skipn. f_equal. lia.
        -- eapply same_chain_trans; eauto.
Qed.

(** A read of [n] bytes from a ready chain delivers the next [n] bytes
    ahead, or all of them with [EOF] when fewer are left, and leaves the
    chain ready for what remains. *)
Lemma Read_spec (st : store) (mrs : multiReadSeeker.t) (n : nat) :
  ready st mrs ->
  exists mrs' st',
    multiReadSeeker.Read st mrs n =
      Some (firstn n (remaining st mrs),
            (if (length (remaining st mrs) <? n)%nat
             then Some EOF else None),
            mrs', st') /\
    ready st' mrs' /\
    remaining st' mrs' = skipn n (remaining st mrs) /\
    same_chain st mrs st' mrs'.
Proof.
  intros Hready. unfold multiReadSeeker.Read.
  destruct (Read_loop_spec (S (n + length (multiReadSeeker.readSeekers mrs)))
              st mrs n [] Hready) as (mrs' & st' & H);
    [simpl; lia | simpl; lia |].
  cbn [length app] in H. rewrite Nat.sub_0_r in H.
  exists mrs', st'. exact H.
Qed.

(** *** Draining *)

Lemma drain_loop_spec (fuel : nat) :
  forall (st : store) (mrs : multiReadSeeker.t) (bufsz : nat)
         (out : list byte),
    ready st mrs -> (0 < bufsz)%nat ->
    (length (remaining st mrs) < fuel)%nat ->
    exists mrs' st',
      drain_loop fuel st mrs bufsz out
        = Some (out ++ remaining st mrs, None, mrs', st') /\
      same_chain st mrs st' mrs'.
Proof.
  induction fuel as [|fuel IH]; intros st mrs bufsz out Hready Hbuf Hfuel.
  - lia.
  - cbn [drain_loop].
    destruct (Read_spec st mrs bufsz Hready)
      as (mrs1 & st1 & HR & Hready1 & Hrem1 & Hsame1).
    rewrite HR.
    destruct (length (remaining st mrs) <? bufsz)%nat eqn:E.
    + apply Nat.ltb_lt in E. cbn [is_EOF].
      rewrite firstn_all2 by lia. exists mrs1, st1. auto.
    + apply Nat.ltb_ge in E.
      destruct (IH st1 mrs1 bufsz (out ++ firstn bufsz (remaining st mrs))
                  Hready1 Hbuf) as (mrs' & st' & Hres & Hsame').
      { rewrite Hrem1, length_skipn. lia. }
      exists mrs', st'. rewrite Hres, Hrem1, <- app_assoc, firstn_skipn.
      split; [reflexivity | eapply same_chain_trans; eauto].
Qed.

(* ------------------------------------------------------------------ *)
(** ** Seeking a chain *)

Lemma fold_left_total (l : list Z) (a : Z) :
  fold_left Z.add l a = a + total_size l.
Proof.
  revert a. induction l as [|x l IH]; intros a; simpl.
  - lia.
  - rewrite IH. lia.
Qed.

Lemma view_within_ok (st : store) (v : skipReadSeeker.t) :
  view_within st v -> view_ok st v.
Proof.
  unfold view_within, view_ok, valid_pos. intros (H1 & H2 & H3 & H4).
  split; [exact H1 | lia].
Qed.

Lemma Forall_view_within_ok (st : store) (l : list skipReadSeeker.t) :
  Forall (view_within st) l -> Forall (view_ok st) l.
Proof.
  intros H. eapply Forall_impl; [|exact H]. apply view_within_ok.
Qed.

Lemma length_slice_within (d : list byte) (lo hi : nat) :
  (lo <= hi <= length d)%nat -> length (slice d lo hi) = (hi - lo)%nat.
Proof.
  intros H. unfold slice. rewrite length_firstn, length_skipn. lia.
Qed.

Lemma len_view_bytes (st : store) (v : skipReadSeeker.t) :
  view_within st v -> len (view_bytes st v) = view_size v.
Proof.
  unfold view_within, view_size, view_bytes, span, len.
  intros (_ & H2 & H3 & _). unfold len in H3.
  rewrite length_slice_within by lia. lia.
Qed.

Lemma total_size_nonneg (st : store) (vs : list skipReadSeeker.t) :
  Forall (view_within st) vs -> 0 <= total_size (map view_size vs).
Proof.
  induction 1 as [|v vs Hv _ IH]; simpl; [lia|].
  destruct Hv as (_ & H & _).
  assert (0 <= view_size v) by (unfold view_size; lia). lia.
Qed.

Lemma len_concat_view_bytes (st : store) (vs : list skipReadSeeker.t) :
  Forall (view_within st) vs ->
  len (concat (map (view_bytes st) vs)) = total_size (map view_size vs).
Proof.
  induction 1 as [|v vs Hv _ IH]; simpl; [reflexivity|].
  rewrite len_app, IH, len_view_bytes by exact Hv. reflexivity.
Qed.

Lemma Forall_skipn_view (P : skipReadSeeker.t -> Prop)
    (l : list skipReadSeeker.t) (k : nat) :
  Forall P l -> Forall P (skipn k l).
Proof.
  revert k. induction l as [|x l IH]; intros [|k] HF; simpl; auto.
  inversion HF; subst. apply IH. assumption.
Qed.

(** The scan of [Seek] when no view contains the offset. *)
Lemma Seek_scan_outside (st : store) (mrs : multiReadSeeker.t) (off : Z) :
  forall (ss : list Z) (i : nat) (total : Z),
    Forall (fun s => 0 <= s) ss ->
    off < total \/ total + total_size ss <= off ->
    multiReadSeeker.Seek_scan st mrs off i ss total
      = (inr multiReadSeeker.errBounds, mrs, st).
Proof.
  induction ss as [|s ss IH]; intros i total Hnn Hout; [reflexivity|].
  inversion Hnn as [|? ? Hs Hss]; subst.
  assert (Htail : 0 <= total_size ss).
  { clear -Hss. induction Hss; simpl; lia. }
  cbn [multiReadSeeker.Seek_scan]. simpl in Hout.
  destruct ((off >=? total) && (off <? total + s)) eqn:E.
  - apply andb_true_iff in E as [E1 E2].
    rewrite Z.geb_leb in E1. apply Z.leb_le in E1. apply Z.ltb_lt in E2. lia.
  - apply IH; [exact Hss | lia].
Qed.

(** The scan of [Seek] when the offset lies in one of the views still
    to be visited: that view becomes the active one, standing at the
    offset. *)
Lemma Seek_scan_inside (st : store) (mrs : multiReadSeeker.t) (off : Z) :
  no_faults st ->
  Forall (view_within st) (multiReadSeeker.readSeekers mrs) ->
  forall (vs : list skipReadSeeker.t) (i : nat) (total : Z),
    vs = skipn i (multiReadSeeker.readSeekers mrs) ->
    total <= off < total + total_size (map view_size vs) ->
    exists mrs' st',
      multiReadSeeker.Seek_scan st mrs off i (map view_size vs) total
        = (inl off, mrs', st') /\
      ready st' mrs' /\
      remaining st' mrs'
        = skipn (Z.to_nat (off - total)) (concat (map (view_bytes st) vs)) /\
      same_chain st mrs st' mrs'.
Proof.
  intros Hnf Hwithin.
  set (views := multiReadSeeker.readSeekers mrs) in *.
  induction vs as [|v vs IH]; intros i total Hvs Hoff.
  - simpl in Hoff. lia.
  - assert (Hi : (i < length views)%nat).
    { destruct (Nat.lt_ge_cases i (length views)) as [H|H]; [exact H|].
      rewrite skipn_all2 in Hvs by exact H. discriminate. }
    rewrite (skipn_nth_cons views i multiReadSeeker.nil_srs Hi) in Hvs.
    assert (Hv : v = nth i views multiReadSeeker.nil_srs) by congruence.
    assert (Hvs' : vs = skipn (S i) views) by congruence.
    clear Hvs. subst v.
    set (v := nth i views multiReadSeeker.nil_srs) in *.
    pose proof (Forall_nth_view _ _ _ Hwithin Hi) as Hvw. fold v in Hvw.
    pose proof (len_view_bytes st v Hvw) as Hlen.
    destruct Hvw as (Hh & Hse & Hed & He63).
    assert (Htail : 0 <= total_size (map view_size vs)).
    { apply (total_size_nonneg st). subst vs.
      apply Forall_skipn_view. exact Hwithin. }
    cbn [multiReadSeeker.Seek_scan map]. simpl in Hoff.
    destruct ((off >=? total) && (off <? total + view_size v)) eqn:E.
    + apply andb_true_iff in E as [E1 E2]. apply Z.ltb_lt in E2.
      unfold view_size in E2.
      change (multiReadSeeker.active (multiReadSeeker.set_rsIdx mrs i))
        with v.
      rewrite (view_Seek_plain st v (off - total))
        by (auto using no_faults_get; lia).
      set (o' := off - total + skipReadSeeker.start v).
      set (mrs' := multiReadSeeker.set_overall
                     (multiReadSeeker.set_active
                        (multiReadSeeker.set_rsIdx mrs i)
                        (skipReadSeeker.set_offset v o')) off).
      set (st' := positioned st v o').
      exists mrs', st'.
      assert (Hok : Forall (view_ok st) views)
        by (apply Forall_view_within_ok; exact Hwithin).
      assert (Ho' : skipReadSeeker.start v <= o').
      { unfold o'. lia. }
      split; [reflexivity|]. split; [|split].
      * apply (activate_ready st mrs mrs' i o'); auto.
      * etransitivity.
        { apply (activate_remaining st mrs mrs' i o'); auto. }
        fold views v. rewrite <- Hvs'.
        cbn [map concat]. rewrite skipn_app.
        replace (Z.to_nat (off - total) - length (view_bytes st v))%nat
          with 0%nat by (unfold len, view_size in Hlen; lia).
        simpl skipn at 2. f_equal.
        unfold view_bytes, span, o'.
        rewrite Z.add_comm, Z2Nat.inj_add by lia.
        apply slice_skip.
      * apply (activate_same_chain st mrs mrs' i o'); auto.
    + assert (Hge : total + view_size v <= off).
      { apply andb_false_iff in E as [E|E].
        - rewrite Z.geb_leb in E. apply Z.leb_gt in E. lia.
        - apply Z.ltb_ge in E. exact E. }
      destruct (IH (S i) (total + view_size v) Hvs' ltac:(lia))
        as (mrs' & st' & Hres & Hready & Hrem & Hsame).
      exists mrs', st'. split; [exact Hres|]. split; [exact Hready|].
      split; [|exact Hsame].
      rewrite Hrem. cbn [map concat]. rewrite skipn_app.
      unfold view_size in *. unfold len in Hlen.
      rewrite (skipn_all2 (view_bytes st v)) by lia.
      simpl. f_equal. lia.
Qed.

Lemma chain_wf_size (st : store) (mrs : multiReadSeeker.t) :
  chain_wf st mrs ->
  multiReadSeeker.sizes mrs
    = map view_size (multiReadSeeker.readSeekers mrs) /\
  multiReadSeeker.size mrs
    = total_size (map view_size (multiReadSeeker.readSeekers mrs)) /\
  len (chain_bytes st mrs) = multiReadSeeker.size mrs.
Proof.
  intros (_ & Hw & Hsizes & Hsize).
  assert (H : multiReadSeeker.sizes mrs
              = map view_size (multiReadSeeker.readSeekers mrs))
    by exact Hsizes.
  split; [exact H|].
  rewrite Hsize, fold_left_total, H. split; [lia|].
  unfold chain_bytes. rewrite len_concat_view_bytes by exact Hw. lia.
Qed.

(** C3, as the code has it.  On a chain of views that lie within plain
    sources, a seek whose resolved offset [o] satisfies
    [0 <= o < totalSize] succeeds and returns [o], and draining the chain
    from there delivers the bytes of the chain from [o] on, exactly
    [totalSize - o] of them; a seek whose resolved offset is negative or
    at least [totalSize] - the total size itself included - fails with
    the out-of-bounds error and changes nothing. *)
Theorem multiReadSeeker_Seek_then_drain (st : store)
    (mrs : multiReadSeeker.t) (off whence o : Z) :
  chain_wf st mrs ->
  multiReadSeeker.resolve mrs off whence = Some o ->
  (0 <= o < multiReadSeeker.size mrs ->
   exists mrs1 st1,
     multiReadSeeker.Seek st mrs off whence = (inl o, mrs1, st1) /\
     forall bufsz, (0 < bufsz)%nat ->
       exists mrs2 st2 out,
         drain st1 mrs1 bufsz = Some (out, None, mrs2, st2) /\
         out = skipn (Z.to_nat o) (chain_bytes st mrs) /\
         len out = multiReadSeeker.size mrs - o) /\
  (o < 0 \/ multiReadSeeker.size mrs <= o ->
   multiReadSeeker.Seek st mrs off whence
     = (inr multiReadSeeker.errBounds, mrs, st)).
Proof.
  intros Hwf Hres.
  destruct (chain_wf_size st mrs Hwf) as (Hsizes & Hsize & Hlen).
  destruct Hwf as (Hnf & Hw & _ & _).
  unfold multiReadSeeker.Seek. rewrite Hres, Hsizes. split.
  - intros Ho.
    destruct (Seek_scan_inside st mrs o Hnf Hw
                (multiReadSeeker.readSeekers mrs) 0%nat 0 eq_refl)
      as (mrs1 & st1 & Hscan & Hready & Hrem & Hsame); [lia|].
    exists mrs1, st1. split; [exact Hscan|].
    intros bufsz Hbuf.
    rewrite Z.sub_0_r in Hrem. fold (chain_bytes st mrs) in Hrem.
    assert (Hout : len (skipn (Z.to_nat o) (chain_bytes st mrs))
                   = multiReadSeeker.size mrs - o).
    { unfold len in *. rewrite length_skipn. lia. }
    destruct Hsame as (_ & _ & _ & Hsz).
    destruct (drain_loop_spec
                (S (S (Z.to_nat (multiReadSeeker.size mrs1))))
                st1 mrs1 bufsz [] Hready Hbuf)
      as (mrs2 & st2 & Hdrain & _).
    { rewrite Hrem, Hsz. unfold len in Hout. lia. }
    exists mrs2, st2, (skipn (Z.to_nat o) (chain_bytes st mrs)).
    unfold drain. rewrite Hdrain, Hrem. auto.
  - intros Ho. apply Seek_scan_outside.
    + clear -Hw. induction Hw as [|v vs Hv _ IH]; simpl; constructor; auto.
      destruct Hv as (_ & H & _). unfold view_size. lia.
    + simpl. lia.
Qed.

Lemma test_chain_wf : chain_wf test_store test_chain.
Proof.
  unfold chain_wf, test_chain, test_store, test_views. simpl.
  split; [repeat constructor|].
  split; [|split; reflexivity].
  repeat constructor; simpl; unfold len; simpl; lia.
Qed.

Lemma multiReadSeeker_Seek_then_drain_witness :
  exists mrs1 st1,
    multiReadSeeker.Seek test_store test_chain 6 SeekStart
      = (inl 6, mrs1, st1) /\
    forall bufsz, (0 < bufsz)%nat ->
      exists mrs2 st2 out,
        drain st1 mrs1 bufsz = Some (out, None, mrs2, st2) /\
        out = skipn (Z.to_nat 6) (chain_bytes test_store test_chain) /\
        len out = multiReadSeeker.size test_chain - 6.
Proof.
  apply (proj1 (multiReadSeeker_Seek_then_drain test_store test_chain
                  6 SeekStart 6 test_chain_wf eq_refl)).
  simpl. lia.
Defined.

(** The seeks of the package test on the chain the constructor
    returns: to offset 6, and two bytes before the end. *)
Example test_seek_6_read_4 :
  match newMultiReadSeeker test_store test_views with
  | (inl mrs, st) =>
      match multiReadSeeker.Seek st mrs 6 SeekStart with
      | (inl n, mrs, st) =>
          n = 6 /\
          match multiReadSeeker.Read st mrs 4 with
          | Some (bs, err, _, _) => bs = [x06; x07; x08; x09] /\ err = None
          | None => False
          end
      | _ => False
      end
  | _ => False
  end.
Proof. vm_compute. auto. Qed.

(** The statement of the specification fails at the upper end:
    the chain of the package test has total size 16, and seeking it to
    offset 16, from the start or as offset 0 from the end, is refused. *)
Lemma seek_to_total_size_fails :
  match newMultiReadSeeker test_store test_views with
  | (inl mrs, st) =>
      multiReadSeeker.Size mrs = 16 /\
      multiReadSeeker.resolve mrs 16 SeekStart = Some 16 /\
      multiReadSeeker.Seek st mrs 16 SeekStart
        = (inr multiReadSeeker.errBounds, mrs, st) /\
      multiReadSeeker.resolve mrs 0 SeekEnd = Some 16 /\
      multiReadSeeker.Seek st mrs 0 SeekEnd
        = (inr multiReadSeeker.errBounds, mrs, st)
  | _ => False
  end.
Proof. vm_compute. auto 6. Qed.

(* ------------------------------------------------------------------ *)
(** ** The scan of ReplaceMeta *)

Lemma byte_to_Z_range (b : byte) : 0 <= byte_to_Z b < 256.
Proof.
  unfold byte_to_Z. pose proof (Byte.to_N_bounded b). lia.
Qed.

Lemma lor_below (a b n : Z) :
  0 < n -> 0 <= a < 2 ^ n -> 0 <= b < 2 ^ n -> 0 <= Z.lor a b < 2 ^ n.
Proof.
  intros Hn Ha Hb.
  assert (H0 : 0 <= Z.lor a b) by (apply Z.lor_nonneg; lia).
  split; [exact H0|].
  destruct (Z.eq_dec (Z.lor a b) 0) as [E|E]; [rewrite E; lia|].
  apply Z.log2_lt_pow2; [lia|].
  rewrite Z.log2_lor by lia.
  assert (La : Z.log2 a < n).
  { destruct (Z.eq_dec a 0) as [->|]; [simpl; lia|].
    apply Z.log2_lt_pow2; lia. }
  assert (Lb : Z.log2 b < n).
  { destruct (Z.eq_dec b 0) as [->|]; [simpl; lia|].
    apply Z.log2_lt_pow2; lia. }
  lia.
Qed.

Lemma Uint32_range (bs : list byte) : 0 <= Uint32 bs < 2 ^ 32.
Proof.
  unfold Uint32.
  destruct bs as [|b0 [|b1 [|b2 [|b3 rest]]]]; try lia.
  pose proof (byte_to_Z_range b0). pose proof (byte_to_Z_range b1).
  pose proof (byte_to_Z_range b2). pose proof (byte_to_Z_range b3).
  rewrite !Z.shiftl_mul_pow2 by lia.
  repeat apply lor_below; lia.
Qed.

Lemma wrap64_high (z : Z) : 2 ^ 63 <= z < 2 ^ 64 -> wrap64 z < 0.
Proof.
  intros H. unfold wrap64.
  replace (z + 2 ^ 63) with (z - 2 ^ 63 + 1 * 2 ^ 64) by lia.
  rewrite Z_mod_plus_full, Z.mod_small by lia. lia.
Qed.

Lemma Reader_Read_faults (r : Reader) (n : nat) :
  faults r = [] -> faults (snd (Reader_Read r n)) = [].
Proof.
  intros Hf. unfold Reader_Read, next_fault. rewrite Hf.
  destruct (pos r >=? len (data r)); simpl; auto.
Qed.

Lemma Reader_Seek_faults (r : Reader) (off whence : Z) :
  faults r = [] -> faults (snd (Reader_Seek r off whence)) = [].
Proof.
  intros Hf. unfold Reader_Seek, next_fault. rewrite Hf.
  repeat match goal with
    | |- context [if ?c then _ else _] => destruct c; simpl; auto
    end.
Qed.

(** A relative seek forward from a position: if it succeeds it lands
    where the addition says. *)
Lemma Reader_Seek_forward (r r' : Reader) (off abs : Z) :
  faults r = [] -> 0 <= pos r -> 0 <= off -> pos r + off < 2 ^ 64 ->
  Reader_Seek r off SeekCurrent = (inl abs, r') ->
  abs = pos r + off /\ valid_pos abs /\ pos r' = abs.
Proof.
  unfold valid_pos. intros Hf Hp Hoff Hsum.
  unfold Reader_Seek, next_fault. rewrite Hf. simpl.
  destruct (wrap64 (pos r + off) <? 0) eqn:E; [discriminate|].
  apply Z.ltb_ge in E. intros H; inversion H; subst; clear H. simpl.
  destruct (Z_lt_le_dec (pos r + off) (2 ^ 63)) as [Hlt|Hge].
  - rewrite wrap64_small in * by lia. repeat split; lia.
  - pose proof (wrap64_high (pos r + off) ltac:(lia)). lia.
Qed.



(** *** The store and a new reader *)

Lemma get_alloc_old (st : store) (r : Reader) (h : handle) :
  (h < length st)%nat -> get (st ++ [r]) h = get st h.
Proof. intros H. unfold get. apply app_nth1. exact H. Qed.

Lemma get_alloc_new (st : store) (r : Reader) :
  get (st ++ [r]) (length st) = r.
Proof.
  unfold get. rewrite app_nth2 by lia. rewrite Nat.sub_diag. reflexivity.
Qed.

Lemma no_faults_alloc (st : store) (r : Reader) :
  no_faults st -> faults r = [] -> no_faults (st ++ [r]).
Proof.
  unfold no_faults. intros H Hr. apply Forall_app. split; auto.
Qed.

(** *** The views the scan leaves *)

Lemma chunk_view_ok_later (f : handle) (at_ at' : Z) (v : skipReadSeeker.t) :
  at_ <= at' -> chunk_view_ok f at_ v -> chunk_view_ok f at' v.
Proof.
  unfold chunk_view_ok. intros H (H1 & H2 & H3 & H4).
  repeat split; auto; try lia; apply H2.
Qed.

Lemma Forall_set_nth {A : Type} (P : A -> Prop) (l : list A) (i : nat)
    (x : A) :
  Forall P l -> P x -> Forall P (set_nth l i x).
Proof.
  intros H Hx. revert i.
  induction H as [|y l Hy Hl IH]; intros [|i]; simpl; constructor; auto.
Qed.

Lemma set_nth_nonempty {A : Type} (l : list A) (i : nat) (x : A) :
  l <> [] -> set_nth l i x <> [].
Proof. destruct l, i; simpl; congruence. Qed.

(** Closing the last view of [hdr :: meta :: chunks] closes the last
    chunk view when there is one. *)
Lemma close_last_chunk (hdr meta : skipReadSeeker.t)
    (chunks : list skipReadSeeker.t) (e : Z) :
  chunks <> [] ->
  let readers := hdr :: meta :: chunks in
  let last := last_index readers in
  set_nth readers last
    (skipReadSeeker.set_end (nth last readers multiReadSeeker.nil_srs) e)
  = hdr :: meta
      :: set_nth chunks (last_index chunks)
           (skipReadSeeker.set_end
              (nth (last_index chunks) chunks multiReadSeeker.nil_srs) e).
Proof.
  intros Hne. destruct chunks as [|c chunks]; [congruence|].
  unfold last_index. cbn [length].
  replace (S (S (S (length chunks))) - 1)%nat
    with (S (S (S (length chunks) - 1))) by lia.
  reflexivity.
Qed.

(** Whatever the file holds, a scan that ends normally leaves the two
    first views alone and has appended views over the file that start at
    valid positions and do not end before they start. *)
Lemma scan_views (f : handle) (hdr meta : skipReadSeeker.t) (fuel : nat) :
  forall (st : store) (p : list byte) (chunks : list skipReadSeeker.t)
         (at_ : Z) (kept : bool)
         (res : list skipReadSeeker.t * Z) (st' : store),
    no_faults st -> (f < length st)%nat ->
    pos (get st f) = at_ -> valid_pos at_ ->
    Forall (chunk_view_ok f at_) chunks ->
    (kept = true -> chunks <> []) ->
    scan fuel st f p (hdr :: meta :: chunks) at_ kept
      = Some (inl res, st') ->
    exists chunks',
      fst res = hdr :: meta :: chunks' /\ valid_pos (snd res) /\
      Forall (chunk_view_ok f (snd res)) chunks' /\
      (chunks <> [] -> chunks' <> []) /\
      no_faults st' /\ map data st' = map data st.
Proof.
  induction fuel as [|fuel IH];
    intros st p chunks at_ kept res st' Hnf Hf Hpos Hat Hch Hkept Hscan;
    [discriminate|].
  cbn [scan] in Hscan.
  pose proof (no_faults_get st f Hnf) as Hff.
  pose proof (Reader_Read_faults (get st f) (length p) Hff) as HRf.
  pose proof (Reader_Read_data (get st f) (length p)) as HRd.
  pose proof (Reader_Read_at_pos (get st f) (length p)) as HRp.
  destruct (Reader_Read (get st f) (length p)) as [[bs err] r] eqn:HR.
  simpl in HRf. destruct HRp as [_ HRp].
  set (st1 := upd st f r) in *.
  assert (Hnf1 : no_faults st1) by (apply no_faults_upd; auto).
  assert (Hd1 : map data st1 = map data st)
    by (apply map_data_upd; exact HRd).
  destruct err as [e|].
  - (* end of data, or a failure *)
    destruct (is_EOF e); [|discriminate].
    inversion Hscan; subst res st'; clear Hscan.
    exists chunks. simpl. auto 7.
  - destruct (negb (length bs =? 8)%nat) eqn:E8; [discriminate|].
    apply negb_false_iff, Nat.eqb_eq in E8.
    set (length_ := Uint32 (slice (fill p bs) 0 4) + 4) in *.
    pose proof (Uint32_range (slice (fill p bs) 0 4)) as HU.
    assert (Hl : 0 <= length_ < 2 ^ 33) by (unfold length_; lia).
    assert (Hr1 : get st1 f = r) by (apply get_upd_same; exact Hf).
    assert (Hpr : pos r = at_ + 8).
    { rewrite HRp, Hpos. unfold len. rewrite E8. reflexivity. }
    match type of Hscan with
    | (let '(readers, k) := ?X in _) = _ =>
        destruct X as [readers2 kept2] eqn:Hstep
    end.
    rewrite Hr1 in Hscan.
    destruct (Reader_Seek r length_ SeekCurrent) as [[at2|e] r2] eqn:HS;
      [|discriminate].
    destruct (Reader_Seek_forward r r2 length_ at2 HRf) as (Hat2 & Hv2 & Hp2);
      [unfold valid_pos in *; lia | lia | unfold valid_pos in *; lia
      | exact HS |].
    pose proof (Reader_Seek_faults r length_ SeekCurrent HRf) as HSf.
    pose proof (Reader_Seek_data r length_ SeekCurrent) as HSd.
    rewrite HS in HSf, HSd. simpl in HSf, HSd.
    assert (Hmono : at_ <= at2) by lia.
    assert (Hstep' :
      exists chunks2, readers2 = hdr :: meta :: chunks2 /\
        Forall (chunk_view_ok f at2) chunks2 /\
        (kept2 = true -> chunks2 <> []) /\
        (chunks <> [] -> chunks2 <> [])).
    { assert (Hold : Forall (chunk_view_ok f at2) chunks).
      { eapply Forall_impl; [|exact Hch].
        intros v. apply chunk_view_ok_later. exact Hmono. }
      destruct (negb (retain (slice (fill p bs) 4 8))).
      - injection Hstep as <- <-. exists chunks. repeat split; auto.
        discriminate.
      - destruct kept.
        + specialize (Hkept eq_refl).
          rewrite close_last_chunk in Hstep by exact Hkept.
          injection Hstep as <- <-.
          eexists; split; [reflexivity|].
          split; [|split; intros; apply set_nth_nonempty; exact Hkept].
          apply Forall_set_nth; [exact Hold|].
          assert (Hin : chunk_view_ok f at_
                          (nth (last_index chunks) chunks
                             multiReadSeeker.nil_srs)).
          { rewrite Forall_forall in Hch. apply Hch. apply nth_In.
            unfold last_index. destruct chunks; [congruence|].
            simpl. lia. }
          destruct Hin as (A & B & C & D).
          unfold chunk_view_ok. simpl. repeat split; auto; try lia;
            apply B.
        + injection Hstep as <- <-.
          exists (chunks ++ [skipReadSeeker.mk "chunk" f at_
                               (at_ + length_) 0]).
          split; [reflexivity|].
          split; [|split; intros; intros Hnil;
                   apply app_eq_nil in Hnil as [_ Hnil]; discriminate].
          apply Forall_app. split; [exact Hold|].
          constructor; [|constructor].
          unfold chunk_view_ok, valid_pos in *. simpl.
          repeat split; auto; lia. }
    destruct Hstep' as (chunks2 & -> & Hch2 & Hkept2 & Hne2).
    destruct (IH (upd st1 f r2) (fill p bs) chunks2 at2 kept2 res st')
      as (chunks' & Hres & Hv' & Hch' & Hne' & Hnf' & Hd'); auto.
    + apply no_faults_upd; auto.
    + rewrite length_upd. unfold st1. rewrite length_upd. exact Hf.
    + rewrite get_upd_same; [exact Hp2|].
      unfold st1. rewrite length_upd. exact Hf.
    + exists chunks'. repeat split; auto; try apply Hv'.
      rewrite Hd'. rewrite map_data_upd; [exact Hd1|].
      rewrite Hr1. exact HSd.
Qed.

(* ------------------------------------------------------------------ *)
(** ** The scan on a framed file *)

Lemma chunks_to_IEND_end (d : list byte) (i : nat) :
  chunks_to_IEND d i ->
  (i + 12 <= length d)%nat /\ skipn (length d - 12) d = iend.
Proof.
  induction 1 as [i Hend | i Hhdr Hnext [IH1 IH2]].
  - assert (Hlen : length (skipn i d) = 12%nat) by (rewrite Hend; reflexivity).
    rewrite length_skipn in Hlen.
    split; [lia|]. replace (length d - 12)%nat with i by lia. exact Hend.
  - split; [lia | exact IH2].
Qed.

Lemma Reader_Seek_end_plain (r : Reader) (off : Z) :
  faults r = [] -> 0 <= len (data r) + off < 2 ^ 63 ->
  Reader_Seek r off SeekEnd =
    (inl (len (data r) + off),
     {| data := data r; pos := len (data r) + off; faults := [] |}).
Proof.
  intros Hf H. unfold Reader_Seek, next_fault. rewrite Hf. simpl.
  rewrite wrap64_small by lia.
  destruct (len (data r) + off <? 0) eqn:E; [apply Z.ltb_lt in E; lia|].
  rewrite Hf. reflexivity.
Qed.

Lemma Reader_Seek_current_plain (r : Reader) (off : Z) :
  faults r = [] -> 0 <= pos r + off < 2 ^ 63 ->
  Reader_Seek r off SeekCurrent =
    (inl (pos r + off),
     {| data := data r; pos := pos r + off; faults := [] |}).
Proof.
  intros Hf H. unfold Reader_Seek, next_fault. rewrite Hf. simpl.
  rewrite wrap64_small by lia.
  destruct (pos r + off <? 0) eqn:E; [apply Z.ltb_lt in E; lia|].
  rewrite Hf. reflexivity.
Qed.

(** [Assert] accepts a framed file and leaves the reader as it was. *)
Lemma Assert_framed (r : Reader) :
  faults r = [] -> valid_pos (pos r) -> png_framed (data r) ->
  Assert r = (None, r).
Proof.
  intros Hf Hp (Hhead & Hchunks & Hlen). unfold valid_pos in Hp.
  destruct (chunks_to_IEND_end _ _ Hchunks) as [Hge Htail].
  assert (Hlen' : 45 <= len (data r)) by (unfold len; lia).
  unfold Assert.
  rewrite Reader_Seek_current_plain by (auto; lia).
  rewrite Z.add_0_r. unfold Assert_checks.
  rewrite Reader_Seek_start_plain by (auto; lia).
  rewrite Reader_Read_plain by (simpl; auto; lia).
  cbn [data pos faults Z.to_nat skipn].
  assert (Hne : data r <> []).
  { intros E. rewrite E in Hlen'. unfold len in Hlen'. simpl in Hlen'. lia. }
  destruct (data r) as [|b0 d0] eqn:Hd; [congruence|].
  rewrite <- Hd in *. clear Hne.
  rewrite Hhead.
  change (negb (bytes_Equal (fill (make 16) (header ++ ihdr))
                  (header ++ ihdr))) with false.
  cbv iota.
  rewrite Reader_Seek_end_plain by (simpl; auto; lia).
  rewrite Reader_Read_plain by (simpl; auto; lia).
  cbn [data pos faults].
  assert (Hskip : skipn (Z.to_nat (len (data r) + -12)) (data r) = iend).
  { rewrite <- Htail. f_equal. unfold len. lia. }
  rewrite Hskip.
  change (firstn 16 iend) with iend.
  change (negb (bytes_Equal
                  (slice (fill (fill (make 16) (header ++ ihdr)) iend) 0 12)
                  iend)) with false.
  cbv beta iota zeta delta [iend].
  rewrite Reader_Seek_start_plain by (simpl; auto; lia).
  destruct r; simpl in *. subst. reflexivity.
Qed.

Section FramedScan.

Variable f : handle.
Variables hdr meta : skipReadSeeker.t.
Variable d : list byte.
Hypothesis Hlen : len d < 2 ^ 63.

(** The source stands at the end of the file: the scan stops. *)
Lemma scan_at_end (fuel : nat) (st : store) (p : list byte)
    (readers : list skipReadSeeker.t) (kept : bool) :
  no_faults st -> data (get st f) = d ->
  pos (get st f) = len d ->
  exists st',
    scan (S fuel) st f p readers (len d) kept
      = Some (inl (readers, len d), st').
Proof.
  intros Hnf Hd Hp. cbn [scan].
  unfold Reader_Read, next_fault. rewrite (no_faults_get st f Hnf).
  rewrite Hp, Hd.
  destruct (len d >=? len d) eqn:E;
    [|rewrite Z.geb_leb in E; apply Z.leb_gt in E; lia].
  cbn [is_EOF]. eexists. reflexivity.
Qed.

(** The source stands at the header of a whole chunk: one turn of the
    loop moves it to the next header. *)
Lemma scan_chunk_step (fuel : nat) (st : store) (p : list byte)
    (chunks : list skipReadSeeker.t) (kept : bool) (i : nat) :
  no_faults st -> (f < length st)%nat -> data (get st f) = d ->
  pos (get st f) = Z.of_nat i -> length p = 8%nat ->
  (i + 8 <= length d)%nat ->
  let next := (i + 12 + Z.to_nat (Uint32 (slice d i (i + 4))))%nat in
  (next <= length d)%nat ->
  (kept = true -> chunks <> []) ->
  exists st2 chunks2 kept2,
    scan (S fuel) st f p (hdr :: meta :: chunks) (Z.of_nat i) kept
      = scan fuel st2 f (slice d i (i + 8)) (hdr :: meta :: chunks2)
          (Z.of_nat next) kept2 /\
    no_faults st2 /\ length st2 = length st /\
    data (get st2 f) = d /\ pos (get st2 f) = Z.of_nat next /\
    (kept2 = true -> chunks2 <> []) /\
    (retain (slice d (i + 4) (i + 8)) = true -> chunks2 <> []) /\
    (chunks <> [] -> chunks2 <> []).
Proof.
  intros Hnf Hf Hd Hp Hp8 Hi next Hnext Hkept.
  pose proof (Uint32_range (slice d i (i + 4))) as HU.
  unfold len in Hlen.
  set (bs := slice d i (i + 8)).
  assert (Hbs : firstn 8 (skipn i d) = bs).
  { unfold bs, slice. f_equal. lia. }
  assert (Hbs8 : length bs = 8%nat).
  { unfold bs. rewrite length_slice_within; lia. }
  assert (Hfill : fill p bs = bs).
  { unfold fill. rewrite Hbs8, <- Hp8, skipn_all. apply app_nil_r. }
  assert (H04 : slice bs 0 4 = slice d i (i + 4)).
  { unfold bs, slice. cbn [skipn].
    rewrite firstn_firstn. f_equal; lia. }
  assert (H48 : slice bs 4 8 = slice d (i + 4) (i + 8)).
  { rewrite (slice_skip d i (i + 8) 4). fold bs.
    unfold slice at 1. apply firstn_all2.
    rewrite length_skipn, Hbs8. simpl. lia. }
  cbn [scan].
  rewrite Reader_Read_plain
    by (auto using no_faults_get; rewrite ?Hp; lia).
  rewrite Hp, Hd, Nat2Z.id, Hp8, Hbs.
  assert (Hne : skipn i d <> []).
  { intros E. rewrite E in Hbs. rewrite firstn_nil in Hbs.
    rewrite <- Hbs in Hbs8. discriminate. }
  destruct (skipn i d) as [|b0 rest] eqn:Hsk; [congruence|].
  rewrite Hfill, Hbs8. cbn [Nat.eqb negb].
  rewrite H04, H48.
  set (length_ := Uint32 (slice d i (i + 4)) + 4) in *.
  set (r1 := {| data := d; pos := Z.of_nat i + len bs; faults := [] |}).
  set (st1 := upd st f r1).
  assert (Hg1 : get st1 f = r1) by (apply get_upd_same; exact Hf).
  rewrite Hg1.
  rewrite Reader_Seek_current_plain
    by (simpl; unfold len; rewrite ?Hbs8; auto; unfold length_; lia).
  change (pos r1) with (Z.of_nat i + len bs).
  change (data r1) with d.
  assert (Hnextz : Z.of_nat i + len bs + length_ = Z.of_nat next).
  { unfold len, length_, next. rewrite Hbs8. lia. }
  rewrite Hnextz.
  set (r2 := {| data := d; pos := Z.of_nat next; faults := [] |}).
  set (st2 := upd st1 f r2).
  assert (Hnf2 : no_faults st2).
  { apply no_faults_upd; [apply no_faults_upd; auto|]; reflexivity. }
  assert (Hlen2 : length st2 = length st).
  { unfold st2, st1. rewrite !length_upd. reflexivity. }
  assert (Hg2 : get st2 f = r2).
  { apply get_upd_same. unfold st1. rewrite length_upd. exact Hf. }
  destruct (retain (slice d (i + 4) (i + 8))) eqn:Hret; cbn [negb].
  - destruct kept.
    + specialize (Hkept eq_refl).
      rewrite close_last_chunk by exact Hkept.
      eexists st2, _, true. split; [reflexivity|].
      rewrite Hg2. repeat split; auto;
        intros; apply set_nth_nonempty; exact Hkept.
    + eexists st2, _, true. split; [reflexivity|].
      rewrite Hg2. repeat split; auto;
        intros; intros Hnil; apply app_eq_nil in Hnil as [_ Hnil];
        discriminate.
  - exists st2, chunks, false. split; [reflexivity|].
    rewrite Hg2. repeat split; auto; discriminate.
Qed.

(** The scan of a framed file from a chunk header ends normally, at the
    end of the file, having kept at least the IEND chunk. *)
Lemma scan_framed (i : nat) :
  chunks_to_IEND d i ->
  forall (fuel : nat) (st : store) (p : list byte)
         (chunks : list skipReadSeeker.t) (kept : bool),
    no_faults st -> (f < length st)%nat -> data (get st f) = d ->
    pos (get st f) = Z.of_nat i -> length p = 8%nat ->
    (length d - i + 2 <= fuel)%nat ->
    (kept = true -> chunks <> []) ->
    exists chunks' st',
      scan fuel st f p (hdr :: meta :: chunks) (Z.of_nat i) kept
        = Some (inl (hdr :: meta :: chunks', len d), st') /\
      chunks' <> [].
Proof.
  induction 1 as [i Hend | i Hhdr Hnext IH];
    intros fuel st p chunks kept Hnf Hf Hd Hp Hp8 Hfuel Hkept.
  - (* the IEND chunk, then the end of the file *)
    assert (Hi : (i + 12 = length d)%nat).
    { assert (E : length (skipn i d) = 12%nat) by (rewrite Hend; reflexivity).
      rewrite length_skipn in E. lia. }
    assert (H4 : slice d i (i + 4) = [x00; x00; x00; x00]).
    { unfold slice. rewrite Hend.
      replace (i + 4 - i)%nat with 4%nat by lia. reflexivity. }
    assert (H8 : slice d (i + 4) (i + 8) = tag_IEND).
    { rewrite (slice_skip d i (i + 8) 4). unfold slice.
      rewrite Hend. replace (i + 8 - i)%nat with 8%nat by lia.
      reflexivity. }
    destruct fuel as [|[|fuel]]; try lia.
    destruct (scan_chunk_step (S fuel) st p chunks kept i
                Hnf Hf Hd Hp Hp8 ltac:(lia))
      as (st2 & chunks2 & kept2 & Hstep & Hnf2 & Hlen2 & Hd2 & Hp2
          & _ & Hret & _); [rewrite H4; simpl; lia | exact Hkept |].
    rewrite H4 in Hstep, Hp2. simpl Z.to_nat in Hstep, Hp2.
    rewrite Nat.add_0_r in Hstep, Hp2. rewrite Hi in Hstep, Hp2.
    destruct (scan_at_end fuel st2 (slice d i (i + 8))
                (hdr :: meta :: chunks2) kept2 Hnf2 Hd2 Hp2)
      as (st' & Hfin).
    exists chunks2, st'. rewrite Hstep. split; [exact Hfin|].
    apply Hret. rewrite H8. reflexivity.
  - destruct (chunks_to_IEND_end _ _ Hnext) as [Hn12 _].
    destruct fuel as [|fuel]; [lia|].
    destruct (scan_chunk_step fuel st p chunks kept i
                Hnf Hf Hd Hp Hp8 Hhdr ltac:(lia) Hkept)
      as (st2 & chunks2 & kept2 & Hstep & Hnf2 & Hlen2 & Hd2 & Hp2
          & Hk2 & _ & _).
    rewrite Hstep.
    apply IH; auto; try lia.
    unfold slice. rewrite length_firstn, length_skipn. lia.
Qed.

End FramedScan.

(* ------------------------------------------------------------------ *)
(** ** ReplaceMeta with an empty mapping *)



(** The constructor on views of which the first is not empty: the chain
    stands at the start of the first view, with every byte ahead. *)
Lemma newMultiReadSeeker_first (st : store) (v : skipReadSeeker.t)
    (vs : list skipReadSeeker.t) :
  no_faults st -> Forall (view_ok st) (v :: vs) ->
  skipReadSeeker.start v < skipReadSeeker.end_ v ->
  exists mrs st',
    newMultiReadSeeker st (v :: vs) = (inl mrs, st') /\
    multiReadSeeker.readSeekers mrs
      = skipReadSeeker.set_offset v (skipReadSeeker.start v) :: vs /\
    multiReadSeeker.sizes mrs = map view_size (v :: vs) /\
    multiReadSeeker.size mrs = total_size (map view_size (v :: vs)) /\
    ready st' mrs /\
    remaining st' mrs = concat (map (view_bytes st) (v :: vs)) /\
    map data st' = map data st.
Proof.
  intros Hnf Hok Hlt.
  inversion Hok as [|? ? Hv Hvs]; subst.
  destruct Hv as [Hh Hs]. unfold valid_pos in Hs.
  unfold newMultiReadSeeker.
  set (sizes := map (fun rs => skipReadSeeker.end_ rs - skipReadSeeker.start rs)
                  (v :: vs)).
  set (mrs0 := multiReadSeeker.mk 0 0%nat (v :: vs) sizes
                 (fold_left Z.add sizes 0)).
  unfold multiReadSeeker.Seek. cbn [multiReadSeeker.resolve Z.eqb SeekStart].
  change (multiReadSeeker.sizes mrs0) with sizes.
  unfold sizes at 1. cbn [map multiReadSeeker.Seek_scan].
  destruct ((0 >=? 0)
            && (0 <? 0 + (skipReadSeeker.end_ v - skipReadSeeker.start v)))
    eqn:E.
  2:{ apply andb_false_iff in E as [E|E]; [discriminate|].
      apply Z.ltb_ge in E. lia. }
  change (multiReadSeeker.active (multiReadSeeker.set_rsIdx mrs0 0)) with v.
  rewrite (view_Seek_plain st v (0 - 0))
    by (auto using no_faults_get; lia).
  cbn [Z.sub Z.opp Z.add].
  set (mrs := multiReadSeeker.set_overall _ _).
  set (st' := positioned _ _ _).
  exists mrs, st'.
  assert (Hi : (0 < length (multiReadSeeker.readSeekers mrs0))%nat)
    by (simpl; lia).
  assert (Ho : skipReadSeeker.start
                 (nth 0 (multiReadSeeker.readSeekers mrs0)
                    multiReadSeeker.nil_srs)
               <= skipReadSeeker.start v) by (simpl; lia).
  split; [reflexivity|]. split; [reflexivity|]. split; [reflexivity|].
  split; [apply fold_left_total|].
  split; [|split].
  - apply (activate_ready st mrs0 mrs 0%nat (skipReadSeeker.start v)); auto.
  - etransitivity.
    { apply (activate_remaining st mrs0 mrs 0%nat (skipReadSeeker.start v));
        auto. }
    reflexivity.
  - apply (activate_same_chain st mrs0 mrs 0%nat (skipReadSeeker.start v));
      auto.
Qed.




(** On a framed file [ReplaceMeta] returns a chain, and the scan has
    kept a chunk. *)
Lemma ReplaceMeta_empty_succeeds (st : store) (f : handle) :
  no_faults st -> (f < length st)%nat ->
  valid_pos (pos (get st f)) -> png_framed (data (get st f)) ->
  exists mrs st',
    ReplaceMeta st f [] = Some (Ok mrs, st') /\
    (2 < length (multiReadSeeker.readSeekers mrs))%nat.
Proof.
  intros Hnf Hf Hvp Hframed.
  pose proof Hframed as (_ & Hchunks & Hlen).
  destruct (chunks_to_IEND_end _ _ Hchunks) as [Hge _].
  set (d := data (get st f)) in *.
  unfold ReplaceMeta.
  rewrite Assert_framed by (auto using no_faults_get).
  rewrite upd_get.
  change (encode_metadata []) with (Some (make 8, 0%nat)).
  cbv beta iota.
  change (slice_checked (make 8) 0 (length (make 8))) with (Some (make 8)).
  cbv beta iota.
  rewrite Reader_Seek_start_plain
    by (auto using no_faults_get; unfold ihdrEnd; lia).
  fold d.
  set (r2 := {| data := d; pos := ihdrEnd; faults := [] |}).
  set (st2 := upd st f r2).
  assert (Hnf2 : no_faults st2) by (apply no_faults_upd; auto).
  assert (Hlen2 : length st2 = length st) by apply length_upd.
  change (firstn (length (make 8) - 8) (make 8)) with (@nil byte).
  change (len (make 8) - 8) with 0.
  unfold alloc. cbv beta iota. rewrite Hlen2.
  set (st3 := st2 ++ [NewReader []]).
  assert (Hnf3 : no_faults st3) by (apply no_faults_alloc; auto).
  assert (Hf3 : (f < length st3)%nat).
  { unfold st3. rewrite length_app. simpl. lia. }
  assert (Hg3 : get st3 f = r2).
  { unfold st3. rewrite get_alloc_old by lia. apply get_upd_same. exact Hf. }
  fold (header_view f). fold (metadata_view (length st) 0).
  destruct (scan_framed f (header_view f) (metadata_view (length st) 0)
              d Hlen 33 Hchunks (scan_fuel st3 f) st3 (make 8) [] false)
    as (chunks' & st4 & Hscan & Hne); auto.
  { rewrite Hg3. reflexivity. }
  { rewrite Hg3. reflexivity. }
  { unfold scan_fuel. rewrite Hg3. change (data r2) with d. lia. }
  { discriminate. }
  change (Z.of_nat 33) with ihdrEnd in Hscan. rewrite Hscan.
  destruct (scan_views f (header_view f) (metadata_view (length st) 0)
              (scan_fuel st3 f) st3 (make 8) [] ihdrEnd false
              (header_view f :: metadata_view (length st) 0 :: chunks', len d)
              st4 Hnf3 Hf3)
    as (chunks0 & Hres & Hv' & Hch' & _ & Hnf4 & Hd4);
    [rewrite Hg3; reflexivity | unfold valid_pos, ihdrEnd; lia | constructor
    | discriminate | exact Hscan |].
  simpl in Hres, Hv', Hch'.
  assert (chunks0 = chunks') by congruence. subst chunks0.
  rewrite close_last_chunk by exact Hne.
  set (closed := set_nth chunks' (last_index chunks') _).
  assert (Hlen4 : length st4 = S (length st)).
  { rewrite (length_same_data _ _ Hd4). unfold st3.
    rewrite length_app, Hlen2. simpl. lia. }
  assert (Hclosed : Forall (chunk_view_ok f (len d)) closed).
  { assert (Hlast : chunk_view_ok f (len d)
                      (nth (last_index chunks') chunks'
                         multiReadSeeker.nil_srs)).
    { rewrite Forall_forall in Hch'. apply Hch'. apply nth_In.
      unfold last_index. destruct chunks'; [congruence|]. simpl. lia. }
    apply Forall_set_nth; [exact Hch'|].
    destruct Hlast as (A & B & C & D). unfold chunk_view_ok. simpl.
    unfold valid_pos in *. repeat split; auto; lia. }
  destruct (newMultiReadSeeker_first st4 (header_view f)
              (metadata_view (length st) 0 :: closed) Hnf4)
    as (mrs & st' & HN & Hviews & _); [|simpl; unfold ihdrEnd; lia|].
  { constructor; [|constructor].
    - unfold view_ok, valid_pos. simpl. split; lia.
    - unfold view_ok, valid_pos. simpl. split; lia.
    - eapply Forall_impl; [|exact Hclosed].
      intros v (A & B & _). unfold view_ok. rewrite A. split; [lia|].
      exact B. }
  rewrite HN. exists mrs, st'. split; [reflexivity|].
  rewrite Hviews. simpl. unfold closed. rewrite length_set_nth.
  destruct chunks'; [congruence|]. simpl. lia.
Qed.


(** On the sample file with the text chunk first: the views, and the
    first read of 64 bytes, which crosses the metadata view. *)
Example no_metadata_text_first :
  emitted_views png_text_first [] =
    Some [ (0%nat, 0, 33); (1%nat, 0, 0); (0%nat, 48, 77) ] /\
  edited png_text_first [] =
    Some (header ++ ihdr_chunk ++ idat_chunk ++ iend_chunk) /\
  match ReplaceMeta [NewReader png_text_first] 0%nat [] with
  | Some (Ok mrs, st) =>
      match multiReadSeeker.Read st mrs 40 with
      | Some (bs, err, mrs', _) =>
          bs = header ++ ihdr_chunk ++ firstn 7 idat_chunk /\
          err = None /\ multiReadSeeker.rsIdx mrs' = 2%nat
      | None => False
      end
  | _ => False
  end.
Proof. vm_compute. auto. Qed.

(** A file of the signature, the opening of IHDR and the trailer passes
    the structural check although it holds no whole chunk after offset
    33; the scan keeps nothing, and the assignment after the loop then
    gives the metadata view the end 33.  It still stands for no bytes. *)
Example no_chunk_kept :
  emitted_views (header ++ ihdr ++ iend) [] =
    Some [ (0%nat, 0, 33); (1%nat, 0, 33) ] /\
  edited (header ++ ihdr ++ iend) [] = Some (header ++ ihdr ++ iend).
Proof. vm_compute. auto. Qed.

(* ------------------------------------------------------------------ *)
(** ** The rewrite on files with a dropped chunk after a kept one *)

(** The sample files pass the structural check. *)
Example samples_pass_Assert :
  fst (Assert (NewReader png_text_last)) = None /\
  fst (Assert (NewReader png_text_first)) = None /\
  fst (Assert (NewReader png_run_then_text)) = None.
Proof. vm_compute. auto. Qed.

(** C1 at the file IHDR, IDAT, tEXt, IEND with no metadata.  The stream
    delivers the first 33 bytes, the first nine bytes of the seventeen of
    the IDAT chunk, and the IEND chunk: the kept chunk before the dropped
    one loses its last eight bytes, so the stream is not the splice of
    the first 33 bytes, the blob and the whole kept chunks. *)
Theorem edited_text_last_truncates_IDAT :
  edited png_text_last [] =
    Some (header ++ ihdr_chunk ++ firstn 9 idat_chunk ++ iend_chunk) /\
  spliced png_text_last [] =
    header ++ ihdr_chunk ++ idat_chunk ++ iend_chunk /\
  edited png_text_last [] <> Some (spliced png_text_last []).
Proof.
  split; [vm_compute; reflexivity|].
  split; [vm_compute; reflexivity|].
  vm_compute. discriminate.
Qed.

(** With the dropped chunk before the kept ones the stream is the
    splice. *)
Example edited_text_first_is_spliced :
  edited png_text_first two_entries =
    Some (spliced png_text_first (concat (map itxt_record two_entries))).
Proof. vm_compute. reflexivity. Qed.

(** C2 at the same file.  The IDAT chunk occupies [33, 50) of the
    source and the scan emits for it the view [33, 42): the end of a
    newly appended view is [pos + length], where [length] counts the
    payload and the CRC but not the eight header bytes, and nothing
    corrects it once the next chunk is dropped. *)
Theorem views_text_last_cut_IDAT :
  slice png_text_last 33 50 = idat_chunk /\
  retain (slice idat_chunk 4 8) = true /\
  emitted_views png_text_last [] =
    Some [ (0%nat, 0, 33); (1%nat, 0, 0); (0%nat, 33, 42);
           (0%nat, 65, 77) ].
Proof. vm_compute. auto. Qed.

(** The same on a run of two kept chunks: the second IDAT chunk occupies
    [50, 64) and the merged view ends at 50, the position of its header:
    merging sets the end of the previous view to the start of the chunk
    being merged, and the chunk itself is covered only by a later merge or
    by the assignment after the loop. *)
Example views_run_then_text_lose_second_IDAT :
  slice png_run_then_text 50 64 = idat2_chunk /\
  emitted_views png_run_then_text [] =
    Some [ (0%nat, 0, 33); (1%nat, 0, 0); (0%nat, 33, 50);
           (0%nat, 79, 91) ].
Proof. vm_compute. auto. Qed.

(** C10 at the same file.  The implementation with [skipReader] and
    [io.MultiReader] delivers the splice; the implementation with
    [skipReadSeeker] and [multiReadSeeker] delivers the stream with the
    truncated IDAT chunk.  Both succeed, and the streams differ. *)
Theorem implementations_differ_on_text_last :
  edited_by_skipReader png_text_last [] = Some (spliced png_text_last []) /\
  edited png_text_last [] =
    Some (header ++ ihdr_chunk ++ firstn 9 idat_chunk ++ iend_chunk) /\
  edited png_text_last [] <> edited_by_skipReader png_text_last [].
Proof.
  split; [vm_compute; reflexivity|].
  split; [vm_compute; reflexivity|].
  vm_compute. discriminate.
Qed.

(** Where no kept chunk is followed by a dropped one the two agree. *)
Example implementations_agree_on_text_first :
  edited png_text_first two_entries
    = edited_by_skipReader png_text_first two_entries.
Proof. vm_compute. reflexivity. Qed.

(* ------------------------------------------------------------------ *)
(** ** Big-endian length fields *)

Lemma byte_to_of_Z (z : Z) : byte_to_Z (byte_of_Z z) = z mod 256.
Proof.
  unfold byte_to_Z, byte_of_Z.
  assert (Hr : 0 <= z mod 256 < 256) by (apply Z.mod_pos_bound; lia).
  destruct (Byte.of_N (Z.to_N (z mod 256))) as [b|] eqn:E.
  - apply Byte.to_of_N in E. rewrite E. apply Z2N.id. lia.
  - apply Byte.of_N_None_iff in E. lia.
Qed.

Lemma testbit_byte_of_shiftr (n k m : Z) :
  0 <= k -> 0 <= m ->
  Z.testbit (Z.shiftl (byte_to_Z (byte_of_Z (Z.shiftr n k))) k) m
    = (k <=? m) && (m <? k + 8) && Z.testbit n m.
Proof.
  intros Hk Hm. rewrite byte_to_of_Z.
  change 256 with (2 ^ 8).
  rewrite Z.shiftl_spec by exact Hm.
  destruct (k <=? m) eqn:E1; cbn [andb].
  - apply Z.leb_le in E1.
    rewrite Z.testbit_mod_pow2 by lia.
    rewrite Z.shiftr_spec by lia.
    replace (m - k + k) with m by lia.
    f_equal. apply eq_true_iff_eq.
    rewrite !Z.ltb_lt. lia.
  - apply Z.leb_gt in E1. apply Z.testbit_neg_r. lia.
Qed.

Lemma Uint32_be32_app (n : Z) (rest : list byte) :
  Uint32 (be32 n ++ rest) = uint32 n.
Proof.
  unfold be32, Uint32, uint32. cbn [app].
  apply Z.bits_inj'. intros m Hm.
  rewrite !Z.lor_spec.
  rewrite <- (Z.shiftl_0_r (byte_to_Z (byte_of_Z n))).
  rewrite <- (Z.shiftr_0_r n) at 4.
  rewrite !testbit_byte_of_shiftr by lia.
  rewrite Z.testbit_mod_pow2 by lia.
  destruct (Z.testbit n m); rewrite ?andb_false_r, ?andb_true_r;
    [|reflexivity].
  apply eq_true_iff_eq.
  rewrite !orb_true_iff, !andb_true_iff, !Z.leb_le, !Z.ltb_lt. lia.
Qed.

(** X1 ([int32ToBytes], [binary.BigEndian]): the four bytes
    [int32ToBytes] stores for [n], read back as the scan reads a length
    field, give [n] as an unsigned 32 bit number, whatever follows them
    in the slice; so a length the encoder wrote is the length a later
    scan of the bytes finds. *)
Theorem int32ToBytes_round_trip (bb : list byte) (lo : nat) (n : Z) :
  length (be32 n) = 4%nat /\
  Uint32 (be32 n ++ bb) = uint32 n /\
  match int32ToBytes_at bb lo n with
  | Some bb' =>
      (lo + 4 <= length bb)%nat /\ length bb' = length bb /\
      firstn lo bb' = firstn lo bb /\
      skipn (lo + 4) bb' = skipn (lo + 4) bb /\
      Uint32 (skipn lo bb') = uint32 n
  | None => (length bb < lo + 4)%nat
  end.
Proof.
  split; [reflexivity|]. split; [apply Uint32_be32_app|].
  unfold int32ToBytes_at.
  destruct (lo + 4 <=? length bb)%nat eqn:E.
  - apply Nat.leb_le in E.
    assert (Hl : length (firstn lo bb) = lo)
      by (rewrite length_firstn; lia).
    split; [exact E|]. split.
    { rewrite !length_app, Hl, length_skipn. simpl. lia. }
    split.
    { rewrite firstn_app, Hl, Nat.sub_diag. cbn [firstn].
      rewrite app_nil_r, firstn_firstn. f_equal. lia. }
    split.
    { rewrite skipn_app, Hl.
      rewrite (skipn_all2 (firstn lo bb)) by lia.
      replace (lo + 4 - lo)%nat with 4%nat by lia.
      cbn [app]. rewrite skipn_app.
      change (length (be32 n)) with 4%nat.
      change (skipn 4 (be32 n)) with (@nil byte). reflexivity. }
    rewrite skipn_app, Hl, Nat.sub_diag.
    rewrite (skipn_all2 (firstn lo bb)) by lia.
    cbn [skipn app]. apply Uint32_be32_app.
  - apply Nat.leb_gt in E. exact E.
Qed.

(* ------------------------------------------------------------------ *)
(** ** What Assert answers on a plain source *)

Lemma nth_app_repeat_last (bs : list byte) (k : nat) :
  (0 < k)%nat ->
  nth (length bs + k - 1) (bs ++ repeat x00 k) x01 = x00.
Proof.
  intros Hk. rewrite app_nth2 by lia.
  replace (length bs + k - 1 - length bs)%nat with (k - 1)%nat by lia.
  apply nth_repeat_lt. lia.
Qed.

(** A buffer of sixteen bytes that a short read has not filled differs
    from the signature and the opening of IHDR: its last byte is zero. *)
Lemma fill_short_differs (bs : list byte) :
  (length bs < 16)%nat -> fill (make 16) bs <> header ++ ihdr.
Proof.
  intros Hl E. unfold fill in E. rewrite skipn_make in E. unfold make in E.
  pose proof (nth_app_repeat_last bs (16 - length bs) ltac:(lia)) as Hn.
  rewrite E in Hn. replace (length bs + (16 - length bs) - 1)%nat
    with 15%nat in Hn by lia.
  discriminate Hn.
Qed.

Lemma fill_full (p bs : list byte) :
  length bs = length p -> fill p bs = bs.
Proof.
  intros E. unfold fill. rewrite E, skipn_all. apply app_nil_r.
Qed.

Lemma slice_from_0 (l : list byte) (n : nat) : slice l 0 n = firstn n l.
Proof. unfold slice. rewrite Nat.sub_0_r. reflexivity. Qed.

Lemma bytes_Equal_false (a b : list byte) :
  bytes_Equal a b = false <-> a <> b.
Proof.
  unfold bytes_Equal. destruct (list_eq_dec _ a b); split; congruence.
Qed.

(** The checks of [Assert] on a plain source, from any position. *)
Lemma Assert_checks_plain (d : list byte) (p0 : Z) :
  len d < 2 ^ 63 ->
  let r := {| data := d; pos := p0; faults := [] |} in
  exists p1,
    Assert_checks r
      = (if list_eq_dec Byte.byte_eq_dec d [] then Some EOF
         else if list_eq_dec Byte.byte_eq_dec (firstn 16 d) (header ++ ihdr)
         then
           if list_eq_dec Byte.byte_eq_dec (skipn (length d - 12) d) iend
           then None
           else Some (ErrNew "pngutil: missing IEND chunk at end of file")
         else Some (ErrNew "pngutil: missing header or IHDR chunk"),
         {| data := d; pos := p1; faults := [] |}) /\ 0 <= p1 < 2 ^ 63.
Proof.
  intros Hlen r. unfold Assert_checks, r.
  rewrite Reader_Seek_start_plain by (simpl; auto; lia).
  rewrite Reader_Read_plain by (simpl; auto; lia).
  cbn [data pos faults Z.to_nat skipn].
  destruct (list_eq_dec Byte.byte_eq_dec d []) as [Hd|Hd].
  { subst d. exists 0. split; [reflexivity|lia]. }
  destruct d as [|b0 d0] eqn:Ed; [congruence|]. rewrite <- Ed in *.
  destruct (list_eq_dec Byte.byte_eq_dec (firstn 16 d) (header ++ ihdr))
    as [Hh|Hh].
  - assert (H16 : (16 <= length d)%nat).
    { assert (E : length (firstn 16 d) = 16%nat) by (rewrite Hh; reflexivity).
      rewrite length_firstn in E. lia. }
    rewrite Hh.
    change (negb (bytes_Equal (fill (make 16) (header ++ ihdr))
                    (header ++ ihdr))) with false.
    cbv iota.
    rewrite Reader_Seek_end_plain by (simpl; auto; unfold len in *; lia).
    rewrite Reader_Read_plain
      by (simpl; auto; unfold len in *; lia).
    cbn [data pos faults].
    replace (Z.to_nat (len d + -12)) with (length d - 12)%nat
      by (unfold len; lia).
    set (tail := skipn (length d - 12) d).
    assert (Ht : length tail = 12%nat).
    { unfold tail. rewrite length_skipn. lia. }
    assert (Hf : firstn 16 tail = tail) by (apply firstn_all2; lia).
    rewrite Hf.
    assert (Hs : slice (fill (fill (make 16) (header ++ ihdr)) tail) 0 12
                 = tail).
    { rewrite slice_from_0. unfold fill at 1.
      rewrite firstn_app, Ht, Nat.sub_diag, firstn_O, app_nil_r.
      apply firstn_all2. lia. }
    rewrite Hs.
    destruct tail as [|t0 tail0] eqn:Et; [discriminate Ht|].
    rewrite <- Et in *.
    exists (len d + -12 + len tail).
    split.
    + destruct (list_eq_dec Byte.byte_eq_dec tail iend) as [Hi|Hi].
      * rewrite (proj2 (bytes_Equal_true _ _) Hi). reflexivity.
      * rewrite (proj2 (bytes_Equal_false _ _) Hi). reflexivity.
    + unfold len in *. rewrite Ht. lia.
  - set (bs := firstn 16 d).
    assert (Hne : fill (make 16) bs <> header ++ ihdr).
    { destruct (Nat.lt_ge_cases (length bs) 16) as [Hl|Hl].
      - apply fill_short_differs. exact Hl.
      - rewrite fill_full; [exact Hh|].
        unfold bs in *. rewrite length_firstn in *.
        rewrite length_make. lia. }
    rewrite (proj2 (bytes_Equal_false _ _) Hne). cbn [negb].
    exists (0 + len bs). split; [reflexivity|].
    unfold len, bs. rewrite length_firstn. lia.
Qed.

(** X2 ([Assert]): on a plain source that stands at a position, [Assert]
    leaves the source exactly as it found it and answers by the bytes
    alone: [io.EOF] itself for an empty source, the header error when the
    first sixteen bytes are not the signature and the opening of IHDR
    (a source shorter than sixteen bytes included), the IEND error when
    the last twelve bytes are not the IEND chunk, and nil otherwise.  So
    it accepts a source if and only if both ends match. *)
Theorem Assert_verdict (r : Reader) :
  faults r = [] -> valid_pos (pos r) -> len (data r) < 2 ^ 63 ->
  snd (Assert r) = r /\
  (fst (Assert r) = None <->
     firstn 16 (data r) = header ++ ihdr /\
     skipn (length (data r) - 12) (data r) = iend) /\
  (data r = [] -> fst (Assert r) = Some EOF) /\
  (data r <> [] -> firstn 16 (data r) <> header ++ ihdr ->
   fst (Assert r) = Some (ErrNew "pngutil: missing header or IHDR chunk")) /\
  (firstn 16 (data r) = header ++ ihdr ->
   skipn (length (data r) - 12) (data r) <> iend ->
   fst (Assert r)
     = Some (ErrNew "pngutil: missing IEND chunk at end of file")).
Proof.
  intros Hf Hp Hlen. unfold valid_pos in Hp.
  destruct (Assert_checks_plain (data r) (pos r + 0) Hlen)
    as (p1 & Hchecks & Hp1).
  cbv zeta in Hchecks.
  assert (HA : Assert r
               = (fst (Assert_checks
                         {| data := data r; pos := pos r + 0;
                            faults := [] |}), r)).
  { unfold Assert.
    rewrite Reader_Seek_current_plain by (auto; lia).
    rewrite Hchecks. cbn [fst].
    rewrite Reader_Seek_start_plain by (simpl; auto; lia).
    cbn [data]. rewrite Z.add_0_r.
    destruct r; simpl in *; subst; reflexivity. }
  rewrite HA, Hchecks. cbn [fst snd].
  split; [reflexivity|].
  destruct (list_eq_dec Byte.byte_eq_dec (data r) []) as [Hd|Hd].
  { split; [|split; [|split]]; try congruence.
    - split; [discriminate|]. intros [Hh _]. rewrite Hd in Hh.
      discriminate Hh.
    - intros Hh. rewrite Hd in Hh. discriminate Hh. }
  destruct (list_eq_dec Byte.byte_eq_dec (firstn 16 (data r))
              (header ++ ihdr)) as [Hh|Hh];
    [destruct (list_eq_dec Byte.byte_eq_dec
                 (skipn (length (data r) - 12) (data r)) iend) as [Hi|Hi]|].
  - split; [tauto|]. split; [congruence|]. split; congruence.
  - split; [split; [discriminate|tauto]|].
    split; [congruence|]. split; [congruence|reflexivity].
  - split; [split; [discriminate|tauto]|].
    split; [congruence|]. split; [reflexivity|congruence].
Qed.

Lemma Assert_verdict_witness :
  fst (Assert reader_no_header)
    = Some (ErrNew "pngutil: missing header or IHDR chunk") /\
  snd (Assert reader_no_header) = reader_no_header.
Proof.
  destruct (Assert_verdict reader_no_header)
    as (Hsnd & _ & _ & Hhead & _).
  - reflexivity.
  - unfold valid_pos. simpl. lia.
  - vm_compute. reflexivity.
  - split; [apply Hhead; discriminate | exact Hsnd].
Defined.

(* ------------------------------------------------------------------ *)
(** ** More on the chain: reads, counts and the constructor *)

(** X3 ([multiReadSeeker.Read]): a read of [n] bytes from a chain whose
    active view is in step with its source delivers exactly the next
    [n] bytes of the concatenation, across the boundaries of views, and
    reports [io.EOF] in the same call if and only if fewer than [n]
    bytes were left; the chain is then ready for the following read,
    which continues where this one stopped. *)
Theorem multiReadSeeker_Read_continues (st : store)
    (mrs : multiReadSeeker.t) (n : nat) :
  ready st mrs ->
  exists mrs' st',
    multiReadSeeker.Read st mrs n =
      Some (firstn n (remaining st mrs),
            (if (length (remaining st mrs) <? n)%nat
             then Some EOF else None),
            mrs', st') /\
    ready st' mrs' /\
    remaining st' mrs' = skipn n (remaining st mrs) /\
    same_chain st mrs st' mrs'.
Proof. exact (Read_spec st mrs n). Qed.

Lemma multiReadSeeker_Read_continues_witness :
  exists mrs' st',
    multiReadSeeker.Read test_store test_chain 10 =
      Some (firstn 10 (remaining test_store test_chain),
            (if (length (remaining test_store test_chain) <? 10)%nat
             then Some EOF else None),
            mrs', st') /\
    ready st' mrs' /\
    remaining st' mrs' = skipn 10 (remaining test_store test_chain) /\
    same_chain test_store test_chain st' mrs'.
Proof.
  apply (multiReadSeeker_Read_continues test_store test_chain 10).
  unfold ready, test_chain, test_store, test_views, view_ok, valid_pos,
    in_sync. simpl.
  split; [repeat constructor|].
  split; [repeat constructor; simpl; lia|].
  split; [lia|]. split; [lia | reflexivity].
Defined.

(** *** The count and the overall offset *)

Lemma view_Read_length (st : store) (srs : skipReadSeeker.t) (k : nat) :
  (length (fst (fst (fst (skipReadSeeker.Read st srs k)))) <= k)%nat.
Proof.
  unfold skipReadSeeker.Read.
  destruct (skipReadSeeker.offset srs >=? skipReadSeeker.end_ srs);
    [simpl; lia|].
  set (toRead := skipReadSeeker.end_ srs - skipReadSeeker.offset srs).
  set (m := Z.to_nat (if toRead >? Z.of_nat k then Z.of_nat k else toRead)).
  pose proof (Reader_Read_length (get st (skipReadSeeker.rs srs)) m) as H.
  destruct (Reader_Read (get st (skipReadSeeker.rs srs)) m)
    as [[bs err] r]. cbn [fst].
  assert (m <= k)%nat; [|lia].
  unfold m. destruct (toRead >? Z.of_nat k) eqn:E; [lia|].
  rewrite Z.gtb_ltb in E. apply Z.ltb_ge in E. lia.
Qed.

Lemma Read_loop_counts (fuel : nat) :
  forall (st : store) (mrs : multiReadSeeker.t) (n : nat) (acc : list byte)
         bs err mrs' st',
    (length acc <= n)%nat ->
    multiReadSeeker.Read_loop fuel st mrs n acc = Some (bs, err, mrs', st') ->
    (length bs <= n)%nat /\
    multiReadSeeker.overall mrs' + len acc
      = multiReadSeeker.overall mrs + len bs /\
    multiReadSeeker.sizes mrs' = multiReadSeeker.sizes mrs /\
    multiReadSeeker.size mrs' = multiReadSeeker.size mrs /\
    length (multiReadSeeker.readSeekers mrs')
      = length (multiReadSeeker.readSeekers mrs).
Proof.
  induction fuel as [|fuel IH];
    intros st mrs n acc bs err mrs' st' Hacc H; [discriminate|].
  cbn [multiReadSeeker.Read_loop] in H.
  destruct (length acc =? n)%nat eqn:En.
  { injection H as <- <- <- <-. repeat split; auto. }
  apply Nat.eqb_neq in En.
  pose proof (view_Read_length st (multiReadSeeker.active mrs)
                (n - length acc)) as Hle.
  destruct (skipReadSeeker.Read st (multiReadSeeker.active mrs)
              (n - length acc)) as [[[bs1 err1] srs1] st1].
  cbn [fst] in Hle.
  assert (Hacc1 : (length (acc ++ bs1) <= n)%nat)
    by (rewrite length_app; lia).
  assert (Hlen1 : len (acc ++ bs1) = len acc + len bs1) by apply len_app.
  destruct err1 as [e|].
  - destruct (is_EOF e).
    + cbn [multiReadSeeker.rsIdx multiReadSeeker.set_overall
             multiReadSeeker.set_active multiReadSeeker.readSeekers] in H.
      destruct (_ =? _)%nat in H.
      * injection H as <- <- <- <-. cbn.
        rewrite length_set_nth. repeat split; auto; lia.
      * match type of H with
        | context [skipReadSeeker.Seek ?a ?b ?c ?d] =>
            destruct (skipReadSeeker.Seek a b c d) as [[[o2 e2] srs2] st2]
        end.
        apply IH in H; [|exact Hacc1].
        cbn in H. rewrite !length_set_nth in H.
        destruct H as (H1 & H2 & H3 & H4 & H5).
        repeat split; auto; lia.
    + injection H as <- <- <- <-. cbn.
      rewrite length_set_nth. repeat split; auto; lia.
  - apply IH in H; [|exact Hacc1].
    cbn in H. rewrite !length_set_nth in H.
    destruct H as (H1 & H2 & H3 & H4 & H5).
    repeat split; auto; lia.
Qed.

(** X4 ([multiReadSeeker.Read]): whatever the sources do - short reads,
    failures, positions moved by others - a read never returns more
    bytes than the buffer holds, and the overall offset advances by
    exactly the number of bytes returned; the cached sizes and the
    number of views are not touched. *)
Theorem multiReadSeeker_Read_counts (st st' : store)
    (mrs mrs' : multiReadSeeker.t) (n : nat) (bs : list byte)
    (err : option error) :
  multiReadSeeker.Read st mrs n = Some (bs, err, mrs', st') ->
  (length bs <= n)%nat /\
  multiReadSeeker.overall mrs' = multiReadSeeker.overall mrs + len bs /\
  multiReadSeeker.sizes mrs' = multiReadSeeker.sizes mrs /\
  multiReadSeeker.Size mrs' = multiReadSeeker.Size mrs /\
  length (multiReadSeeker.readSeekers mrs')
    = length (multiReadSeeker.readSeekers mrs).
Proof.
  intros H. unfold multiReadSeeker.Read in H.
  apply Read_loop_counts in H; [|simpl; lia].
  destruct H as (H1 & H2 & H3 & H4 & H5).
  unfold multiReadSeeker.Size. change (len []) with 0 in H2.
  repeat split; auto; lia.
Qed.

Lemma multiReadSeeker_Read_counts_witness :
  match multiReadSeeker.Read test_store test_chain 10 with
  | Some (bs, _, mrs', _) =>
      (length bs <= 10)%nat /\
      multiReadSeeker.overall mrs'
        = multiReadSeeker.overall test_chain + len bs
  | None => False
  end.
Proof.
  destruct (multiReadSeeker.Read test_store test_chain 10)
    as [[[[bs err] mrs'] st']|] eqn:E; [|vm_compute in E; discriminate E].
  destruct (multiReadSeeker_Read_counts _ _ _ _ _ _ _ E) as (H1 & H2 & _).
  split; assumption.
Defined.

(** *** The constructor *)

Lemma view_sizes_nonneg (st : store) (vs : list skipReadSeeker.t) :
  Forall (view_within st) vs -> Forall (fun s => 0 <= s) (map view_size vs).
Proof.
  induction 1 as [|v vs Hv _ IH]; simpl; constructor; auto.
  destruct Hv as (_ & H & _). unfold view_size. lia.
Qed.

(** X5 ([newMultiReadSeeker], [multiReadSeeker.Size], [Seek]): over
    views that lie within plain sources the constructor fails with the
    out-of-bounds error exactly when there is no byte to deliver - no
    view at all, or views that are all empty - since its opening seek to
    offset 0 finds no view that holds it.  Otherwise it returns a chain
    over the same ranges whose [Size] is the sum of their lengths and
    which, drained, delivers the bytes of the views in order. *)
Theorem newMultiReadSeeker_chain (st : store)
    (views : list skipReadSeeker.t) :
  no_faults st -> Forall (view_within st) views ->
  let total := total_size (map view_size views) in
  0 <= total /\
  (total = 0 ->
   newMultiReadSeeker st views = (inr multiReadSeeker.errBounds, st)) /\
  (0 < total ->
   exists mrs st',
     newMultiReadSeeker st views = (inl mrs, st') /\
     map view_key (multiReadSeeker.readSeekers mrs) = map view_key views /\
     map data st' = map data st /\
     multiReadSeeker.Size mrs = total /\
     multiReadSeeker.Size mrs = len (concat (map (view_bytes st) views)) /\
     forall bufsz, (0 < bufsz)%nat ->
       exists mrs2 st2,
         drain st' mrs bufsz
           = Some (concat (map (view_bytes st) views), None, mrs2, st2)).
Proof.
  intros Hnf Hw total.
  pose proof (total_size_nonneg st views Hw) as Hnn. fold total in Hnn.
  split; [exact Hnn|].
  unfold newMultiReadSeeker.
  set (mrs0 := multiReadSeeker.mk 0 0%nat views _ _).
  unfold multiReadSeeker.Seek.
  change (multiReadSeeker.resolve mrs0 0 SeekStart) with (Some 0).
  change (multiReadSeeker.sizes mrs0) with (map view_size views).
  split.
  - intros Hz.
    rewrite Seek_scan_outside;
      [reflexivity | apply (view_sizes_nonneg st); exact Hw |].
    right. fold total. lia.
  - intros Hpos.
    destruct (Seek_scan_inside st mrs0 0 Hnf Hw views 0%nat 0 eq_refl)
      as (mrs1 & st1 & Hscan & Hready & Hrem & Hsame); [fold total; lia|].
    rewrite Hscan. exists mrs1, st1.
    destruct Hsame as (Hdata & Hkeys & Hsizes & Hsize).
    change (Z.to_nat (0 - 0)) with 0%nat in Hrem. cbn [skipn] in Hrem.
    assert (Hsz : multiReadSeeker.size mrs1 = total).
    { rewrite Hsize. unfold mrs0. cbn [multiReadSeeker.size].
      rewrite fold_left_total. apply Z.add_0_l. }
    assert (Hlen : len (concat (map (view_bytes st) views)) = total)
      by (apply len_concat_view_bytes; exact Hw).
    split; [reflexivity|]. split; [exact Hkeys|]. split; [exact Hdata|].
    split; [exact Hsz|]. split; [unfold multiReadSeeker.Size; lia|].
    intros bufsz Hbuf.
    destruct (drain_loop_spec
                (S (S (Z.to_nat (multiReadSeeker.size mrs1))))
                st1 mrs1 bufsz [] Hready Hbuf)
      as (mrs2 & st2 & Hdrain & _).
    { rewrite Hrem, Hsz. unfold len in Hlen. lia. }
    exists mrs2, st2. unfold drain. rewrite Hdrain, Hrem. reflexivity.
Qed.

Lemma newMultiReadSeeker_chain_witness :
  exists mrs st',
    newMultiReadSeeker test_store test_views = (inl mrs, st') /\
    multiReadSeeker.Size mrs = 16 /\
    exists mrs2 st2,
      drain st' mrs 64 = Some (src8 ++ src8b, None, mrs2, st2).
Proof.
  destruct (newMultiReadSeeker_chain test_store test_views)
    as (_ & _ & H).
  - repeat constructor.
  - repeat constructor; simpl; unfold len; simpl; lia.
  - destruct H as (mrs & st' & Hnew & _ & _ & Hsize & _ & Hdrain);
      [reflexivity|].
    exists mrs, st'. split; [exact Hnew|]. split; [exact Hsize|].
    apply (Hdrain 64%nat). lia.
Defined.

(** X6 ([multiReadSeeker.Seek], [multiReadSeeker.Read]): random access.
    On a chain of views within plain sources, a seek whose resolved
    offset [o] lies in [0, Size) followed by a read of [n] bytes returns
    the bytes [o .. o+n) of the concatenation of the views, whichever
    views they come from, with [io.EOF] if and only if fewer than [n]
    bytes follow [o]. *)
Theorem multiReadSeeker_Seek_then_Read (st : store)
    (mrs : multiReadSeeker.t) (off whence o : Z) (n : nat) :
  chain_wf st mrs ->
  multiReadSeeker.resolve mrs off whence = Some o ->
  0 <= o < multiReadSeeker.Size mrs ->
  exists mrs1 st1 mrs2 st2,
    multiReadSeeker.Seek st mrs off whence = (inl o, mrs1, st1) /\
    multiReadSeeker.Read st1 mrs1 n
      = Some (firstn n (skipn (Z.to_nat o) (chain_bytes st mrs)),
              (if multiReadSeeker.Size mrs - o <? Z.of_nat n
               then Some EOF else None),
              mrs2, st2).
Proof.
  intros Hwf Hres Ho. unfold multiReadSeeker.Size in *.
  destruct (chain_wf_size st mrs Hwf) as (Hsizes & Hsize & Hlen).
  destruct Hwf as (Hnf & Hw & _ & _).
  unfold multiReadSeeker.Seek. rewrite Hres, Hsizes.
  destruct (Seek_scan_inside st mrs o Hnf Hw
              (multiReadSeeker.readSeekers mrs) 0%nat 0 eq_refl)
    as (mrs1 & st1 & Hscan & Hready & Hrem & Hsame); [lia|].
  rewrite Z.sub_0_r in Hrem. fold (chain_bytes st mrs) in Hrem.
  destruct (Read_spec st1 mrs1 n Hready)
    as (mrs2 & st2 & Hread & _).
  exists mrs1, st1, mrs2, st2. split; [exact Hscan|].
  rewrite Hread, Hrem. repeat f_equal.
  rewrite length_skipn. unfold len in Hlen.
  destruct (multiReadSeeker.size mrs - o <? Z.of_nat n) eqn:E.
  - apply Z.ltb_lt in E.
    rewrite (proj2 (Nat.ltb_lt _ _)) by lia. reflexivity.
  - apply Z.ltb_ge in E.
    rewrite (proj2 (Nat.ltb_ge _ _)) by lia. reflexivity.
Qed.

Lemma multiReadSeeker_Seek_then_Read_witness :
  exists mrs1 st1 mrs2 st2,
    multiReadSeeker.Seek test_store test_chain (-10) SeekEnd
      = (inl 6, mrs1, st1) /\
    multiReadSeeker.Read st1 mrs1 4
      = Some ([x06; x07; x08; x09], None, mrs2, st2).
Proof.
  apply (multiReadSeeker_Seek_then_Read test_store test_chain
           (-10) SeekEnd 6 4 test_chain_wf eq_refl).
  unfold multiReadSeeker.Size. simpl. lia.
Defined.

(* ------------------------------------------------------------------ *)
(** ** skipReader of pngutil.go: the first read *)

Lemma upd_upd_same (st : store) (h : handle) (r1 r2 : Reader) :
  upd (upd st h r1) h r2 = upd st h r2.
Proof.
  revert h. induction st as [|x st IH]; intros [|h]; simpl; auto.
  rewrite IH. reflexivity.
Qed.

(** X7 ([skipReader.Read] of pngutil.go): the first read of a view
    seeks its source to the view's offset, wherever the source stood, and
    so delivers the source bytes from that offset, at most up to the
    limit and at most the buffer; it reports [io.EOF] when the offset is
    at or past the end of the source, and leaves the source right after
    the bytes delivered.  A view whose limit lies below its offset
    panics on this first read (the slice [p[0:max]] has a negative
    bound), although the same view once begun would answer [io.EOF]. *)
Theorem skipReader_first_Read (st : store)
    (sr : SkipReaderVersion.skipReader) (n : nat) :
  SkipReaderVersion.begun sr = false ->
  (SkipReaderVersion.r sr < length st)%nat ->
  faults (get st (SkipReaderVersion.r sr)) = [] ->
  0 <= SkipReaderVersion.offset sr ->
  let d := data (get st (SkipReaderVersion.r sr)) in
  let o := SkipReaderVersion.offset sr in
  let max := SkipReaderVersion.limit sr - o in
  (max < 0 -> SkipReaderVersion.skipReader_Read st sr n = Panic) /\
  (0 <= max ->
   let bs := bytes_at d o (Nat.min n (Z.to_nat max)) in
   SkipReaderVersion.skipReader_Read st sr n =
     Ok (bs,
         (if o >=? len d then Some EOF else None),
         {| SkipReaderVersion.r := SkipReaderVersion.r sr;
            SkipReaderVersion.offset := o + len bs;
            SkipReaderVersion.limit := SkipReaderVersion.limit sr;
            SkipReaderVersion.begun := true |},
         upd st (SkipReaderVersion.r sr)
           {| data := d; pos := o + len bs; faults := [] |})).
Proof.
  intros Hb Hr Hf Ho d o max.
  unfold SkipReaderVersion.skipReader_Read. rewrite Hb. cbn [negb].
  cbn [SkipReaderVersion.r SkipReaderVersion.offset].
  rewrite Reader_Seek_start_plain by assumption.
  unfold SkipReaderVersion.Read_tail.
  cbn [SkipReaderVersion.r SkipReaderVersion.offset SkipReaderVersion.limit
       SkipReaderVersion.begun].
  fold d. fold o. fold max.
  rewrite get_upd_same by exact Hr.
  split.
  - intros Hneg.
    assert (E1 : (Z.of_nat n >? max) = true)
      by (rewrite Z.gtb_ltb; apply Z.ltb_lt; lia).
    assert (E2 : (max <? 0) = true) by (apply Z.ltb_lt; lia).
    rewrite E1, E2. reflexivity.
  - intros Hmax.
    set (bs := bytes_at d o (Nat.min n (Z.to_nat max))).
    assert (E2 : (max <? 0) = false) by (apply Z.ltb_ge; lia).
    rewrite E2, andb_false_r.
    assert (Hn : (if Z.of_nat n >? max then Z.to_nat max else n)
                 = Nat.min n (Z.to_nat max)).
    { destruct (Z.of_nat n >? max) eqn:E; rewrite Z.gtb_ltb in E.
      - apply Z.ltb_lt in E. lia.
      - apply Z.ltb_ge in E. lia. }
    rewrite Hn.
    set (r1 := {| data := d; pos := o; faults := [] |}).
    unfold Reader_Read, next_fault. cbn [faults r1 data pos].
    change (faults r1) with (@nil bool).
    cbn [data pos faults r1].
    destruct (o >=? len d) eqn:E.
    + rewrite Z.geb_leb in E. apply Z.leb_le in E.
      assert (Hbs : bs = []).
      { unfold bs, bytes_at. rewrite skipn_all2; [apply firstn_nil|].
        unfold len in E. lia. }
      rewrite Hbs. change (len []) with 0. rewrite Z.add_0_r.
      rewrite upd_upd_same. reflexivity.
    + fold (bytes_at d o (Nat.min n (Z.to_nat max))). fold bs.
      rewrite upd_upd_same. reflexivity.
Qed.

Lemma skipReader_first_Read_witness :
  SkipReaderVersion.skipReader_Read
    [{| data := src8; pos := 7; faults := [] |}]
    (SkipReaderVersion.mkSkipReader 0%nat 2 6 false) 16
  = Ok ([x02; x03; x04; x05], None,
        SkipReaderVersion.mkSkipReader 0%nat 6 6 true,
        [{| data := src8; pos := 6; faults := [] |}]).
Proof.
  apply (proj2 (skipReader_first_Read
                  [{| data := src8; pos := 7; faults := [] |}]
                  (SkipReaderVersion.mkSkipReader 0%nat 2 6 false) 16
                  eq_refl ltac:(simpl; lia) eq_refl ltac:(simpl; lia))).
  simpl. lia.
Defined.

(* ------------------------------------------------------------------ *)
(** ** The scan ends on every source *)

Lemma Reader_Read_none (r r' : Reader) (n : nat) (bs : list byte) :
  Reader_Read r n = (bs, None, r') ->
  pos r < len (data r) /\ data r' = data r /\ pos r' = pos r + len bs /\
  faults r' = tl (faults r).
Proof.
  unfold Reader_Read, next_fault. intros H.
  destruct (faults r) as [|[|] fs] eqn:Ef; try discriminate H;
    cbn [data pos faults] in H;
    destruct (pos r >=? len (data r)) eqn:E; try discriminate H;
    rewrite Z.geb_leb in E; apply Z.leb_gt in E;
    injection H as <- <-; cbn [data pos faults tl]; auto.
Qed.

Lemma Reader_Seek_current_abs (r r' : Reader) (off abs : Z) :
  Reader_Seek r off SeekCurrent = (inl abs, r') ->
  abs = wrap64 (pos r + off) /\ 0 <= abs /\ pos r' = abs /\
  data r' = data r.
Proof.
  unfold Reader_Seek, next_fault. intros H.
  destruct (faults r) as [|[|] fs]; try discriminate H;
    cbn [data pos faults] in H;
    change (SeekCurrent =? SeekStart) with false in H;
    change (SeekCurrent =? SeekCurrent) with true in H; cbv iota in H;
    destruct (wrap64 (pos r + off) <? 0) eqn:E; try discriminate H;
    apply Z.ltb_ge in E; injection H as <- <-; cbn [data pos]; auto.
Qed.

Lemma get_outside (st : store) (h : handle) :
  (length st <= h)%nat -> get st h = NewReader [].
Proof. intros H. unfold get. apply nth_overflow. exact H. Qed.

Lemma get_upd (st : store) (h : handle) (r : Reader) :
  get (upd st h r) h = if (h <? length st)%nat then r else NewReader [].
Proof.
  destruct (h <? length st)%nat eqn:E.
  - apply Nat.ltb_lt in E. apply get_upd_same. exact E.
  - apply Nat.ltb_ge in E. apply get_outside. rewrite length_upd. exact E.
Qed.

(** Each turn that does not return moves a source that stands inside
    its data forward; a length field that would carry the position past
    the largest offset makes the seek fail. *)
Lemma scan_total (f : handle) (fuel : nat) :
  forall (st : store) (p : list byte) (readers : list skipReadSeeker.t)
         (at_ : Z) (kept : bool),
    len (data (get st f)) < 2 ^ 63 -> 0 <= pos (get st f) ->
    (Z.to_nat (len (data (get st f)) - pos (get st f)) < fuel)%nat ->
    exists res, scan fuel st f p readers at_ kept = Some res.
Proof.
  induction fuel as [|fuel IH]; intros st p readers at_ kept Hlen Hpos Hfuel;
    [lia|].
  cbn [scan].
  destruct (Reader_Read (get st f) (length p)) as [[bs err] r1] eqn:ER.
  destruct err as [e|].
  { destruct (is_EOF e); eexists; reflexivity. }
  destruct (negb (length bs =? 8)%nat) eqn:E8; [eexists; reflexivity|].
  apply negb_false_iff, Nat.eqb_eq in E8.
  apply Reader_Read_none in ER. destruct ER as (Hin & Hd1 & Hp1 & _).
  assert (Hf : (f < length st)%nat).
  { destruct (Nat.lt_ge_cases f (length st)) as [H|H]; [exact H|].
    rewrite (get_outside st f H) in Hin. simpl in Hin.
    unfold len in Hin. simpl in Hin. lia. }
  match goal with
  | |- context [let '(a, b) := ?c in _] => destruct c as [readers2 kept2]
  end.
  rewrite get_upd_same by exact Hf.
  pose proof (Uint32_range (slice (fill p bs) 0 4)) as HU.
  destruct (Reader_Seek r1 (Uint32 (slice (fill p bs) 0 4) + 4) SeekCurrent)
    as [[abs|e] r2] eqn:ES; [|eexists; reflexivity].
  apply Reader_Seek_current_abs in ES.
  destruct ES as (Habs & Habs0 & Hp2 & Hd2).
  assert (Hl8 : len bs = 8) by (unfold len; rewrite E8; reflexivity).
  assert (Hfwd : abs = pos r1 + (Uint32 (slice (fill p bs) 0 4) + 4)).
  { destruct (Z_lt_ge_dec
                (pos r1 + (Uint32 (slice (fill p bs) 0 4) + 4)) (2 ^ 63))
      as [Hs|Hs].
    - rewrite Habs. apply wrap64_small. lia.
    - exfalso.
      assert (wrap64 (pos r1 + (Uint32 (slice (fill p bs) 0 4) + 4)) < 0)
        by (apply wrap64_high; lia).
      lia. }
  apply IH.
  - rewrite get_upd_same by (rewrite length_upd; exact Hf).
    rewrite Hd2, Hd1. exact Hlen.
  - rewrite get_upd_same by (rewrite length_upd; exact Hf). lia.
  - rewrite get_upd_same by (rewrite length_upd; exact Hf).
    rewrite Hd2, Hd1, Hp2. lia.
Qed.

Lemma Assert_data (r : Reader) : data (snd (Assert r)) = data r.
Proof.
  unfold Assert.
  pose proof (Reader_Seek_data r 0 SeekCurrent) as H0.
  destruct (Reader_Seek r 0 SeekCurrent) as [[offset|e] r0];
    cbn [snd] in *; [|exact H0].
  pose proof (Assert_checks_data r0) as H1.
  destruct (Assert_checks r0) as [err r1]. cbn [snd] in H1.
  pose proof (Reader_Seek_data r1 offset SeekStart) as H2.
  destruct (Reader_Seek r1 offset SeekStart) as [[o|sErr] r2];
    cbn [snd] in *; congruence.
Qed.

(** X8 ([ReplaceMeta], its scan loop): [ReplaceMeta] returns on every
    source and every mapping - well-formed or not, plain or failing: the
    [for] loop over the chunks ends within one turn per byte of the
    source, because every turn that does not return moves the source at
    least twelve bytes forward, and a length field that would carry it
    beyond the largest offset makes the seek fail. *)
Theorem ReplaceMeta_returns (st : store) (f : handle) (metadata : Metadata) :
  (f < length st)%nat -> len (data (get st f)) < 2 ^ 63 ->
  exists res, ReplaceMeta st f metadata = Some res.
Proof.
  intros Hf Hlen. unfold ReplaceMeta.
  pose proof (Assert_data (get st f)) as HdA.
  destruct (Assert (get st f)) as [err rA]. cbn [snd] in HdA.
  destruct err as [e|]; [eexists; reflexivity|].
  destruct (encode_metadata metadata) as [[bb i]|]; [|eexists; reflexivity].
  destruct (slice_checked bb i (length bb)) as [p|]; [|eexists; reflexivity].
  rewrite get_upd_same by exact Hf.
  destruct (Reader_Seek rA ihdrEnd SeekStart) as [[abs|e] rS] eqn:ES;
    [|eexists; reflexivity].
  apply Reader_Seek_ok in ES. destruct ES as (HpS & Habs & HdS).
  unfold alloc.
  set (st3 := upd (upd st f rA) f rS ++ _).
  assert (Hg : get st3 f = rS).
  { unfold st3. rewrite get_alloc_old by (rewrite !length_upd; exact Hf).
    apply get_upd_same. rewrite length_upd. exact Hf. }
  match goal with
  | |- context [scan ?fu ?s ?h ?q ?rs ?a ?k] =>
      destruct (scan_total h fu s q rs a k) as (res & Hres)
  end.
  - rewrite Hg, HdS, HdA. exact Hlen.
  - rewrite Hg. lia.
  - unfold scan_fuel. rewrite Hg. unfold len. lia.
  - rewrite Hres. destruct res as [[[readers at_]|e] st4];
      [|eexists; reflexivity].
    destruct (newMultiReadSeeker st4 _) as [[mrs|e] st5];
      eexists; reflexivity.
Qed.

Lemma ReplaceMeta_returns_witness :
  exists res,
    ReplaceMeta [NewReader (header ++ ihdr ++ [xff; xff; xff; xff] ++ iend)]
      0%nat two_entries = Some res.
Proof.
  apply ReplaceMeta_returns.
  - simpl. lia.
  - vm_compute. reflexivity.
Defined.

(* ------------------------------------------------------------------ *)
(** ** The scan, turn by turn, on whole chunks *)

Lemma retained_to_IEND_framed (d : list byte) (i : nat) :
  retained_to_IEND d i -> chunks_to_IEND d i.
Proof.
  induction 1 as [i H | i H1 H2 H3 IH];
    [apply at_IEND; exact H | apply at_chunk; [exact H1 | exact IH]].
Qed.

Lemma dropped_then_retained_framed (d : list byte) (a i : nat) :
  dropped_then_retained d a i -> chunks_to_IEND d i.
Proof.
  induction 1 as [H | i H1 H2 H3 IH];
    [apply retained_to_IEND_framed; exact H
    | apply at_chunk; [exact H1 | exact IH]].
Qed.

Lemma dropped_then_retained_le (d : list byte) (a i : nat) :
  dropped_then_retained d a i -> (i <= a)%nat /\ (a + 12 <= length d)%nat.
Proof.
  induction 1 as [H | i H1 H2 H3 [IH1 IH2]].
  - split; [lia|].
    apply (chunks_to_IEND_end d a), retained_to_IEND_framed, H.
  - unfold next_chunk in IH1. split; lia.
Qed.

Lemma set_end_last (R : list skipReadSeeker.t) (v : skipReadSeeker.t)
    (e : Z) :
  set_nth (R ++ [v]) (last_index (R ++ [v]))
    (skipReadSeeker.set_end
       (nth (last_index (R ++ [v])) (R ++ [v]) multiReadSeeker.nil_srs) e)
  = R ++ [skipReadSeeker.set_end v e].
Proof.
  unfold last_index. rewrite length_app. cbn [length].
  replace (length R + 1 - 1)%nat with (length R) by lia.
  rewrite nth_middle.
  induction R as [|x R IH]; simpl; [reflexivity|].
  rewrite IH. reflexivity.
Qed.

Section ScanTurn.

Variable f : handle.
Variable d : list byte.
Hypothesis Hlen : len d < 2 ^ 63.

(** One turn at the header of a whole chunk: the views change as the
    type of the chunk and [keptPrevChunk] say, and the file stands at
    the next header. *)
Lemma scan_turn (fuel : nat) (st : store) (p : list byte)
    (readers : list skipReadSeeker.t) (kept : bool) (i : nat) :
  no_faults st -> (f < length st)%nat -> data (get st f) = d ->
  pos (get st f) = Z.of_nat i -> length p = 8%nat ->
  (i + 8 <= length d)%nat -> (next_chunk d i <= length d)%nat ->
  scan (S fuel) st f p readers (Z.of_nat i) kept
    = scan fuel (file_at st f d (next_chunk d i)) f (slice d i (i + 8))
        (if retain (chunk_type d i) then
           if kept then
             set_nth readers (last_index readers)
               (skipReadSeeker.set_end
                  (nth (last_index readers) readers multiReadSeeker.nil_srs)
                  (Z.of_nat i))
           else
             readers ++ [chunk_view f (Z.of_nat i)
                           (Uint32 (slice d i (i + 4)))]
         else readers)
        (Z.of_nat (next_chunk d i)) (retain (chunk_type d i)).
Proof.
  intros Hnf Hf Hd Hp Hp8 Hi Hnext.
  pose proof (Uint32_range (slice d i (i + 4))) as HU.
  unfold next_chunk in *. unfold len in Hlen.
  set (bs := slice d i (i + 8)).
  assert (Hbs : firstn 8 (skipn i d) = bs).
  { unfold bs, slice. f_equal. lia. }
  assert (Hbs8 : length bs = 8%nat).
  { unfold bs. rewrite length_slice_within; lia. }
  assert (Hfill : fill p bs = bs).
  { unfold fill. rewrite Hbs8, <- Hp8, skipn_all. apply app_nil_r. }
  assert (H04 : slice bs 0 4 = slice d i (i + 4)).
  { unfold bs, slice. cbn [skipn].
    rewrite firstn_firstn. f_equal; lia. }
  assert (H48 : slice bs 4 8 = chunk_type d i).
  { unfold chunk_type. rewrite (slice_skip d i (i + 8) 4). fold bs.
    unfold slice at 1. apply firstn_all2.
    rewrite length_skipn, Hbs8. simpl. lia. }
  cbn [scan].
  rewrite Reader_Read_plain
    by (auto using no_faults_get; rewrite ?Hp; lia).
  rewrite Hp, Hd, Nat2Z.id, Hp8, Hbs.
  assert (Hne : skipn i d <> []).
  { intros E. rewrite E in Hbs. rewrite firstn_nil in Hbs.
    rewrite <- Hbs in Hbs8. discriminate. }
  destruct (skipn i d) as [|b0 rest] eqn:Hsk; [congruence|].
  rewrite Hfill, Hbs8. cbn [Nat.eqb negb].
  rewrite H04, H48.
  set (length_ := Uint32 (slice d i (i + 4)) + 4) in *.
  set (r1 := {| data := d; pos := Z.of_nat i + len bs; faults := [] |}).
  rewrite get_upd_same by exact Hf.
  rewrite Reader_Seek_current_plain
    by (simpl; unfold len; rewrite ?Hbs8; auto; unfold length_; lia).
  change (pos r1) with (Z.of_nat i + len bs).
  change (data r1) with d.
  assert (Hnextz : Z.of_nat i + len bs + length_
                   = Z.of_nat (i + 12 + Z.to_nat (Uint32 (slice d i (i + 4))))).
  { unfold len, length_. rewrite Hbs8. lia. }
  rewrite Hnextz, upd_upd_same. unfold file_at, chunk_view. fold length_.
  destruct (retain (chunk_type d i)); cbn [negb];
    [destruct kept|]; reflexivity.
Qed.

Lemma file_at_facts (st : store) (i : nat) :
  no_faults st -> (f < length st)%nat -> data (get st f) = d ->
  no_faults (file_at st f d i) /\ (f < length (file_at st f d i))%nat /\
  data (get (file_at st f d i) f) = d /\
  pos (get (file_at st f d i) f) = Z.of_nat i /\
  map data (file_at st f d i) = map data st /\
  length (file_at st f d i) = length st.
Proof.
  intros Hnf Hf Hd. unfold file_at.
  rewrite length_upd, get_upd_same by exact Hf.
  repeat split; auto.
  - apply no_faults_upd; auto.
  - apply map_data_upd. simpl. symmetry. exact Hd.
Qed.

(** At the end of the file the scan returns what it has. *)
Lemma scan_end (fuel : nat) (st : store) (p : list byte)
    (readers : list skipReadSeeker.t) (kept : bool) (at_ : Z) :
  no_faults st -> data (get st f) = d -> pos (get st f) = len d ->
  scan (S fuel) st f p readers at_ kept = Some (inl (readers, at_), st).
Proof.
  intros Hnf Hd Hp. cbn [scan].
  unfold Reader_Read, next_fault. rewrite (no_faults_get st f Hnf).
  rewrite Hp, Hd.
  destruct (len d >=? len d) eqn:E;
    [|rewrite Z.geb_leb in E; apply Z.leb_gt in E; lia].
  cbn [is_EOF]. rewrite upd_get. reflexivity.
Qed.

(** After the first chunk of a run of retained chunks, up to the end:
    only the end of the last view moves. *)
Lemma scan_retained_run (i : nat) :
  retained_to_IEND d i ->
  forall (fuel : nat) (st : store) (p : list byte)
         (R : list skipReadSeeker.t) (v : skipReadSeeker.t),
    no_faults st -> (f < length st)%nat -> data (get st f) = d ->
    pos (get st f) = Z.of_nat i -> length p = 8%nat ->
    (length d - i + 2 <= fuel)%nat ->
    exists e,
      scan fuel st f p (R ++ [v]) (Z.of_nat i) true
        = Some (inl (R ++ [skipReadSeeker.set_end v e], len d),
                file_at st f d (length d)).
Proof.
  induction 1 as [i Hend | i Hhdr Hret Hnext IH];
    intros fuel st p R v Hnf Hf Hd Hp Hp8 Hfuel.
  - assert (Hi : (i + 12 = length d)%nat).
    { assert (E : length (skipn i d) = 12%nat) by (rewrite Hend; reflexivity).
      rewrite length_skipn in E. lia. }
    assert (H4 : slice d i (i + 4) = [x00; x00; x00; x00]).
    { unfold slice. rewrite Hend.
      replace (i + 4 - i)%nat with 4%nat by lia. reflexivity. }
    assert (H8 : chunk_type d i = tag_IEND).
    { unfold chunk_type. rewrite (slice_skip d i (i + 8) 4). unfold slice.
      rewrite Hend. replace (i + 8 - i)%nat with 8%nat by lia.
      reflexivity. }
    assert (Hn : next_chunk d i = length d).
    { unfold next_chunk. rewrite H4. simpl. lia. }
    destruct fuel as [|[|fuel]]; try lia.
    rewrite scan_turn by (auto; lia).
    rewrite H8, Hn.
    change (retain tag_IEND) with true. cbv iota.
    rewrite set_end_last.
    destruct (file_at_facts st (length d) Hnf Hf Hd)
      as (Hnf2 & Hf2 & Hd2 & Hp2 & Hm2 & _).
    exists (Z.of_nat i). apply scan_end; assumption.
  - pose proof (retained_to_IEND_framed _ _ Hnext) as Hfr.
    destruct (chunks_to_IEND_end _ _ Hfr) as [Hn12 _].
    destruct fuel as [|fuel]; [lia|].
    rewrite scan_turn by (auto; lia).
    rewrite Hret, set_end_last.
    destruct (file_at_facts st (next_chunk d i) Hnf Hf Hd)
      as (Hnf2 & Hf2 & Hd2 & Hp2 & Hm2 & _).
    destruct (IH fuel (file_at st f d (next_chunk d i)) (slice d i (i + 8)) R
                (skipReadSeeker.set_end v (Z.of_nat i))
                Hnf2 Hf2 Hd2 Hp2) as (e & He).
    { unfold slice. rewrite length_firstn, length_skipn. lia. }
    { unfold next_chunk in *. lia. }
    exists e. rewrite He. unfold file_at. rewrite upd_upd_same.
    destruct v; reflexivity.
Qed.

(** From the first retained chunk, found with no view open. *)
Lemma scan_first_retained (a : nat) :
  retained_to_IEND d a ->
  forall (fuel : nat) (st : store) (p : list byte)
         (R : list skipReadSeeker.t),
    no_faults st -> (f < length st)%nat -> data (get st f) = d ->
    pos (get st f) = Z.of_nat a -> length p = 8%nat ->
    (length d - a + 2 <= fuel)%nat ->
    exists e,
      scan fuel st f p R (Z.of_nat a) false
        = Some (inl (R ++ [skipReadSeeker.mk "chunk" f (Z.of_nat a) e 0],
                     len d),
                file_at st f d (length d)).
Proof.
  intros Hret fuel st p R Hnf Hf Hd Hp Hp8 Hfuel.
  pose proof (retained_to_IEND_framed _ _ Hret) as Hfr.
  destruct (chunks_to_IEND_end _ _ Hfr) as [Ha12 _].
  inversion Hret as [i Hend | i Hhdr Hty Hnext]; subst i.
  - assert (Hi : (a + 12 = length d)%nat).
    { assert (E : length (skipn a d) = 12%nat) by (rewrite Hend; reflexivity).
      rewrite length_skipn in E. lia. }
    assert (H4 : slice d a (a + 4) = [x00; x00; x00; x00]).
    { unfold slice. rewrite Hend.
      replace (a + 4 - a)%nat with 4%nat by lia. reflexivity. }
    assert (H8 : chunk_type d a = tag_IEND).
    { unfold chunk_type. rewrite (slice_skip d a (a + 8) 4). unfold slice.
      rewrite Hend. replace (a + 8 - a)%nat with 8%nat by lia.
      reflexivity. }
    assert (Hn : next_chunk d a = length d).
    { unfold next_chunk. rewrite H4. simpl. lia. }
    destruct fuel as [|[|fuel]]; try lia.
    rewrite scan_turn by (auto; lia).
    rewrite H8, Hn.
    change (retain tag_IEND) with true. cbv iota.
    destruct (file_at_facts st (length d) Hnf Hf Hd)
      as (Hnf2 & Hf2 & Hd2 & Hp2 & Hm2 & _).
    eexists. unfold chunk_view. apply scan_end; assumption.
  - pose proof (retained_to_IEND_framed _ _ Hnext) as Hfr2.
    destruct (chunks_to_IEND_end _ _ Hfr2) as [Hn12 _].
    destruct fuel as [|fuel]; [lia|].
    rewrite scan_turn by (auto; lia).
    rewrite Hty.
    destruct (file_at_facts st (next_chunk d a) Hnf Hf Hd)
      as (Hnf2 & Hf2 & Hd2 & Hp2 & Hm2 & _).
    destruct (scan_retained_run _ Hnext fuel (file_at st f d (next_chunk d a))
                (slice d a (a + 8)) R
                (chunk_view f (Z.of_nat a) (Uint32 (slice d a (a + 4))))
                Hnf2 Hf2 Hd2 Hp2) as (e & He).
    { unfold slice. rewrite length_firstn, length_skipn. lia. }
    { unfold next_chunk in *. lia. }
    exists e. rewrite He. unfold file_at. rewrite upd_upd_same.
    reflexivity.
Qed.

(** Over the dropped chunks, then from the first retained one. *)
Lemma scan_dropped_first (a i : nat) :
  dropped_then_retained d a i ->
  forall (fuel : nat) (st : store) (p : list byte)
         (R : list skipReadSeeker.t),
    no_faults st -> (f < length st)%nat -> data (get st f) = d ->
    pos (get st f) = Z.of_nat i -> length p = 8%nat ->
    (length d - i + 2 <= fuel)%nat ->
    exists e,
      scan fuel st f p R (Z.of_nat i) false
        = Some (inl (R ++ [skipReadSeeker.mk "chunk" f (Z.of_nat a) e 0],
                     len d),
                file_at st f d (length d)).
Proof.
  induction 1 as [Hret | i Hhdr Hty Hnext IH];
    intros fuel st p R Hnf Hf Hd Hp Hp8 Hfuel.
  - apply scan_first_retained; assumption.
  - pose proof (dropped_then_retained_framed _ _ _ Hnext) as Hfr.
    destruct (chunks_to_IEND_end _ _ Hfr) as [Hn12 _].
    destruct fuel as [|fuel]; [lia|].
    rewrite scan_turn by (auto; lia).
    rewrite Hty.
    destruct (file_at_facts st (next_chunk d i) Hnf Hf Hd)
      as (Hnf2 & Hf2 & Hd2 & Hp2 & Hm2 & _).
    destruct (IH fuel (file_at st f d (next_chunk d i)) (slice d i (i + 8)) R
                Hnf2 Hf2 Hd2 Hp2) as (e & He).
    { unfold slice. rewrite length_firstn, length_skipn. lia. }
    { unfold next_chunk in *. lia. }
    exists e. rewrite He. unfold file_at. rewrite upd_upd_same.
    reflexivity.
Qed.

End ScanTurn.

(* ------------------------------------------------------------------ *)
(** ** ReplaceMeta on files whose dropped chunks come first *)

Lemma length_blob (metadata : Metadata) :
  length (concat (map itxt_record metadata)) = itxtLen metadata.
Proof.
  induction metadata as [|kv md IH]; [reflexivity|].
  cbn [map concat]. rewrite length_app, length_itxt_record, itxtLen_cons, IH.
  reflexivity.
Qed.

Lemma png_dropped_first_framed (d : list byte) (a : nat) :
  png_dropped_first d a -> png_framed d.
Proof.
  intros (H1 & H2 & H3). split; [exact H1|]. split; [|exact H3].
  apply (dropped_then_retained_framed d a). exact H2.
Qed.

Lemma slice_to_end (d : list byte) (a : nat) :
  slice d a (length d) = skipn a d.
Proof.
  unfold slice. apply firstn_all2. rewrite length_skipn. lia.
Qed.

(** The chain [ReplaceMeta] returns for such a file: three views, and
    ahead of it the first 33 bytes, the records, and the file from the
    first retained chunk on. *)
Lemma ReplaceMeta_dropped_first (st : store) (f : handle)
    (metadata : Metadata) (a : nat) :
  no_faults st -> (f < length st)%nat ->
  valid_pos (pos (get st f)) ->
  png_dropped_first (data (get st f)) a ->
  fits_uint32 metadata ->
  let d := data (get st f) in
  let blob := concat (map itxt_record metadata) in
  exists mrs st',
    ReplaceMeta st f metadata = Some (Ok mrs, st') /\
    map view_key (multiReadSeeker.readSeekers mrs)
      = [ (f, 0, 33); (length st, 0, len blob);
          (f, Z.of_nat a, len d) ] /\
    multiReadSeeker.size mrs = 33 + len blob + (len d - Z.of_nat a) /\
    map data st' = map data st ++ [blob] /\
    ready st' mrs /\
    remaining st' mrs = firstn 33 d ++ blob ++ skipn a d.
Proof.
  intros Hnf Hf Hvp Hpng Hfit d blob.
  pose proof (png_dropped_first_framed _ _ Hpng) as Hframed.
  destruct Hpng as (_ & Hshape & Hlen). fold d in Hshape, Hlen.
  destruct (dropped_then_retained_le _ _ _ Hshape) as [Ha33 Ha12].
  unfold ReplaceMeta.
  rewrite Assert_framed by (auto using no_faults_get).
  rewrite upd_get.
  assert (Henc : encode_metadata metadata
                 = Some (blob ++ make 8, itxtLen metadata)).
  { unfold encode_metadata. apply (encode_loop_tail metadata [] 8 Hfit). }
  rewrite Henc. cbv beta iota.
  assert (Hbl : length blob = itxtLen metadata) by apply length_blob.
  assert (Hsl : slice_checked (blob ++ make 8) (itxtLen metadata)
                  (length (blob ++ make 8)) = Some (make 8)).
  { apply (slice_checked_mid' _ blob (make 8) []).
    - rewrite app_nil_r. reflexivity.
    - symmetry. exact Hbl.
    - apply length_app. }
  rewrite Hsl. cbv beta iota.
  rewrite Reader_Seek_start_plain
    by (auto using no_faults_get; unfold ihdrEnd; lia).
  fold d.
  set (r2 := {| data := d; pos := ihdrEnd; faults := [] |}).
  set (st2 := upd st f r2).
  assert (Hnf2 : no_faults st2) by (apply no_faults_upd; auto).
  assert (Hlen2 : length st2 = length st) by apply length_upd.
  assert (Hfirst : firstn (length (blob ++ make 8) - 8) (blob ++ make 8)
                   = blob).
  { rewrite length_app, length_make.
    replace (length blob + 8 - 8)%nat with (length blob) by lia.
    rewrite firstn_app, firstn_all, Nat.sub_diag. simpl.
    apply app_nil_r. }
  assert (Hlb : len (blob ++ make 8) - 8 = len blob).
  { unfold len. rewrite length_app, length_make. lia. }
  rewrite Hfirst, Hlb.
  unfold alloc. cbv beta iota. rewrite Hlen2.
  set (st3 := st2 ++ [NewReader blob]).
  assert (Hnf3 : no_faults st3) by (apply no_faults_alloc; auto).
  assert (Hf3 : (f < length st3)%nat).
  { unfold st3. rewrite length_app. simpl. lia. }
  assert (Hg3 : get st3 f = r2).
  { unfold st3. rewrite get_alloc_old by lia. apply get_upd_same. exact Hf. }
  fold (header_view f). fold (metadata_view (length st) (len blob)).
  destruct (scan_dropped_first f d Hlen a 33 Hshape (scan_fuel st3 f) st3
              (make 8)
              [header_view f; metadata_view (length st) (len blob)])
    as (e & Hscan); auto.
  { rewrite Hg3. reflexivity. }
  { rewrite Hg3. reflexivity. }
  { unfold scan_fuel. rewrite Hg3. change (data r2) with d. lia. }
  change (Z.of_nat 33) with ihdrEnd in Hscan. rewrite Hscan.
  rewrite set_end_last.
  set (st4 := file_at st3 f d (length d)).
  destruct (file_at_facts f d st3 (length d) Hnf3 Hf3)
    as (Hnf4 & Hf4 & Hd4 & Hp4 & Hm4 & Hlen4);
    [rewrite Hg3; reflexivity|].
  fold st4 in Hnf4, Hf4, Hd4, Hp4, Hm4, Hlen4.
  assert (Hlen3 : length st3 = S (length st)).
  { unfold st3. rewrite length_app, Hlen2. simpl. lia. }
  set (cv := skipReadSeeker.mk "chunk" f (Z.of_nat a) (len d) 0).
  change (skipReadSeeker.set_end
            (skipReadSeeker.mk "chunk" f (Z.of_nat a) e 0) (len d)) with cv.
  cbn [app].
  destruct (newMultiReadSeeker_first st4 (header_view f)
              [metadata_view (length st) (len blob); cv] Hnf4)
    as (mrs & st' & HN & Hviews & _ & Hsize & Hready & Hrem & Hdata);
    [|simpl; unfold ihdrEnd; lia|].
  { unfold len in Hlen.
    repeat constructor; unfold valid_pos; simpl; try lia. }
  rewrite HN. exists mrs, st'. split; [reflexivity|].
  assert (Hm3 : map data st3 = map data st ++ [blob]).
  { unfold st3. rewrite map_app. f_equal.
    unfold st2. apply map_data_upd. reflexivity. }
  split; [rewrite Hviews; reflexivity|].
  split.
  { rewrite Hsize. unfold total_size, view_size, header_view,
      metadata_view, cv, ihdrEnd.
    cbn [map fold_right skipReadSeeker.end_ skipReadSeeker.start]. lia. }
  split; [rewrite Hdata, Hm4; exact Hm3|].
  split; [exact Hready|].
  rewrite Hrem. cbn [map concat]. rewrite app_nil_r.
  assert (Hgm : data (get st4 (length st)) = blob).
  { rewrite data_get, Hm4, Hm3.
    rewrite app_nth2 by (rewrite length_map; lia).
    rewrite length_map, Nat.sub_diag. reflexivity. }
  assert (Hv1 : view_bytes st4 (header_view f) = firstn 33 d).
  { unfold view_bytes, span, header_view. simpl skipReadSeeker.rs.
    rewrite Hd4. reflexivity. }
  assert (Hv2 : view_bytes st4 (metadata_view (length st) (len blob))
                = blob).
  { unfold view_bytes, span, metadata_view.
    cbn [skipReadSeeker.rs skipReadSeeker.start skipReadSeeker.end_].
    rewrite Hgm. unfold len. rewrite Nat2Z.id.
    change (Z.to_nat 0) with 0%nat. rewrite slice_from_0.
    apply firstn_all. }
  assert (Hv3 : view_bytes st4 cv = skipn a d).
  { unfold view_bytes, span, cv.
    cbn [skipReadSeeker.rs skipReadSeeker.start skipReadSeeker.end_].
    rewrite Hd4. unfold len. rewrite !Nat2Z.id. apply slice_to_end. }
  rewrite Hv1, Hv2, Hv3. reflexivity.
Qed.

(** *** The retained chunks of such a file *)

Lemma chunks_of_nil (fuel : nat) : chunks_of fuel [] = [].
Proof. destruct fuel; reflexivity. Qed.

Lemma chunks_of_at (d : list byte) (i fuel : nat) :
  (i + 8 <= length d)%nat ->
  chunks_of (S fuel) (skipn i d)
    = (chunk_type d i, slice d i (next_chunk d i))
        :: chunks_of fuel (skipn (next_chunk d i) d).
Proof.
  intros Hi. cbn [chunks_of].
  destruct (length (skipn i d) <? 8)%nat eqn:E.
  { apply Nat.ltb_lt in E. rewrite length_skipn in E. lia. }
  assert (H4 : slice (skipn i d) 0 4 = slice d i (i + 4)).
  { unfold slice. cbn [skipn]. f_equal. lia. }
  assert (H8 : slice (skipn i d) 4 8 = chunk_type d i).
  { unfold chunk_type, slice. rewrite skipn_skipn. f_equal; [lia|].
    f_equal. lia. }
  rewrite H4, H8, skipn_skipn. unfold next_chunk.
  set (U := Z.to_nat (Uint32 (slice d i (i + 4)))).
  replace (12 + U + i)%nat with (i + 12 + U)%nat by lia.
  unfold slice. replace (i + 12 + U - i)%nat with (12 + U)%nat by lia.
  reflexivity.
Qed.

Lemma retained_bytes_run (d : list byte) (i : nat) :
  retained_to_IEND d i ->
  forall fuel, (length d - i <= fuel)%nat ->
    concat (map snd (filter (fun c => retain (fst c))
                       (chunks_of fuel (skipn i d))))
    = skipn i d.
Proof.
  induction 1 as [i Hend | i Hhdr Hret Hnext IH]; intros fuel Hfuel.
  - assert (Hi : (i + 12 = length d)%nat).
    { assert (E : length (skipn i d) = 12%nat) by (rewrite Hend; reflexivity).
      rewrite length_skipn in E. lia. }
    rewrite Hend. destruct fuel as [|fuel]; [lia|].
    change (chunks_of (S fuel) iend)
      with ((tag_IEND, iend) :: chunks_of fuel []).
    rewrite chunks_of_nil. reflexivity.
  - pose proof (retained_to_IEND_framed _ _ Hnext) as Hfr.
    destruct (chunks_to_IEND_end _ _ Hfr) as [Hn12 _].
    destruct fuel as [|fuel]; [lia|].
    rewrite chunks_of_at by exact Hhdr.
    cbn [filter fst]. rewrite Hret. cbn [map snd concat].
    rewrite IH by (unfold next_chunk in *; lia).
    unfold slice.
    rewrite <- (firstn_skipn (next_chunk d i - i) (skipn i d)) at 2.
    rewrite skipn_skipn.
    replace (next_chunk d i - i + i)%nat with (next_chunk d i)
      by (unfold next_chunk; lia).
    reflexivity.
Qed.

Lemma retained_bytes_dropped_first (d : list byte) (a i : nat) :
  dropped_then_retained d a i ->
  forall fuel, (length d - i <= fuel)%nat ->
    concat (map snd (filter (fun c => retain (fst c))
                       (chunks_of fuel (skipn i d))))
    = skipn a d.
Proof.
  induction 1 as [Hret | i Hhdr Hty Hnext IH]; intros fuel Hfuel.
  - apply retained_bytes_run; assumption.
  - pose proof (dropped_then_retained_framed _ _ _ Hnext) as Hfr.
    destruct (chunks_to_IEND_end _ _ Hfr) as [Hn12 _].
    destruct fuel as [|fuel]; [lia|].
    rewrite chunks_of_at by exact Hhdr.
    cbn [filter fst]. rewrite Hty.
    apply IH. unfold next_chunk in *. lia.
Qed.

Lemma spliced_dropped_first (d blob : list byte) (a : nat) :
  png_dropped_first d a ->
  spliced d blob = firstn 33 d ++ blob ++ skipn a d.
Proof.
  intros (_ & Hshape & _). unfold spliced, retained_bytes.
  rewrite (retained_bytes_dropped_first d a 33 Hshape);
    [reflexivity|].
  rewrite length_skipn. lia.
Qed.

(** X9 ([ReplaceMeta], with [multiReadSeeker] draining as [WriteFile]
    does): for a file held by a plain reader in which every chunk of a
    type that is not retained stands before the first retained chunk
    after IHDR, and a mapping whose records fit their length fields,
    [ReplaceMeta] succeeds with three views - the first 33 bytes, the
    records, and the file from the first retained chunk to its end - and
    the stream, drained with any buffer, is the splice: the first 33
    bytes, the iTXt records of the mapping, and every retained chunk
    whole and in order. *)
Theorem ReplaceMeta_splices (st : store) (f : handle)
    (metadata : Metadata) (a : nat) :
  no_faults st -> (f < length st)%nat ->
  valid_pos (pos (get st f)) ->
  png_dropped_first (data (get st f)) a ->
  fits_uint32 metadata ->
  let d := data (get st f) in
  let blob := concat (map itxt_record metadata) in
  exists mrs st',
    ReplaceMeta st f metadata = Some (Ok mrs, st') /\
    map view_key (multiReadSeeker.readSeekers mrs)
      = [ (f, 0, 33); (length st, 0, len blob);
          (f, Z.of_nat a, len d) ] /\
    multiReadSeeker.Size mrs = len (spliced d blob) /\
    forall bufsz, (0 < bufsz)%nat ->
      exists mrs2 st2,
        drain st' mrs bufsz = Some (spliced d blob, None, mrs2, st2).
Proof.
  intros Hnf Hf Hvp Hpng Hfit d blob.
  destruct (ReplaceMeta_dropped_first st f metadata a Hnf Hf Hvp Hpng Hfit)
    as (mrs & st' & HR & Hviews & Hsize & _ & Hready & Hrem).
  fold d in Hviews, Hsize, Hrem. fold blob in Hviews, Hsize, Hrem.
  rewrite (spliced_dropped_first d blob a Hpng).
  pose proof Hpng as (_ & Hshape & Hlen).
  destruct (dropped_then_retained_le _ _ _ Hshape) as [Ha33 Ha12].
  assert (Hl : len (firstn 33 d ++ blob ++ skipn a d)
               = multiReadSeeker.size mrs).
  { rewrite Hsize. unfold len.
    rewrite !length_app, length_firstn, length_skipn. fold d in Ha12. lia. }
  exists mrs, st'. split; [exact HR|]. split; [exact Hviews|].
  split; [unfold multiReadSeeker.Size; lia|].
  intros bufsz Hbuf.
  destruct (drain_loop_spec
              (S (S (Z.to_nat (multiReadSeeker.size mrs))))
              st' mrs bufsz [] Hready Hbuf)
    as (mrs2 & st2 & Hdrain & _).
  { rewrite Hrem. unfold len in Hl. lia. }
  exists mrs2, st2. unfold drain. rewrite Hdrain, Hrem. reflexivity.
Qed.

(* ------------------------------------------------------------------ *)
(** ** Editing an edited file *)

Lemma png_text_first_dropped_first : png_dropped_first png_text_first 48.
Proof.
  split; [reflexivity|]. split; [|vm_compute; reflexivity].
  apply dropped_chunk; [vm_compute; lia | vm_compute; reflexivity |].
  change (next_chunk png_text_first 33) with 48%nat.
  apply first_retained.
  apply retained_chunk; [vm_compute; lia | vm_compute; reflexivity |].
  change (next_chunk png_text_first 48) with 65%nat.
  apply retained_IEND. vm_compute. reflexivity.
Qed.

Lemma two_entries_fit : fits_uint32 two_entries.
Proof.
  unfold fits_uint32, two_entries.
  repeat constructor; vm_compute; reflexivity.
Qed.

Lemma ReplaceMeta_splices_witness :
  exists mrs st',
    ReplaceMeta [NewReader png_text_first] 0%nat two_entries
      = Some (Ok mrs, st') /\
    map view_key (multiReadSeeker.readSeekers mrs)
      = [ (0%nat, 0, 33); (1%nat, 0, 39); (0%nat, 48, 77) ] /\
    exists mrs2 st2,
      drain st' mrs 64
        = Some (spliced png_text_first (concat (map itxt_record two_entries)),
                None, mrs2, st2).
Proof.
  destruct (ReplaceMeta_splices [NewReader png_text_first] 0%nat
              two_entries 48)
    as (mrs & st' & HR & Hv & _ & Hdrain).
  - repeat constructor.
  - simpl. lia.
  - unfold valid_pos. simpl. lia.
  - exact png_text_first_dropped_first.
  - exact two_entries_fit.
  - exists mrs, st'. split; [exact HR|]. split; [exact Hv|].
    apply (Hdrain 64%nat). lia.
Defined.









(* ------------------------------------------------------------------ *)
(** ** WriteFile: the name *)

Lemma Ext_of_png (s : list byte) : filepath_Ext (s ++ dot_png) = dot_png.
Proof. unfold filepath_Ext. rewrite rev_app_distr. reflexivity. Qed.

(** What [filepath.Ext] returns is empty or a suffix of the path. *)
Lemma Ext_from_suffix (back : list byte) :
  forall seen,
    Ext_from back seen = [] \/
    exists pre, rev back ++ seen = pre ++ Ext_from back seen.
Proof.
  induction back as [|c back IH]; intros seen; [left; reflexivity|].
  cbn [Ext_from rev].
  destruct (Byte.eqb c x2f); [left; reflexivity|].
  destruct (Byte.eqb c x2e).
  - right. exists (rev back). rewrite <- app_assoc. reflexivity.
  - rewrite <- app_assoc. apply (IH (c :: seen)).
Qed.

Lemma Ext_png_iff (name : list byte) :
  filepath_Ext name = dot_png <-> exists s, name = s ++ dot_png.
Proof.
  split.
  - intros H. unfold filepath_Ext in H.
    destruct (Ext_from_suffix (rev name) []) as [E|[pre E]].
    + rewrite E in H. discriminate H.
    + rewrite rev_involutive, app_nil_r, H in E. exists pre. exact E.
  - intros [s ->]. apply Ext_of_png.
Qed.

Lemma rev_repeat_byte (b : byte) (k : nat) : rev (repeat b k) = repeat b k.
Proof.
  induction k as [|k IH]; [reflexivity|].
  cbn [repeat rev]. rewrite IH.
  clear IH. induction k as [|k IH]; [reflexivity|].
  cbn [repeat app]. rewrite IH. reflexivity.
Qed.

Lemma trim_back_dots (back : list byte) :
  exists k,
    back = repeat x2e k ++ trim_back back [x2e] /\
    forall t, trim_back back [x2e] <> x2e :: t.
Proof.
  induction back as [|c back (k & IH1 & IH2)].
  - exists 0%nat. split; [reflexivity | discriminate].
  - cbn [trim_back existsb]. destruct (Byte.eqb c x2e) eqn:E; cbn [orb].
    + apply Byte.byte_dec_bl in E. subst c.
      exists (S k). split; [cbn [repeat app]; f_equal; exact IH1 | exact IH2].
    + exists 0%nat. split; [reflexivity|].
      intros t Ht. injection Ht as Hc _. subst c. discriminate E.
Qed.

Lemma TrimRight_dots (name : list byte) :
  exists k,
    name = TrimRight name [x2e] ++ repeat x2e k /\
    forall t, TrimRight name [x2e] <> t ++ [x2e].
Proof.
  destruct (trim_back_dots (rev name)) as (k & H1 & H2).
  exists k. unfold TrimRight. split.
  - rewrite <- (rev_involutive name) at 1. rewrite H1 at 1.
    rewrite rev_app_distr, rev_repeat_byte. reflexivity.
  - intros t Ht. apply (H2 (rev t)).
    rewrite <- (rev_involutive (trim_back (rev name) [x2e])), Ht.
    apply rev_unit.
Qed.

(** X11 ([WriteFile], its first statement): the name [WriteFile]
    writes to always has the extension [.png].  A name that ends in
    [.png] is kept as it is; any other name loses the dots it ends
    with, all of them, and gets [.png] appended: an extension it has
    is not replaced.  Applying the rule twice changes nothing more. *)
Theorem WriteFile_name_png (name : list byte) :
  filepath_Ext (WriteFile_name name) = dot_png /\
  ((exists s, name = s ++ dot_png) -> WriteFile_name name = name) /\
  ((forall s, name <> s ++ dot_png) ->
   exists stem k,
     name = stem ++ repeat x2e k /\
     (forall t, stem <> t ++ [x2e]) /\
     WriteFile_name name = stem ++ dot_png) /\
  WriteFile_name (WriteFile_name name) = WriteFile_name name.
Proof.
  assert (Hkeep : forall n, (exists s, n = s ++ dot_png) ->
                            WriteFile_name n = n).
  { intros n Hn. apply Ext_png_iff in Hn. unfold WriteFile_name.
    rewrite Hn. reflexivity. }
  assert (Hends : exists s, WriteFile_name name = s ++ dot_png).
  { unfold WriteFile_name.
    destruct (bytes_Equal (filepath_Ext name) dot_png) eqn:E; cbn [negb].
    - apply bytes_Equal_true, Ext_png_iff in E. exact E.
    - eexists. reflexivity. }
  split; [apply Ext_png_iff; exact Hends|].
  split; [apply Hkeep|].
  split; [|apply Hkeep; exact Hends].
  intros Hno.
  destruct (TrimRight_dots name) as (k & H1 & H2).
  exists (TrimRight name [x2e]), k.
  split; [exact H1|]. split; [exact H2|].
  unfold WriteFile_name.
  destruct (bytes_Equal (filepath_Ext name) dot_png) eqn:E; cbn [negb];
    [|reflexivity].
  apply bytes_Equal_true, Ext_png_iff in E. destruct E as [s Hs].
  exfalso. exact (Hno s Hs).
Qed.

(* ------------------------------------------------------------------ *)
(** ** WriteFile: the copy *)

Lemma WriteFile_loop_spec (fuel : nat) :
  forall (st : store) (r : multiReadSeeker.t) (f : File) (n : Z),
    ready st r -> wfaults f = [] ->
    (length (remaining st r) < fuel)%nat ->
    WriteFile_loop fuel st r f n
      = Some (n + len (remaining st r), None,
              {| written := written f ++ remaining st r; wfaults := [];
                 closing := closing f |}).
Proof.
  induction fuel as [|fuel IH]; intros st r f n Hready Hw Hfuel; [lia|].
  cbn [WriteFile_loop]. unfold TeeReader_Read.
  destruct (Read_spec st r 64 Hready)
    as (r1 & st1 & HR & Hready1 & Hrem1 & _).
  rewrite HR.
  set (rem := remaining st r) in *.
  assert (Hwr : File_Write f (firstn 64 rem)
                = (length (firstn 64 rem), None,
                   {| written := written f ++ firstn 64 rem; wfaults := [];
                      closing := closing f |})).
  { unfold File_Write. rewrite Hw. reflexivity. }
  destruct (length rem <? 64)%nat eqn:E.
  - apply Nat.ltb_lt in E.
    rewrite (firstn_all2 rem) in * by lia.
    destruct (0 <? length rem)%nat eqn:E0.
    + rewrite Hwr. cbn [is_EOF]. reflexivity.
    + apply Nat.ltb_ge in E0.
      assert (Hnil : rem = []) by (destruct rem; [reflexivity|simpl in E0; lia]).
      rewrite Hnil. cbn [is_EOF length]. rewrite app_nil_r.
      change (len []) with 0. destruct f; simpl in *; subst.
      reflexivity.
  - apply Nat.ltb_ge in E.
    assert (Hl : length (firstn 64 rem) = 64%nat)
      by (rewrite length_firstn; lia).
    rewrite Hl. cbn [Nat.ltb Nat.leb]. rewrite Hwr, ?Hl.
    rewrite IH; [|exact Hready1|reflexivity|rewrite Hrem1, length_skipn; lia].
    rewrite Hrem1. cbn [written closing].
    rewrite <- app_assoc, firstn_skipn.
    assert (Hsum : len rem = 64 + len (skipn 64 rem)).
    { unfold len. rewrite length_skipn. lia. }
    rewrite Hsum.
    replace (n + Z.of_nat 64 + len (skipn 64 rem))
      with (n + (64 + len (skipn 64 rem))) by lia.
    reflexivity.
Qed.

(** X12 ([WriteFile], [closeFile], with [multiReadSeeker.Read] as the
    reader): whatever the operating system answers - on a chain that is
    in step with its plain sources and whose size bounds what is left
    of it, [WriteFile] returns.  If the name cannot be made absolute or
    the file cannot be created it returns count 0 and that error, and
    nothing is written.  Otherwise the file it created, under the
    absolute form of the name with the extension [.png], receives
    exactly the bytes left in the chain, in order, the count returned
    is their number, and the error is nil unless closing the file
    fails, which is then reported although every byte was written. *)
Theorem WriteFile_copies (Abs : list byte -> list byte + error)
    (Create : list byte -> File + error)
    (name : list byte) (st : store) (r : multiReadSeeker.t) :
  ready st r ->
  len (remaining st r) <= multiReadSeeker.Size r ->
  match Abs (WriteFile_name name) with
  | inr e =>
      WriteFile Abs Create name st r
        = Some (Ok (0, Some (ErrPngutil e)), None)
  | inl path =>
      match Create path with
      | inr e =>
          WriteFile Abs Create name st r
            = Some (Ok (0, Some (ErrPngutil e)), None)
      | inl f =>
          written f = [] -> wfaults f = [] ->
          WriteFile Abs Create name st r
            = Some (Ok (len (remaining st r),
                        match closing f with
                        | None => None
                        | Some cErr => Some (ErrCloseNil cErr)
                        end),
                    Some (path,
                          {| written := remaining st r; wfaults := [];
                             closing := closing f |}))
      end
  end.
Proof.
  intros Hready Hsize. unfold WriteFile.
  destruct (Abs (WriteFile_name name)) as [path|e]; [|reflexivity].
  destruct (Create path) as [f|e]; [|reflexivity].
  intros Hwr Hwf.
  rewrite WriteFile_loop_spec; auto.
  - rewrite Hwr. cbn [app closeFile closing Z.add].
    destruct (closing f); reflexivity.
  - unfold multiReadSeeker.Size, len in Hsize. lia.
Qed.

Lemma WriteFile_copies_witness :
  WriteFile (fun name => inl (x2f :: name))
    (fun _ => inl (mkFile [] [] (Some ErrIO)))
    [x61; x2e; x2e] test_store test_chain
  = Some (Ok (16, Some (ErrCloseNil ErrIO)),
          Some ([x2f; x61; x2e; x70; x6e; x67],
                mkFile (src8 ++ src8b) [] (Some ErrIO))).
Proof.
  refine (WriteFile_copies (fun name => inl (x2f :: name))
            (fun _ => inl (mkFile [] [] (Some ErrIO)))
            [x61; x2e; x2e] test_store test_chain _ _ eq_refl eq_refl).
  - unfold ready, test_chain, test_store, test_views, view_ok, valid_pos,
      in_sync. simpl.
    split; [repeat constructor|].
    split; [repeat constructor; simpl; lia|].
    split; [lia|]. split; [lia | reflexivity].
  - vm_compute. discriminate.
Defined.

(* ------------------------------------------------------------------ *)
(** ** Draining the readers of pngutil.go *)

Section OldDrain.

Import SkipReaderVersion.

Lemma slice_split (d : list byte) (a b c : nat) :
  (a <= b <= c)%nat -> slice d a b ++ slice d b c = slice d a c.
Proof.
  intros H. unfold slice.
  replace (skipn b d) with (skipn (b - a) (skipn a d))
    by (rewrite skipn_skipn; f_equal; lia).
  replace (c - b)%nat with ((c - a) - (b - a))%nat by lia.
  apply firstn_app_skipn_more. lia.
Qed.

Lemma slice_empty (d : list byte) (a : nat) : slice d a a = [].
Proof. unfold slice. rewrite Nat.sub_diag. reflexivity. Qed.

Lemma slice_nonempty (d : list byte) (a b : nat) :
  (a < b <= length d)%nat -> slice d a b <> [].
Proof.
  intros H E. apply (f_equal (@length byte)) in E.
  rewrite length_slice_within in E by lia. simpl in E. lia.
Qed.

(** A read of a view of the plain file [f] that is not exhausted. *)
Lemma skipReader_Read_plain (st : store) (f : handle) (sr : skipReader)
    (n : nat) :
  r sr = f ->
  no_faults st -> (f < length st)%nat ->
  0 <= offset sr < limit sr -> limit sr <= len (data (get st f)) ->
  (if begun sr then pos (get st f) = offset sr else True) ->
  (0 < n)%nat ->
  let d := data (get st f) in
  let k := Nat.min n (Z.to_nat (limit sr - offset sr)) in
  let bs := slice d (Z.to_nat (offset sr)) (Z.to_nat (offset sr) + k) in
  skipReader_Read st sr n
    = Ok (bs, None,
          {| r := f; offset := offset sr + len bs; limit := limit sr;
             begun := true |},
          upd st f
            {| data := d; pos := offset sr + len bs; faults := [] |}) /\
  length bs = k.
Proof.
  intros <- Hnf Hr Ho Hl Hb Hn d k bs.
  assert (Hlenbs : length bs = k).
  { unfold bs. rewrite length_slice_within; [lia|].
    unfold k, len in *. fold d in Hl. lia. }
  split; [|exact Hlenbs].
  assert (Htail : forall st0,
             get st0 (r sr) = {| data := d; pos := offset sr; faults := [] |} ->
             Read_tail st0
               {| r := r sr; offset := offset sr; limit := limit sr;
                  begun := true |} n
             = Ok (bs, None,
                   {| r := r sr; offset := offset sr + len bs;
                      limit := limit sr; begun := true |},
                   upd st0 (r sr)
                     {| data := d; pos := offset sr + len bs;
                        faults := [] |})).
  { intros st0 Hg. unfold Read_tail. cbn [r offset limit begun].
    assert (E2 : (limit sr - offset sr <? 0) = false)
      by (apply Z.ltb_ge; lia).
    rewrite E2, andb_false_r.
    assert (Hk : (if Z.of_nat n >? limit sr - offset sr
                  then Z.to_nat (limit sr - offset sr) else n) = k).
    { unfold k. destruct (Z.of_nat n >? limit sr - offset sr) eqn:E;
        rewrite Z.gtb_ltb in E.
      - apply Z.ltb_lt in E. lia.
      - apply Z.ltb_ge in E. lia. }
    rewrite Hk, Hg.
    unfold Reader_Read, next_fault. cbn [faults data pos].
    destruct (offset sr >=? len d) eqn:E.
    { rewrite Z.geb_leb in E. apply Z.leb_le in E. fold d in Hl. lia. }
    assert (Hbs : firstn k (skipn (Z.to_nat (offset sr)) d) = bs).
    { unfold bs, slice. f_equal. lia. }
    rewrite Hbs. reflexivity. }
  unfold skipReader_Read.
  destruct (begun sr) eqn:Eb; cbn [negb].
  - destruct (offset sr >=? limit sr) eqn:E.
    { rewrite Z.geb_leb in E. apply Z.leb_le in E. lia. }
    replace sr with {| r := r sr; offset := offset sr; limit := limit sr;
                       begun := true |} at 1
      by (destruct sr; simpl in *; subst; reflexivity).
    apply Htail.
    pose proof (no_faults_get st (r sr) Hnf) as Hf.
    destruct (get st (r sr)) as [d0 p0 f0] eqn:Eg. simpl in *.
    subst. reflexivity.
  - cbn [r offset limit].
    rewrite Reader_Seek_start_plain
      by (auto using no_faults_get; lia).
    fold d. rewrite Htail by (apply get_upd_same; exact Hr).
    rewrite upd_upd_same. reflexivity.
Qed.

Variable f : handle.

Lemma rest_of_same (st st' : store) (rd : ioReader) :
  data (get st' f) = data (get st f) ->
  (forall h, h <> f -> get st' h = get st h) ->
  waiting st f rd -> rest_of st' rd = rest_of st rd.
Proof.
  intros Hd Ho Hw. destruct rd as [sr|h]; cbn [rest_of waiting] in *.
  - destruct Hw as (Hr & _). unfold span. rewrite Hr, Hd. reflexivity.
  - destruct Hw as (Hh & _). rewrite (Ho h Hh). reflexivity.
Qed.

Lemma waiting_same (st st' : store) (rd : ioReader) :
  data (get st' f) = data (get st f) -> length st' = length st ->
  (forall h, h <> f -> get st' h = get st h) ->
  waiting st f rd -> waiting st' f rd.
Proof.
  intros Hd Hlen Ho Hw. destruct rd as [sr|h]; cbn [waiting] in *.
  - rewrite Hd. exact Hw.
  - destruct Hw as (Hh & Hl & Hp). rewrite (Ho h Hh), Hlen. auto.
Qed.

Lemma waiting_reading (st : store) (rd : ioReader) :
  waiting st f rd -> reading st f rd.
Proof.
  destruct rd as [sr|h]; cbn [waiting reading]; [|auto].
  intros (Hr & Hb & Ho & Hl). rewrite Hb. repeat split; auto; lia.
Qed.

(** The same when a reader other than the file has moved. *)
Lemma rest_of_other (st st' : store) (h : handle) (rd : ioReader) :
  h <> f -> (forall h', h' <> h -> get st' h' = get st h') ->
  ~ In h (bytes_handles [rd]) ->
  waiting st f rd -> rest_of st' rd = rest_of st rd.
Proof.
  intros Hh Ho Hnin Hw. destruct rd as [sr|h']; cbn [rest_of waiting] in *.
  - destruct Hw as (Hr & _). unfold span. rewrite Hr.
    rewrite (Ho f) by congruence. reflexivity.
  - rewrite (Ho h'); [reflexivity|].
    intros E. apply Hnin. subst. simpl. auto.
Qed.

Lemma waiting_other (st st' : store) (h : handle) (rd : ioReader) :
  h <> f -> length st' = length st ->
  (forall h', h' <> h -> get st' h' = get st h') ->
  ~ In h (bytes_handles [rd]) ->
  waiting st f rd -> waiting st' f rd.
Proof.
  intros Hh Hlen Ho Hnin Hw. destruct rd as [sr|h']; cbn [waiting] in *.
  - rewrite (Ho f) by congruence. exact Hw.
  - destruct Hw as (H1 & H2 & H3).
    rewrite (Ho h'), Hlen; [auto|].
    intros E. apply Hnin. subst. simpl. auto.
Qed.

Lemma bytes_handles_cons (rd : ioReader) (l : list ioReader) :
  bytes_handles (rd :: l) = bytes_handles [rd] ++ bytes_handles l.
Proof. unfold bytes_handles. simpl. rewrite app_nil_r. reflexivity. Qed.

Lemma not_in_rest (h : handle) (l : list ioReader) :
  ~ In h (bytes_handles l) ->
  Forall (fun rd => ~ In h (bytes_handles [rd])) l.
Proof.
  induction l as [|rd l IH]; intros H; constructor.
  - intros Hin. apply H. rewrite bytes_handles_cons.
    apply in_or_app. left. exact Hin.
  - apply IH. intros Hin. apply H. rewrite bytes_handles_cons.
    apply in_or_app. right. exact Hin.
Qed.

(** One [Read] of the [io.MultiReader]: it delivers bytes of the first
    reader that has any, or reports the end when none has. *)
Lemma MultiReader_Read_spec (n : nat) :
  (0 < n)%nat ->
  forall (readers : list ioReader) (st : store),
    readers_ok st f readers ->
    (exists bs readers' st',
        MultiReader_Read st readers n = Ok (bs, None, readers', st') /\
        bs <> [] /\
        rest_of_all st readers = bs ++ rest_of_all st' readers' /\
        readers_ok st' f readers' /\ map data st' = map data st)
    \/
    (exists st',
        MultiReader_Read st readers n = Ok ([], Some EOF, [], st') /\
        rest_of_all st readers = []).
Proof.
  intros Hn. induction readers as [|rd rest IH]; intros st Hok.
  { right. exists st. split; reflexivity. }
  destruct Hok as (Hnf & Hf & Hlen & Hnd & Hhead & Hrest).
  assert (Hnext : readers_ok st f rest).
  { unfold readers_ok. repeat split; auto.
    - rewrite bytes_handles_cons in Hnd.
      apply NoDup_app_remove_l in Hnd. exact Hnd.
    - destruct rest as [|rd2 rest2]; [exact I|].
      inversion Hrest; subst. split; [apply waiting_reading|]; assumption. }
  destruct rd as [sr|h]; cbn [MultiReader_Read ioReader_Read].
  - (* a view of the file *)
    destruct Hhead as (Hr & Ho & Hl & Hb).
    destruct (Z.eq_dec (offset sr) (limit sr)) as [Hend|Hmore].
    + (* exhausted: it has begun, and reports the end *)
      destruct (begun sr) eqn:Eb; [|lia].
      unfold skipReader_Read. rewrite Eb. cbn [negb].
      assert (E : (offset sr >=? limit sr) = true)
        by (rewrite Z.geb_leb; apply Z.leb_le; lia).
      rewrite E. cbn [is_exactly_EOF length Nat.ltb Nat.leb].
      assert (Hnil : rest_of st (RSkip sr) = []).
      { cbn [rest_of]. unfold span. rewrite Hend. apply slice_empty. }
      unfold rest_of_all in *. cbn [map concat]. rewrite Hnil.
      cbn [app]. apply IH. exact Hnext.
    + left.
      destruct (skipReader_Read_plain st f sr n Hr Hnf Hf ltac:(lia) Hl)
        as (HR & Hk); [destruct (begun sr); auto | exact Hn |].
      rewrite HR. cbn [is_exactly_EOF].
      set (d := data (get st f)) in *.
      set (k := Nat.min n (Z.to_nat (limit sr - offset sr))) in *.
      set (bs := slice d (Z.to_nat (offset sr)) (Z.to_nat (offset sr) + k))
        in *.
      set (rd' := {| data := d; pos := offset sr + len bs; faults := [] |}).
      set (st' := upd st f rd').
      assert (Hg : get st' f = rd') by (apply get_upd_same; exact Hf).
      assert (Hoth : forall h, h <> f -> get st' h = get st h).
      { intros h Hh. apply get_upd_other. congruence. }
      assert (Hkpos : (0 < k)%nat) by (unfold k; lia).
      assert (Hkle : (Z.to_nat (offset sr) + k <= Z.to_nat (limit sr))%nat)
        by (unfold k; lia).
      eexists bs, _, st'. split; [reflexivity|].
      split.
      { unfold bs. apply slice_nonempty. unfold len in Hl. fold d in Hl.
        lia. }
      assert (Hdata : map data st' = map data st)
        by (apply map_data_upd; reflexivity).
      split; [|split; [|exact Hdata]].
      * unfold rest_of_all. cbn [map concat]. rewrite app_assoc.
        f_equal.
        -- cbn [rest_of r offset limit]. unfold span. rewrite Hr, Hg.
           cbn [data]. fold d. unfold len. rewrite Hk.
           replace (Z.to_nat (offset sr + Z.of_nat k))
             with (Z.to_nat (offset sr) + k)%nat by lia.
           unfold bs. symmetry. apply slice_split. lia.
        -- f_equal. apply map_ext_in. intros x Hx.
           rewrite Forall_forall in Hrest.
           symmetry. apply (rest_of_same st st' x); auto.
           rewrite Hg. reflexivity.
      * unfold readers_ok. rewrite Hg. cbn [data].
        split; [apply no_faults_upd; auto|].
        split; [unfold st'; rewrite length_upd; exact Hf|].
        split; [exact Hlen|]. split; [exact Hnd|].
        split.
        -- cbn [reading r offset limit begun]. rewrite Hg. unfold rd'.
           cbn [data pos].
           unfold len in *. rewrite Hk. repeat split; auto; lia.
        -- eapply Forall_impl; [|exact Hrest].
           intros x Hx. apply (waiting_same st st' x); auto.
           ++ rewrite Hg. reflexivity.
           ++ apply length_upd.
  - (* a reader of its own *)
    destruct Hhead as (Hh & Hhl & Hp).
    pose proof (no_faults_get st h Hnf) as Hfh.
    unfold Reader_Read, next_fault. rewrite Hfh.
    destruct (pos (get st h) >=? len (data (get st h))) eqn:E.
    + rewrite Z.geb_leb in E. apply Z.leb_le in E.
      cbn [is_exactly_EOF length Nat.ltb Nat.leb].
      rewrite upd_get.
      assert (Hnil : rest_of st (RBytes h) = []).
      { cbn [rest_of]. apply skipn_all2. unfold len in E. lia. }
      unfold rest_of_all in *. cbn [map concat]. rewrite Hnil.
      cbn [app]. apply IH. exact Hnext.
    + rewrite Z.geb_leb in E. apply Z.leb_gt in E.
      left. cbn [is_exactly_EOF]. rewrite ?Hfh.
      set (dh := data (get st h)) in *.
      set (ph := Z.to_nat (pos (get st h))).
      set (bs := firstn n (skipn ph dh)).
      set (rd' := {| data := dh; pos := pos (get st h) + len bs;
                     faults := [] |}).
      set (st' := upd st h rd').
      assert (Hg : get st' h = rd') by (apply get_upd_same; exact Hhl).
      assert (Hoth : forall h', h' <> h -> get st' h' = get st h').
      { intros h' Hh'. apply get_upd_other. congruence. }
      assert (Hlbs : length bs = Nat.min n (length dh - ph)).
      { unfold bs. rewrite length_firstn, length_skipn. reflexivity. }
      assert (Hnin : ~ In h (bytes_handles rest)).
      { rewrite bytes_handles_cons in Hnd. cbn in Hnd.
        inversion Hnd; subst. assumption. }
      pose proof (not_in_rest h rest Hnin) as Hnin'.
      eexists bs, _, st'. split; [reflexivity|].
      split.
      { intros Ebs. rewrite Ebs in Hlbs. simpl in Hlbs.
        unfold len, ph in *. lia. }
      assert (Hdata : map data st' = map data st)
        by (apply map_data_upd; reflexivity).
      split; [|split; [|exact Hdata]].
      * unfold rest_of_all. cbn [map concat]. rewrite app_assoc.
        f_equal.
        -- cbn [rest_of]. rewrite Hg. unfold rd'. cbn [data pos].
           fold dh. fold ph.
           replace (Z.to_nat (pos (get st h) + len bs))
             with (length bs + ph)%nat by (unfold len, ph; lia).
           rewrite <- skipn_skipn. unfold bs.
           rewrite skipn_length_firstn. symmetry. apply firstn_skipn.
        -- f_equal. apply map_ext_in. intros x Hx.
           rewrite Forall_forall in Hrest, Hnin'.
           symmetry. apply (rest_of_other st st' h x); auto.
      * unfold readers_ok.
        assert (Hgf : get st' f = get st f) by (apply Hoth; congruence).
        rewrite Hgf.
        split; [apply no_faults_upd; auto|].
        split; [unfold st'; rewrite length_upd; exact Hf|].
        split; [exact Hlen|]. split; [exact Hnd|].
        split.
        -- cbn [reading]. rewrite Hg. unfold rd'. cbn [pos].
           unfold st'. rewrite length_upd. unfold len. repeat split; auto.
           lia.
        -- rewrite Forall_forall in Hrest, Hnin'. apply Forall_forall.
           intros x Hx. apply (waiting_other st st' h x); auto.
           apply length_upd.
Qed.

(** Draining: every read but the last delivers a byte. *)
Lemma old_drain_loop_spec (bufsz : nat) :
  (0 < bufsz)%nat ->
  forall (fuel : nat) (st : store) (readers : list ioReader)
         (out : list byte),
    readers_ok st f readers ->
    (length (rest_of_all st readers) < fuel)%nat ->
    drain_loop fuel st readers bufsz out
      = Some (Ok (out ++ rest_of_all st readers)).
Proof.
  intros Hbuf. induction fuel as [|fuel IH]; intros st readers out Hok Hfuel;
    [lia|].
  cbn [drain_loop].
  destruct (MultiReader_Read_spec bufsz Hbuf readers st Hok)
    as [(bs & readers' & st' & HR & Hne & Hrest & Hok' & _)
       | (st' & HR & Hnil)].
  - rewrite HR, Hrest, app_assoc. apply IH; [exact Hok'|].
    rewrite Hrest, length_app in Hfuel.
    destruct bs; [congruence|]. simpl in Hfuel. lia.
  - rewrite HR, Hnil. cbn [is_EOF]. reflexivity.
Qed.

End OldDrain.

(* ------------------------------------------------------------------ *)
(** ** The scan of pngutil.go on a framed file *)

Section OldScan.

Import SkipReaderVersion.

Variable f : handle.
Variable d : list byte.
Hypothesis Hlen : len d < 2 ^ 63.

(** One turn at the header of a whole chunk. *)
Lemma old_scan_turn (fuel : nat) (st : store) (p : list byte)
    (readers : list ioReader) (active : bool) (i : nat) :
  no_faults st -> (f < length st)%nat -> data (get st f) = d ->
  pos (get st f) = Z.of_nat i -> length p = 8%nat ->
  (i + 8 <= length d)%nat -> (next_chunk d i <= length d)%nat ->
  SkipReaderVersion.scan (S fuel) st f p readers (Z.of_nat i) active
    = SkipReaderVersion.scan fuel (file_at st f d (next_chunk d i)) f
        (slice d i (i + 8))
        (if retain (chunk_type d i) then
           if active then readers
           else readers ++ [RSkip (mkSkipReader f (Z.of_nat i) 0 false)]
         else
           if active then close_or_drop readers (Z.of_nat i) else readers)
        (Z.of_nat (next_chunk d i)) (retain (chunk_type d i)).
Proof.
  intros Hnf Hf Hd Hp Hp8 Hi Hnext.
  pose proof (Uint32_range (slice d i (i + 4))) as HU.
  unfold next_chunk in *. unfold len in Hlen.
  set (bs := slice d i (i + 8)).
  assert (Hbs : firstn 8 (skipn i d) = bs).
  { unfold bs, slice. f_equal. lia. }
  assert (Hbs8 : length bs = 8%nat).
  { unfold bs. rewrite length_slice_within; lia. }
  assert (Hfill : fill p bs = bs).
  { unfold fill. rewrite Hbs8, <- Hp8, skipn_all. apply app_nil_r. }
  assert (H04 : slice bs 0 4 = slice d i (i + 4)).
  { unfold bs, slice. cbn [skipn].
    rewrite firstn_firstn. f_equal; lia. }
  assert (H48 : slice bs 4 8 = chunk_type d i).
  { unfold chunk_type. rewrite (slice_skip d i (i + 8) 4). fold bs.
    unfold slice at 1. apply firstn_all2.
    rewrite length_skipn, Hbs8. simpl. lia. }
  cbn [SkipReaderVersion.scan].
  rewrite Reader_Read_plain
    by (auto using no_faults_get; rewrite ?Hp; lia).
  rewrite Hp, Hd, Nat2Z.id, Hp8, Hbs.
  assert (Hne : skipn i d <> []).
  { intros E. rewrite E in Hbs. rewrite firstn_nil in Hbs.
    rewrite <- Hbs in Hbs8. discriminate. }
  destruct (skipn i d) as [|b0 rest] eqn:Hsk; [congruence|].
  rewrite Hfill, Hbs8. cbn [Nat.eqb negb].
  rewrite H04, H48.
  set (length_ := Uint32 (slice d i (i + 4)) + 4) in *.
  set (r1 := {| data := d; pos := Z.of_nat i + len bs; faults := [] |}).
  rewrite get_upd_same by exact Hf.
  rewrite Reader_Seek_current_plain
    by (simpl; unfold len; rewrite ?Hbs8; auto; unfold length_; lia).
  change (pos r1) with (Z.of_nat i + len bs).
  change (data r1) with d.
  assert (Hnextz : Z.of_nat i + len bs + length_
                   = Z.of_nat (i + 12 + Z.to_nat (Uint32 (slice d i (i + 4))))).
  { unfold len, length_. rewrite Hbs8. lia. }
  rewrite Hnextz, upd_upd_same. unfold file_at.
  destruct (retain (chunk_type d i)); cbn [negb];
    destruct active; reflexivity.
Qed.

Lemma old_scan_end (fuel : nat) (st : store) (p : list byte)
    (readers : list ioReader) (active : bool) (at_ : Z) :
  no_faults st -> data (get st f) = d -> pos (get st f) = len d ->
  SkipReaderVersion.scan (S fuel) st f p readers at_ active
    = Some (inl (readers, at_), st).
Proof.
  intros Hnf Hd Hp. cbn [SkipReaderVersion.scan].
  unfold Reader_Read, next_fault. rewrite (no_faults_get st f Hnf).
  rewrite Hp, Hd.
  destruct (len d >=? len d) eqn:E;
    [|rewrite Z.geb_leb in E; apply Z.leb_gt in E; lia].
  cbn [is_EOF]. rewrite upd_get. reflexivity.
Qed.

Lemma last_of_snoc (R : list ioReader) (x : ioReader) :
  last_index (R ++ [x]) = length R /\
  nth (length R) (R ++ [x]) (RBytes 0%nat) = x /\
  firstn (length R) (R ++ [x]) = R /\
  forall y, set_nth (R ++ [x]) (length R) y = R ++ [y].
Proof.
  unfold last_index. rewrite length_app. cbn [length].
  split; [lia|]. split; [apply nth_middle|]. split.
  - rewrite firstn_app, firstn_all, Nat.sub_diag. cbn [firstn].
    apply app_nil_r.
  - intros y. induction R as [|z R IH]; simpl; [reflexivity|].
    rewrite IH. reflexivity.
Qed.

(** Closing the open view at byte [i], or dropping it when it is
    empty. *)
Lemma close_or_drop_open (R : list ioReader) (s i : nat) (l : Z) :
  close_or_drop (R ++ open_view f (Some (s, l))) (Z.of_nat i)
    = if (s =? i)%nat then R else R ++ [run_view f s i].
Proof.
  unfold close_or_drop, open_view.
  destruct (last_of_snoc R (RSkip (mkSkipReader f (Z.of_nat s) l false)))
    as (H1 & H2 & H3 & H4).
  rewrite H1, H2. cbn [offset].
  destruct (Z.of_nat s =? Z.of_nat i) eqn:E.
  - apply Z.eqb_eq in E.
    rewrite (proj2 (Nat.eqb_eq s i)) by lia. exact H3.
  - apply Z.eqb_neq in E.
    rewrite (proj2 (Nat.eqb_neq s i)) by lia. apply H4.
Qed.

Lemma kept_from_IEND (cf i : nat) :
  skipn i d = iend -> (length d - i <= cf)%nat ->
  kept_from d cf i = skipn i d.
Proof.
  intros Hend Hcf.
  apply (retained_bytes_run d i (retained_IEND d i Hend) cf Hcf).
Qed.

Lemma kept_from_chunk (cf i : nat) :
  (i + 8 <= length d)%nat ->
  kept_from d (S cf) i
    = (if retain (chunk_type d i) then slice d i (next_chunk d i) else [])
      ++ kept_from d cf (next_chunk d i).
Proof.
  intros Hi. unfold kept_from. rewrite chunks_of_at by exact Hi.
  cbn [filter fst]. destruct (retain (chunk_type d i)); reflexivity.
Qed.

(** From a chunk header on: the views the scan closes, the view it
    leaves open, and the bytes they stand for. *)
Lemma old_scan_framed (i : nat) :
  chunks_to_IEND d i ->
  forall (fuel cf : nat) (st : store) (p : list byte) (R : list ioReader)
         (open : option (nat * Z)),
    no_faults st -> (f < length st)%nat -> data (get st f) = d ->
    pos (get st f) = Z.of_nat i -> length p = 8%nat ->
    (length d - i + 2 <= fuel)%nat -> (length d - i <= cf)%nat ->
    (forall s l, open = Some (s, l) -> (s <= i)%nat) ->
    exists (runs : list (nat * nat)) (s' : nat) (l' : Z),
      SkipReaderVersion.scan fuel st f p (R ++ open_view f open)
        (Z.of_nat i) (is_open open)
      = Some (inl (R ++ map (run_of f) runs ++ open_view f (Some (s', l')),
                   len d),
              file_at st f d (length d)) /\
      Forall (fun sl => (fst sl < snd sl <= length d)%nat) runs /\
      (s' + 12 <= length d)%nat /\
      concat (map (run_bytes d) runs) ++ slice d s' (length d)
        = match open with
          | Some (s, _) => slice d s i
          | None => []
          end ++ kept_from d cf i.
Proof.
  induction 1 as [i Hend | i Hhdr Hnext IH];
    intros fuel cf st p R open Hnf Hf Hd Hp Hp8 Hfuel Hcf Hopen.
  - (* the IEND chunk, then the end of the file *)
    assert (Hi : (i + 12 = length d)%nat).
    { assert (E : length (skipn i d) = 12%nat) by (rewrite Hend; reflexivity).
      rewrite length_skipn in E. lia. }
    assert (H4 : slice d i (i + 4) = [x00; x00; x00; x00]).
    { unfold slice. rewrite Hend.
      replace (i + 4 - i)%nat with 4%nat by lia. reflexivity. }
    assert (H8 : chunk_type d i = tag_IEND).
    { unfold chunk_type. rewrite (slice_skip d i (i + 8) 4). unfold slice.
      rewrite Hend. replace (i + 8 - i)%nat with 8%nat by lia.
      reflexivity. }
    assert (Hn : next_chunk d i = length d).
    { unfold next_chunk. rewrite H4. simpl. lia. }
    destruct fuel as [|[|fuel]]; try lia.
    rewrite old_scan_turn by (auto; lia).
    rewrite H8, Hn.
    change (retain tag_IEND) with true. cbv iota.
    destruct (file_at_facts f d st (length d) Hnf Hf Hd)
      as (Hnf2 & Hf2 & Hd2 & Hp2 & Hm2 & _).
    rewrite old_scan_end by assumption.
    rewrite (kept_from_IEND cf i Hend Hcf).
    destruct open as [[s l]|]; cbn [is_open].
    + exists [], s, l. cbn [map app concat].
      specialize (Hopen s l eq_refl).
      split; [reflexivity|]. split; [constructor|]. split; [lia|].
      rewrite <- slice_to_end. symmetry. apply slice_split. lia.
    + exists [], i, 0. cbn [map app concat open_view].
      rewrite app_nil_r.
      split; [reflexivity|]. split; [constructor|]. split; [lia|].
      apply slice_to_end.
  - destruct (chunks_to_IEND_end _ _ Hnext) as [Hn12 _].
    fold (next_chunk d i) in Hnext, IH, Hn12.
    assert (Hni : (i + 12 <= next_chunk d i)%nat)
      by (unfold next_chunk; lia).
    destruct fuel as [|fuel]; [lia|].
    destruct cf as [|cf]; [lia|].
    rewrite old_scan_turn by (auto; lia).
    rewrite kept_from_chunk by exact Hhdr.
    destruct (file_at_facts f d st (next_chunk d i) Hnf Hf Hd)
      as (Hnf2 & Hf2 & Hd2 & Hp2 & Hm2 & _).
    assert (Hp82 : length (slice d i (i + 8)) = 8%nat).
    { unfold slice. rewrite length_firstn, length_skipn. lia. }
    assert (Hst : file_at (file_at st f d (next_chunk d i)) f d (length d)
                  = file_at st f d (length d)).
    { unfold file_at. apply upd_upd_same. }
    destruct (retain (chunk_type d i)) eqn:Hret;
      destruct open as [[s l]|]; cbn [is_open].
    + (* retained, a view is open *)
      specialize (Hopen s l eq_refl).
      destruct (IH fuel cf _ (slice d i (i + 8)) R (Some (s, l))
                  Hnf2 Hf2 Hd2 Hp2 Hp82 ltac:(lia) ltac:(lia))
        as (runs & s' & l' & Hscan & Hruns & Hs' & Hbytes).
      { intros s0 l0 E. injection E as <- <-. lia. }
      exists runs, s', l'. cbn [is_open] in Hscan.
      rewrite Hscan, Hst. split; [reflexivity|].
      split; [exact Hruns|]. split; [exact Hs'|].
      rewrite Hbytes, app_assoc. f_equal. symmetry.
      apply slice_split. lia.
    + (* retained, no view is open: one is opened here *)
      destruct (IH fuel cf _ (slice d i (i + 8)) R (Some (i, 0))
                  Hnf2 Hf2 Hd2 Hp2 Hp82 ltac:(lia) ltac:(lia))
        as (runs & s' & l' & Hscan & Hruns & Hs' & Hbytes).
      { intros s0 l0 E. injection E as <- <-. lia. }
      exists runs, s', l'. cbn [is_open open_view] in Hscan.
      cbn [open_view]. rewrite app_nil_r.
      rewrite Hscan, Hst. split; [reflexivity|].
      split; [exact Hruns|]. split; [exact Hs'|].
      rewrite Hbytes. reflexivity.
    + (* dropped, a view is open: it is closed here, or dropped *)
      specialize (Hopen s l eq_refl).
      rewrite close_or_drop_open.
      destruct (s =? i)%nat eqn:Esi.
      * apply Nat.eqb_eq in Esi. subst s.
        destruct (IH fuel cf _ (slice d i (i + 8)) R None
                    Hnf2 Hf2 Hd2 Hp2 Hp82 ltac:(lia) ltac:(lia))
          as (runs & s' & l' & Hscan & Hruns & Hs' & Hbytes);
          [discriminate|].
        exists runs, s', l'. cbn [is_open open_view] in Hscan.
        rewrite app_nil_r in Hscan.
        rewrite Hscan, Hst. split; [reflexivity|].
        split; [exact Hruns|]. split; [exact Hs'|].
        rewrite Hbytes, slice_empty. reflexivity.
      * apply Nat.eqb_neq in Esi.
        destruct (IH fuel cf _ (slice d i (i + 8)) (R ++ [run_view f s i])
                    None Hnf2 Hf2 Hd2 Hp2 Hp82 ltac:(lia) ltac:(lia))
          as (runs & s' & l' & Hscan & Hruns & Hs' & Hbytes);
          [discriminate|].
        exists ((s, i) :: runs), s', l'. cbn [is_open open_view] in Hscan.
        rewrite app_nil_r in Hscan.
        rewrite Hscan, Hst. split.
        { cbn [map app]. rewrite <- app_assoc. reflexivity. }
        split; [constructor; [simpl; lia | exact Hruns]|].
        split; [exact Hs'|].
        cbn [map concat]. rewrite <- app_assoc, Hbytes. reflexivity.
    + (* dropped, no view is open *)
      destruct (IH fuel cf _ (slice d i (i + 8)) R None
                  Hnf2 Hf2 Hd2 Hp2 Hp82 ltac:(lia) ltac:(lia))
        as (runs & s' & l' & Hscan & Hruns & Hs' & Hbytes);
        [discriminate|].
      exists runs, s', l'. cbn [is_open open_view] in Hscan.
      cbn [open_view]. rewrite Hscan, Hst. split; [reflexivity|].
      split; [exact Hruns|]. split; [exact Hs'|].
      rewrite Hbytes. reflexivity.
Qed.

End OldScan.

(* ------------------------------------------------------------------ *)
(** ** ReplaceMeta of pngutil.go on framed files *)

Lemma chunks_of_length (fuel : nat) :
  forall bs, (length (concat (map snd (chunks_of fuel bs))) <= length bs)%nat.
Proof.
  induction fuel as [|fuel IH]; intros bs; [simpl; lia|].
  cbn [chunks_of]. destruct (length bs <? 8)%nat; [simpl; lia|].
  cbn [map snd concat]. rewrite length_app.
  specialize (IH (skipn (12 + Z.to_nat (Uint32 (slice bs 0 4))) bs)).
  rewrite length_skipn in IH. rewrite length_firstn. lia.
Qed.

Lemma filter_chunks_length (p : list byte * list byte -> bool)
    (l : list (list byte * list byte)) :
  (length (concat (map snd (filter p l)))
   <= length (concat (map snd l)))%nat.
Proof.
  induction l as [|c l IH]; [simpl; lia|].
  cbn [filter map concat]. rewrite length_app.
  destruct (p c); cbn [map concat]; rewrite ?length_app; lia.
Qed.

Lemma kept_from_length (d : list byte) (cf i : nat) :
  (length (kept_from d cf i) <= length d - i)%nat.
Proof.
  unfold kept_from.
  pose proof (filter_chunks_length (fun c => retain (fst c))
                (chunks_of cf (skipn i d))) as H1.
  pose proof (chunks_of_length cf (skipn i d)) as H2.
  rewrite length_skipn in H2. lia.
Qed.

Lemma store_bytes_sum (st : store) :
  fold_right (fun rd n => (length (data rd) + n)%nat) 0%nat st
    = list_sum (map (@length byte) (map data st)).
Proof.
  induction st as [|r st IH]; [reflexivity|].
  cbn [fold_right map list_sum]. rewrite IH. reflexivity.
Qed.

Lemma nth_le_list_sum (l : list nat) (i : nat) :
  (nth i l 0 <= list_sum l)%nat.
Proof.
  revert i. induction l as [|x l IH]; intros [|i]; simpl; try lia.
  specialize (IH i). lia.
Qed.

Lemma length_data_le_sum (st : store) (h : handle) :
  (length (data (get st h))
   <= list_sum (map (@length byte) (map data st)))%nat.
Proof.
  rewrite data_get.
  replace (length (nth h (map data st) []))
    with (nth h (map (@length byte) (map data st)) 0%nat).
  - apply nth_le_list_sum.
  - change 0%nat with (length (@nil byte)). apply map_nth.
Qed.

Lemma bytes_handles_runs (f : handle) (runs : list (nat * nat))
    (tail : list SkipReaderVersion.ioReader) :
  bytes_handles (map (run_of f) runs ++ tail) = bytes_handles tail.
Proof.
  induction runs as [|sl runs IH]; [reflexivity|].
  cbn [map app]. rewrite bytes_handles_cons, IH. reflexivity.
Qed.

Lemma rest_of_runs (st : store) (f : handle) (d : list byte)
    (runs : list (nat * nat)) :
  data (get st f) = d ->
  concat (map (rest_of st) (map (run_of f) runs))
    = concat (map (run_bytes d) runs).
Proof.
  intros Hd. induction runs as [|[s l] runs IH]; [reflexivity|].
  cbn [map concat]. rewrite IH. f_equal.
  unfold run_of, run_view, run_bytes, rest_of, span.
  cbn [SkipReaderVersion.r SkipReaderVersion.offset SkipReaderVersion.limit
       fst snd].
  rewrite Hd, !Nat2Z.id. reflexivity.
Qed.

(** The readers the earlier [ReplaceMeta] returns for a framed file,
    drained. *)
Lemma old_ReplaceMeta_framed (st : store) (f : handle)
    (metadata : Metadata) :
  no_faults st -> (f < length st)%nat ->
  valid_pos (pos (get st f)) ->
  png_framed (data (get st f)) ->
  fits_uint32 metadata ->
  let d := data (get st f) in
  let blob := concat (map itxt_record metadata) in
  exists readers st',
    SkipReaderVersion.ReplaceMeta st f metadata = Some (Ok readers, st') /\
    map data st' = map data st ++ [blob] /\
    forall bufsz, (0 < bufsz)%nat ->
      SkipReaderVersion.drain st' readers bufsz
        = Some (Ok (spliced d blob)).
Proof.
  intros Hnf Hf Hvp Hframed Hfit d blob.
  pose proof Hframed as (_ & Hchunks & Hlen). fold d in Hchunks, Hlen.
  destruct (chunks_to_IEND_end _ _ Hchunks) as [Hge _].
  unfold SkipReaderVersion.ReplaceMeta.
  rewrite Assert_framed by (auto using no_faults_get).
  rewrite upd_get.
  assert (Henc : encode_metadata metadata
                 = Some (blob ++ make 8, itxtLen metadata)).
  { unfold encode_metadata. apply (encode_loop_tail metadata [] 8 Hfit). }
  rewrite Henc. cbv beta iota.
  assert (Hbl : length blob = itxtLen metadata) by apply length_blob.
  assert (Hsl : slice_checked (blob ++ make 8) (itxtLen metadata)
                  (length (blob ++ make 8)) = Some (make 8)).
  { apply (slice_checked_mid' _ blob (make 8) []).
    - rewrite app_nil_r. reflexivity.
    - symmetry. exact Hbl.
    - apply length_app. }
  rewrite Hsl. cbv beta iota.
  rewrite Reader_Seek_start_plain
    by (auto using no_faults_get; unfold ihdrEnd; lia).
  fold d.
  set (r2 := {| data := d; pos := ihdrEnd; faults := [] |}).
  set (st2 := upd st f r2).
  assert (Hnf2 : no_faults st2) by (apply no_faults_upd; auto).
  assert (Hlen2 : length st2 = length st) by apply length_upd.
  assert (Hfirst : firstn (length (blob ++ make 8) - 8) (blob ++ make 8)
                   = blob).
  { rewrite length_app, length_make.
    replace (length blob + 8 - 8)%nat with (length blob) by lia.
    rewrite firstn_app, firstn_all, Nat.sub_diag. simpl.
    apply app_nil_r. }
  rewrite Hfirst.
  unfold alloc. cbv beta iota. rewrite Hlen2.
  set (m := length st).
  set (st3 := st2 ++ [NewReader blob]).
  assert (Hnf3 : no_faults st3) by (apply no_faults_alloc; auto).
  assert (Hlen3 : length st3 = S m).
  { unfold st3. rewrite length_app, Hlen2. simpl. lia. }
  assert (Hf3 : (f < length st3)%nat) by lia.
  assert (Hg3 : get st3 f = r2).
  { unfold st3. rewrite get_alloc_old by lia. apply get_upd_same. exact Hf. }
  set (R := [ SkipReaderVersion.RSkip
                (SkipReaderVersion.mkSkipReader f 0 ihdrEnd false);
              SkipReaderVersion.RBytes m ]).
  change [ SkipReaderVersion.RSkip
             (SkipReaderVersion.mkSkipReader f 0 ihdrEnd false);
           SkipReaderVersion.RBytes m;
           SkipReaderVersion.RSkip
             (SkipReaderVersion.mkSkipReader f ihdrEnd 0 false) ]
    with (R ++ open_view f (Some (33%nat, 0))).
  change true with (is_open (Some (33%nat, 0))).
  change ihdrEnd with (Z.of_nat 33) at 1.
  destruct (old_scan_framed f d Hlen 33 Hchunks (scan_fuel st3 f)
              (length (skipn 33 d)) st3 (make 8) R (Some (33%nat, 0)))
    as (runs & s' & l' & Hscan & Hruns & Hs' & Hbytes); auto.
  { rewrite Hg3. reflexivity. }
  { rewrite Hg3. reflexivity. }
  { unfold scan_fuel. rewrite Hg3. change (data r2) with d. lia. }
  { rewrite length_skipn. lia. }
  { intros s l E. injection E as <- <-. lia. }
  rewrite Hscan.
  set (R' := R ++ map (run_of f) runs).
  rewrite app_assoc. fold R'. cbn [open_view].
  destruct (last_of_snoc R'
              (SkipReaderVersion.RSkip
                 (SkipReaderVersion.mkSkipReader f (Z.of_nat s') l' false)))
    as (H1 & H2 & _ & H4).
  rewrite H1, H2, H4.
  change (SkipReaderVersion.set_limit
            (SkipReaderVersion.mkSkipReader f (Z.of_nat s') l' false) (len d))
    with (SkipReaderVersion.mkSkipReader f (Z.of_nat s') (len d) false).
  set (st4 := file_at st3 f d (length d)).
  destruct (file_at_facts f d st3 (length d) Hnf3 Hf3)
    as (Hnf4 & Hf4 & Hd4 & Hp4 & Hm4 & Hlen4);
    [rewrite Hg3; reflexivity|].
  fold st4 in Hnf4, Hf4, Hd4, Hp4, Hm4, Hlen4.
  assert (Hm3 : map data st3 = map data st ++ [blob]).
  { unfold st3. rewrite map_app. f_equal.
    unfold st2. apply map_data_upd. reflexivity. }
  assert (Hgm : get st4 m = NewReader blob).
  { unfold st4, file_at. rewrite get_upd_other by (unfold m; lia).
    unfold st3, m. rewrite <- Hlen2. apply get_alloc_new. }
  set (last := SkipReaderVersion.RSkip
                 (SkipReaderVersion.mkSkipReader f (Z.of_nat s') (len d)
                    false)).
  eexists _, st4. split; [reflexivity|].
  split; [rewrite Hm4; exact Hm3|].
  intros bufsz Hbuf.
  assert (Hok : readers_ok st4 f (R' ++ [last])).
  { unfold readers_ok. rewrite Hd4.
    split; [exact Hnf4|]. split; [exact Hf4|]. split; [exact Hlen|].
    split.
    { unfold R', R. cbn [app].
      rewrite (bytes_handles_cons (SkipReaderVersion.RSkip _)).
      rewrite (bytes_handles_cons (SkipReaderVersion.RBytes m)).
      rewrite bytes_handles_runs.
      cbn. constructor; [intros []|constructor]. }
    unfold R', R. cbn [app]. split.
    { cbn [reading SkipReaderVersion.r SkipReaderVersion.offset
           SkipReaderVersion.limit SkipReaderVersion.begun].
      rewrite Hd4. unfold ihdrEnd, len. repeat split; lia. }
    constructor.
    { cbn [waiting]. rewrite Hgm, Hlen4, Hlen3. unfold m.
      simpl. repeat split; lia. }
    apply Forall_app. split.
    - apply Forall_map. eapply Forall_impl; [|exact Hruns].
      intros [s l] Hrun. cbn [fst snd] in Hrun.
      unfold run_of, run_view.
      cbn [waiting SkipReaderVersion.r SkipReaderVersion.offset
           SkipReaderVersion.limit SkipReaderVersion.begun fst snd].
      rewrite Hd4. unfold len. repeat split; lia.
    - constructor; [|constructor].
      unfold last.
      cbn [waiting SkipReaderVersion.r SkipReaderVersion.offset
           SkipReaderVersion.limit SkipReaderVersion.begun].
      rewrite Hd4. unfold len. repeat split; lia. }
  assert (Hrest : rest_of_all st4 (R' ++ [last]) = spliced d blob).
  { unfold rest_of_all, R', R.
    rewrite !map_app, !concat_app. cbn [map concat].
    rewrite (rest_of_runs st4 f d runs Hd4).
    rewrite !app_nil_r, <- !app_assoc.
    unfold spliced. f_equal; [|f_equal].
    - cbn [rest_of SkipReaderVersion.r SkipReaderVersion.offset
           SkipReaderVersion.limit]. unfold span. rewrite Hd4.
      reflexivity.
    - cbn [rest_of]. rewrite Hgm. reflexivity.
    - unfold last.
      cbn [rest_of SkipReaderVersion.r SkipReaderVersion.offset
           SkipReaderVersion.limit]. unfold span. rewrite Hd4.
      unfold len. rewrite !Nat2Z.id.
      rewrite Hbytes, slice_empty. reflexivity. }
  unfold SkipReaderVersion.drain.
  rewrite (old_drain_loop_spec f bufsz Hbuf _ st4 (R' ++ [last]) [] Hok).
  - rewrite Hrest. reflexivity.
  - rewrite Hrest, store_bytes_sum, Hm4, Hm3.
    rewrite map_app, list_sum_app. cbn [map list_sum].
    pose proof (length_data_le_sum st f) as Hsum. fold d in Hsum.
    unfold spliced, retained_bytes. fold (kept_from d (length (skipn 33 d)) 33).
    pose proof (kept_from_length d (length (skipn 33 d)) 33) as Hk.
    rewrite !length_app, length_firstn.
    change (list_sum [length blob]) with (length blob + 0)%nat. lia.
Qed.

(** X13 ([ReplaceMeta] of pngutil.go, with [skipReader.Read] and
    [io.MultiReader]): the earlier implementation yields the splice on
    every framed file.  For a file held by a plain reader that starts
    with the signature and IHDR and continues from byte 33 in whole
    chunks up to IEND, and a mapping whose records fit their length
    fields, [ReplaceMeta] returns readers which, drained with any
    buffer as [WriteFile] drains them, deliver the first 33 bytes, the
    iTXt records of the mapping, and every retained chunk whole and in
    order - wherever the dropped chunks stand. *)
Theorem skipReader_ReplaceMeta_splices (st : store) (f : handle)
    (metadata : Metadata) :
  no_faults st -> (f < length st)%nat ->
  valid_pos (pos (get st f)) ->
  png_framed (data (get st f)) ->
  fits_uint32 metadata ->
  let d := data (get st f) in
  let blob := concat (map itxt_record metadata) in
  exists readers st',
    SkipReaderVersion.ReplaceMeta st f metadata = Some (Ok readers, st') /\
    map data st' = map data st ++ [blob] /\
    forall bufsz, (0 < bufsz)%nat ->
      SkipReaderVersion.drain st' readers bufsz
        = Some (Ok (spliced d blob)).
Proof. exact (old_ReplaceMeta_framed st f metadata). Qed.

Lemma png_text_last_framed : png_framed png_text_last.
Proof.
  split; [reflexivity|]. split; [|vm_compute; reflexivity].
  apply at_chunk; [vm_compute; lia|].
  apply at_chunk; [vm_compute; lia|].
  apply at_IEND. vm_compute. reflexivity.
Qed.

Lemma skipReader_ReplaceMeta_splices_witness :
  exists readers st',
    SkipReaderVersion.ReplaceMeta [NewReader png_text_last] 0%nat two_entries
      = Some (Ok readers, st') /\
    SkipReaderVersion.drain st' readers 64
      = Some (Ok (spliced png_text_last
                    (concat (map itxt_record two_entries)))).
Proof.
  destruct (skipReader_ReplaceMeta_splices [NewReader png_text_last] 0%nat
              two_entries)
    as (readers & st' & HR & _ & Hdrain).
  - repeat constructor.
  - simpl. lia.
  - unfold valid_pos. simpl. lia.
  - exact png_text_last_framed.
  - exact two_entries_fit.
  - exists readers, st'. split; [exact HR|].
    apply (Hdrain 64%nat). lia.
Defined.



(* ------------------------------------------------------------------ *)
(** ** The mapping without entries: what the views over the file hold *)




Section ScanCovered.

Variable f : handle.
Variable d : list byte.
Variables hdr meta : skipReadSeeker.t.
Hypothesis Hlen : len d < 2 ^ 63.



End ScanCovered.





